(** * claude-code-viewer: the view-model computations of the dashboard

    A shallow embedding of the pure and state-passing parts of the React
    components under [frontend/src/components], and the properties the
    specification states about them.

    Conventions of the embedding.
    - A JavaScript string is a [string], the sequence of its code units
      (units above 255 are not represented); a [number] that counts
      something (lines, file changes) is a [Z], a score or a JSON number is
      a [Q].
    - A value that may be [undefined] is an [option].
    - A [Record<string, V>] is a [gmap string V] of own properties; a read
      [o[k]] that finds no own property continues on [Object.prototype]
      (see [objGet]).
    - A [Map<string, string>] is an association list in insertion order.
    - A computation that may throw returns a [completion]. *)

From Stdlib Require Import ZArith QArith String Ascii List Lia Bool.
From Stdlib Require Import Numbers.DecimalString QArith.Qround.
From stdpp Require Import gmap strings list fin_maps.
Import ListNotations.

#[local] Set Warnings "-register-all".
#[local] Open Scope string_scope.

(** ** JavaScript strings *)

Module JsString.

Definition slash : ascii := "/"%char.

(** [s.split(sep)] for a one-character separator: never empty. *)
Fixpoint split (sep : ascii) (s : string) : list string :=
  match s with
  | EmptyString => [EmptyString]
  | String c rest =>
      if Ascii.eqb c sep then EmptyString :: split sep rest
      else match split sep rest with
           | seg :: segs => String c seg :: segs
           | [] => [String c EmptyString]
           end
  end.

(** [a.join(sep)] on an array of strings. *)
Fixpoint join (sep : string) (l : list string) : string :=
  match l with
  | [] => EmptyString
  | [x] => x
  | x :: rest => x +:+ sep +:+ join sep rest
  end.

(** [s.substring(n)]: the string without its first [n] characters. *)
Fixpoint substringFrom (n : nat) (s : string) : string :=
  match n, s with
  | O, _ => s
  | S n', String _ rest => substringFrom n' rest
  | S _, EmptyString => EmptyString
  end.

(** [s.substring(0, n)]. *)
Definition substringTo (n : nat) (s : string) : string := String.substring 0 n s.

(** [s.replace(/^\//, '')]: one leading slash is dropped. *)
Definition stripLeadingSlash (s : string) : string :=
  match s with
  | String c rest => if Ascii.eqb c slash then rest else s
  | EmptyString => s
  end.

(** [s.lastIndexOf(c)]; [None] stands for the result -1. *)
Fixpoint lastIndexOf (c : ascii) (s : string) : option nat :=
  match s with
  | EmptyString => None
  | String a rest =>
      match lastIndexOf c rest with
      | Some k => Some (S k)
      | None => if Ascii.eqb a c then Some O else None
      end
  end.

(** [String(n)] for a non-negative integer. *)
Definition ofNat (n : nat) : string := NilZero.string_of_uint (Nat.to_uint n).

(** White space as [String.prototype.trim] sees it, for code units below
    256: TAB, LF, VT, FF, CR, SPACE and NBSP. *)
Definition isWhiteSpace (c : ascii) : bool :=
  let n := nat_of_ascii c in
  ((9 <=? n)%nat && (n <=? 13)%nat) || (n =? 32)%nat || (n =? 160)%nat.

Fixpoint trimStart (s : string) : string :=
  match s with
  | String c rest => if isWhiteSpace c then trimStart rest else s
  | EmptyString => EmptyString
  end.

Fixpoint trimEnd (s : string) : string :=
  match s with
  | EmptyString => EmptyString
  | String c rest =>
      match trimEnd rest with
      | EmptyString => if isWhiteSpace c then EmptyString else String c EmptyString
      | r => String c r
      end
  end.

Definition trim (s : string) : string := trimEnd (trimStart s).

End JsString.

(** ** Completions: a normal result or a thrown exception *)

(** What is thrown, or what a promise is rejected with. *)
Inductive JsError := TypeError | SyntaxError | Rejected (reason : string).

Inductive completion (A : Type) :=
| Normal (a : A)
| Throw (e : JsError).
Arguments Normal {A} a.
Arguments Throw {A} e.

#[global] Instance completion_ret : MRet completion := fun A a => Normal a.

#[global] Instance completion_bind : MBind completion := fun A B k c =>
  match c with
  | Normal a => k a
  | Throw e => Throw e
  end.

(** [try { body } catch (e) { handler }] *)
Definition tryCatch {A} (body : completion A) (handler : JsError -> completion A)
  : completion A :=
  match body with
  | Normal a => Normal a
  | Throw e => handler e
  end.

(** [xs.map((x, i) => f x i)], stopping at the first callback that throws. *)
Fixpoint mapIndexed {A B} (f : A -> nat -> completion B) (i : nat) (xs : list A)
  : completion (list B) :=
  match xs with
  | [] => Normal []
  | x :: rest =>
      y ← f x i;
      ys ← mapIndexed f (S i) rest;
      Normal (y :: ys)
  end.

(** ** The file-change modal: common prefix of the changed paths
    (FileChangeModal.tsx, [buildFileTree], step 1) and the one-shot details
    modal ([getCommonPrefix]) *)

Module CommonPrefix.
Import JsString.

(** [Math.min(...lens)] on a non-empty array. *)
Definition minLength (lens : list nat) : nat :=
  match lens with
  | [] => O
  | n :: rest => fold_left Nat.min rest n
  end.

(** [splitPaths.every(p => p[i] === segment)]; [p[i]] is [undefined]
    out of range. *)
Definition everyAgrees (splitPaths : list (list string)) (i : nat)
    (segment : option string) : bool :=
  forallb (fun p => bool_decide (p !! i = segment)) splitPaths.

(** The [for (let i = 0; i < minLen - 1; i++)] loop with its [break];
    [k] iterations remain, the next index is [i].  The index stays below
    the length of every path, so [splitPaths[0][i]] is a string. *)
Fixpoint prefixLoop (splitPaths : list (list string)) (k i : nat) : list string :=
  match k with
  | O => []
  | S k' =>
      match hd [] splitPaths !! i with
      | Some segment =>
          if everyAgrees splitPaths i (Some segment)
          then segment :: prefixLoop splitPaths k' (S i)
          else []
      | None => []
      end
  end.

(** The array [commonParts] ([commonPrefix] in [buildFileTree]) after the
    loop. *)
Definition commonParts (paths : list string) : list string :=
  let splitPaths := map (split slash) paths in
  let minLen := minLength (map (@length string) splitPaths) in
  prefixLoop splitPaths (minLen - 1) 0.

(** [prefixString] of [buildFileTree]. *)
Definition prefixString (paths : list string) : string :=
  join "/" (commonParts paths).

(** [getCommonPrefix] of the one-shot details modal. *)
Definition getCommonPrefix (strs : list string) : string :=
  match strs with
  | [] => ""
  | [s] =>
      match lastIndexOf slash s with
      | Some (S k) => substringTo (S k + 1) s
      | _ => ""
      end
  | _ =>
      let commonParts := commonParts strs in
      if (0 <? length commonParts)%nat then join "/" commonParts +:+ "/" else ""
  end.

End CommonPrefix.

(** ** JavaScript objects used as maps

    An object made by [{}] has [Object.prototype] as its prototype, so a
    read [o[k]] that finds no own property [k] finds the member of
    [Object.prototype] of that name, if there is one. *)

Module JsObject.

(** The members of [Object.prototype] that are functions. *)
Definition functionMembers : list string :=
  [ "constructor"; "hasOwnProperty"; "isPrototypeOf"; "propertyIsEnumerable";
    "toLocaleString"; "toString"; "valueOf";
    "__defineGetter__"; "__defineSetter__"; "__lookupGetter__"; "__lookupSetter__" ].

(** The properties this program can add to [Object.prototype] itself: the
    tree builder assigns [fullPath] and [status] to whatever
    [current[part]] is. *)
Record ObjectPrototype := {
  protoFullPath : option string;
  protoStatus : option string
}.

Definition pristine : ObjectPrototype :=
  {| protoFullPath := None; protoStatus := None |}.

(** What a read finds on the prototype. *)
Inductive inherited :=
| InhFunction            (* one of [functionMembers] *)
| InhPrototype           (* [__proto__]: [Object.prototype] itself *)
| InhString (s : string) (* a string assigned to [Object.prototype] earlier *).

Definition inheritedGet (op : ObjectPrototype) (k : string) : option inherited :=
  if String.eqb k "__proto__" then Some InhPrototype
  else if existsb (String.eqb k) functionMembers then Some InhFunction
  else if String.eqb k "fullPath" then InhString <$> protoFullPath op
  else if String.eqb k "status" then InhString <$> protoStatus op
  else None.

Definition inheritedTruthy (i : inherited) : bool :=
  match i with
  | InhFunction | InhPrototype => true
  | InhString s => negb (String.eqb s "")
  end.

(** The result of [o[k]]. *)
Inductive lookup (V : Type) :=
| Own (v : V)
| Inherited (i : inherited)
| Undefined.
Arguments Own {V} v.
Arguments Inherited {V} i.
Arguments Undefined {V}.

Definition objGet {V} (op : ObjectPrototype) (o : gmap string V) (k : string)
  : lookup V :=
  match o !! k with
  | Some v => Own v
  | None =>
      match inheritedGet op k with
      | Some i => Inherited i
      | None => Undefined
      end
  end.

End JsObject.

(** ** [Map<string, string>]: keys in insertion order *)

Module JsMap.

Definition t := list (string * string).

Fixpoint get (k : string) (m : t) : option string :=
  match m with
  | [] => None
  | (k', v) :: rest => if String.eqb k k' then Some v else get k rest
  end.

(** [m.set(k, v)]: an existing key keeps its place. *)
Fixpoint set (k v : string) (m : t) : t :=
  match m with
  | [] => [(k, v)]
  | (k', v') :: rest =>
      if String.eqb k k' then (k', v) :: rest else (k', v') :: set k v rest
  end.

Definition keys (m : t) : list string := map fst m.

End JsMap.

(** ** FileChangeModal.tsx *)

Module FileChangeModal.
Import JsString JsObject.

Record FileChange := {
  tool : string;
  type : string;
  path : string;
  timestamp : string;
  content : option string;
  target_content : option string;
  diff : option string
}.

Inductive TreeNode := mkTreeNode {
  name : string;
  fullPath : option string;
  status : option string;
  children : gmap string TreeNode;
  isOpen : bool
}.

Record BuiltTree := { root : gmap string TreeNode; prefix : string }.

(** [{ name: part, children: {}, isOpen: true }] *)
Definition newNode (part : string) : TreeNode :=
  mkTreeNode part None None ∅ true.

(** [node.fullPath = path; node.status = fileMap.get(path)] *)
Definition markFile (p : string) (st : option string) (n : TreeNode) : TreeNode :=
  mkTreeNode (name n) (Some p) st (children n) (isOpen n).

Definition withChildren (n : TreeNode) (kids : gmap string TreeNode) : TreeNode :=
  mkTreeNode (name n) (fullPath n) (status n) kids (isOpen n).

(** The same two assignments when [current[part]] is [Object.prototype]. *)
Definition pollute (p : string) (st : option string) (op : ObjectPrototype)
  : ObjectPrototype :=
  {| protoFullPath := Some p; protoStatus := st |}.

Definition isLast (rest : list string) : bool :=
  match rest with [] => true | _ => false end.

(** The inner [parts.forEach((part, idx) => ...)], from the object
    [current] on.  The nodes are mutated in place in the source; here the
    updated [current] is returned.  When [current[part]] is inherited, it
    is no tree node: its [children] is [undefined], and the next
    [current[part]] throws; assigning a property to an inherited string
    throws as well (module code is strict). *)
Fixpoint insertParts (p : string) (st : option string) (parts : list string)
    (op : ObjectPrototype) (current : gmap string TreeNode)
  : ObjectPrototype * completion (gmap string TreeNode) :=
  match parts with
  | [] => (op, Normal current)
  | part :: rest =>
      let descend (node : TreeNode) :=
        let node1 := if isLast rest then markFile p st node else node in
        let '(op', r) := insertParts p st rest op (children node1) in
        (op', kids ← r; Normal (<[part := withChildren node1 kids]> current)) in
      let onInherited (i : inherited) :=
        if isLast rest then
          match i with
          | InhFunction => (op, Normal current)
          | InhPrototype => (pollute p st op, Normal current)
          | InhString _ => (op, Throw TypeError)
          end
        else (op, Throw TypeError) in
      match objGet op current part with
      | Own node => descend node
      | Inherited i =>
          if inheritedTruthy i then onInherited i else descend (newNode part)
      | Undefined => descend (newNode part)
      end
  end.

(** [path.substring(prefixString.length).replace(/^\//, '').split('/')] *)
Definition relativeParts (prefixString p : string) : list string :=
  split slash (stripLeadingSlash (substringFrom (String.length prefixString) p)).

(** One round of [paths.forEach(path => ...)]: a path equal to the prefix
    is skipped. *)
Definition insertPath (prefixString : string) (fileMap : JsMap.t)
    (acc : ObjectPrototype * completion (gmap string TreeNode)) (p : string)
  : ObjectPrototype * completion (gmap string TreeNode) :=
  match acc with
  | (op, Normal rt) =>
      match relativeParts prefixString p with
      | [ EmptyString ] => (op, Normal rt)
      | parts => insertParts p (JsMap.get p fileMap) parts op rt
      end
  | (op, Throw e) => (op, Throw e)
  end.

(** [buildFileTree(fileMap)], run with [Object.prototype] in state [op]. *)
Definition buildFileTree (op : ObjectPrototype) (fileMap : JsMap.t)
  : ObjectPrototype * completion BuiltTree :=
  let paths := JsMap.keys fileMap in
  match paths with
  | [] => (op, Normal {| root := ∅; prefix := "" |})
  | _ =>
      let prefixString := CommonPrefix.prefixString paths in
      let '(op', r) :=
        fold_left (insertPath prefixString fileMap) paths (op, Normal ∅) in
      (op', rt ← r; Normal {| root := rt; prefix := prefixString |})
  end.

(** [fileStatusMap]: the body of [changes.forEach(c => ...)]. *)
Definition fileStatusStep (m : JsMap.t) (c : FileChange) : JsMap.t :=
  if bool_decide (JsMap.get (path c) m = Some "write") then m
  else JsMap.set (path c) (type c) m.

Definition fileStatusMap (changes : list FileChange) : JsMap.t :=
  fold_left fileStatusStep changes [].

End FileChangeModal.

(** ** The code-survival viewers (OneShotDiffViewer, OneShotDetailsModal) *)

Module OneShot.

Record FileStat := {
  path : string;
  score : Q;
  status : string;
  total_lines : option Z;
  retained_lines : option Z;
  session_content : option string;
  current_content : option string
}.

(** [x === 0] for an optional number. *)
Definition strictlyZero (x : option Z) : bool :=
  match x with
  | Some n => (n =? 0)%Z
  | None => false
  end.

(** [(file.total_lines === 0 && file.retained_lines === 0) ? 100 : file.score],
    the same expression in both viewers. *)
Definition displayScore (file : FileStat) : Q :=
  if strictlyZero (total_lines file) && strictlyZero (retained_lines file)
  then 100%Q
  else score file.

End OneShot.

(** ** ProjectDetails: loading the one-shot statistics per session *)

Module ProjectDetails.
Import JsObject.

Record Tag := { tag_id : Z; tag_name : string; tag_color : string }.

(** [Session] of types.ts. *)
Record Session := {
  id : string;
  project_name : string;
  file_path : string;
  start_time : option string;
  tags : option (list Tag);
  model : option string;
  total_tokens : option Z;
  file_change_count : option Z;
  input_tokens : option Z;
  output_tokens : option Z;
  turns : option Z;
  branch : option string;
  token_usage_history : option string
}.

Record FileSummary := { fs_path : string; fs_score : Q; fs_status : string }.

Record OneShotStats := {
  overall_score : Q;
  file_count : Z;
  file_stats : list FileSummary
}.

(** The two [useState] cells the loader reads and writes. *)
Record StatsState := {
  oneShotStats : gmap string OneShotStats;
  loadingStats : gmap string bool
}.

Definition emptyStats : StatsState :=
  {| oneShotStats := ∅; loadingStats := ∅ |}.

(** What the loader does to the world. *)
Inductive Effect :=
| SetLoadingStats (sid : string) (b : bool)
    (* [setLoadingStats(prev => ({ ...prev, [sid]: b }))] *)
| SetOneShotStats (sid : string) (stats : OneShotStats)
    (* [setOneShotStats(prev => ({ ...prev, [sid]: stats }))] *)
| GetOneShotStats (sid : string) (exts : list string)
    (* [api.getOneShotStats(sid, exts)] *)
| ConsoleError (msg : string).

(** The updater [prev => ({ ...prev, [sessionId]: stats })]. *)
Definition applyResult (sid : string) (stats : OneShotStats)
    (prev : gmap string OneShotStats) : gmap string OneShotStats :=
  <[sid := stats]> prev.

(** The updater [prev => ({ ...prev, [sessionId]: b })]. *)
Definition applyLoading (sid : string) (b : bool)
    (prev : gmap string bool) : gmap string bool :=
  <[sid := b]> prev.

Section Loader.
(** The state of [Object.prototype] when the component runs. *)
Variable op : ObjectPrototype.

(** Truthiness of [loadingStats[sessionId]]. *)
Definition loadingTruthy (m : gmap string bool) (sid : string) : bool :=
  match objGet op m sid with
  | Own b => b
  | Inherited i => inheritedTruthy i
  | Undefined => false
  end.

(** Truthiness of [oneShotStats[sessionId]]: a statistics object is
    truthy. *)
Definition statsTruthy (m : gmap string OneShotStats) (sid : string) : bool :=
  match objGet op m sid with
  | Own _ => true
  | Inherited i => inheritedTruthy i
  | Undefined => false
  end.

(** [loadingStats[sessionId] || oneShotStats[sessionId]], on the maps the
    callback closed over. *)
Definition guard (captured : StatsState) (sid : string) : bool :=
  loadingTruthy (loadingStats captured) sid || statsTruthy (oneShotStats captured) sid.

(** [loadOneShotStats(sessionId)] up to its [await]. *)
Definition loadOneShotStats_begin (captured : StatsState) (sid : string)
  : list Effect :=
  if guard captured sid then []
  else [SetLoadingStats sid true; GetOneShotStats sid ["md"; "txt"]].

(** [loadOneShotStats(sessionId)] after the [await], on the response. *)
Definition loadOneShotStats_resume (sid : string) (response : completion OneShotStats)
  : list Effect :=
  match response with
  | Normal stats => [SetOneShotStats sid stats; SetLoadingStats sid false]
  | Throw _ =>
      [ConsoleError ("Failed to load stats for " +:+ sid); SetLoadingStats sid false]
  end.

(** [s.file_change_count || 0] *)
Definition orZero (x : option Z) : Z := default 0%Z x.

(** [sessions.filter(s => (s.file_change_count || 0) > 0)] *)
Definition sessionsWithChanges (sessions : list Session) : list Session :=
  List.filter (fun s => (0 <? orZero (file_change_count s))%Z) sessions.

(** What the auto-load effect needs of the component. *)
Record View := {
  loading : bool;
  sessions : list Session;
  autoLoadTriggered : bool;
  stats : StatsState
}.

(** The effect "Auto-Calculate One Shot Stats": the new value of the ref
    and what the calls of the loader do. *)
Definition autoLoad (v : View) : bool * list Effect :=
  if negb (loading v) && (0 <? length (sessions v))%nat && negb (autoLoadTriggered v)
  then (true,
        flat_map (fun s => loadOneShotStats_begin (stats v) (id s))
                 (sessionsWithChanges (sessions v)))
  else (autoLoadTriggered v, []).

(** The session ids a list of effects requests statistics for. *)
Definition requested (effs : list Effect) : list string :=
  flat_map (fun e => match e with GetOneShotStats sid _ => [sid] | _ => [] end) effs.

(** *** The component over time

    [writes] logs every application of a result to the result map,
    [inflight] the requests without a response yet. *)
Record System := {
  cur : StatsState;
  inflight : list string;
  writes : list string
}.

Definition initial : System :=
  {| cur := emptyStats; inflight := []; writes := [] |}.

Definition applyEffect (σ : System) (e : Effect) : System :=
  match e with
  | SetLoadingStats sid b =>
      {| cur := {| oneShotStats := oneShotStats (cur σ);
                   loadingStats := applyLoading sid b (loadingStats (cur σ)) |};
         inflight := inflight σ; writes := writes σ |}
  | SetOneShotStats sid st =>
      {| cur := {| oneShotStats := applyResult sid st (oneShotStats (cur σ));
                   loadingStats := loadingStats (cur σ) |};
         inflight := inflight σ; writes := sid :: writes σ |}
  | GetOneShotStats sid _ =>
      {| cur := cur σ; inflight := sid :: inflight σ; writes := writes σ |}
  | ConsoleError _ => σ
  end.

Definition applyEffects (effs : list Effect) (σ : System) : System :=
  fold_left applyEffect effs σ.

(** One pending request less. *)
Fixpoint removeOne (sid : string) (l : list string) : list string :=
  match l with
  | [] => []
  | x :: rest => if String.eqb sid x then rest else x :: removeOne sid rest
  end.

Definition settle (sid : string) (σ : System) : System :=
  {| cur := cur σ; inflight := removeOne sid (inflight σ); writes := writes σ |}.

Inductive Event :=
| Click (sid : string)
    (* the retry button of a row: the loader of the latest render *)
| AutoLoad (ss : list Session)
    (* the auto-load effect fires on the session list [ss]: every call
       uses the loader of one and the same render *)
| Resolve (sid : string) (st : OneShotStats)
| Reject (sid : string) (e : JsError).

Definition pending (sid : string) (σ : System) : bool :=
  existsb (String.eqb sid) (inflight σ).

Definition step (σ : System) (ev : Event) : System :=
  match ev with
  | Click sid => applyEffects (loadOneShotStats_begin (cur σ) sid) σ
  | AutoLoad ss =>
      applyEffects
        (flat_map (fun s => loadOneShotStats_begin (cur σ) (id s))
                  (sessionsWithChanges ss)) σ
  | Resolve sid st =>
      if pending sid σ
      then applyEffects (loadOneShotStats_resume sid (Normal st)) (settle sid σ)
      else σ
  | Reject sid e =>
      if pending sid σ
      then applyEffects (loadOneShotStats_resume sid (Throw e)) (settle sid σ)
      else σ
  end.

Definition run (evs : list Event) : System := fold_left step evs initial.

(** How often [sid] occurs in a log. *)
Definition occurrences (sid : string) (l : list string) : nat :=
  length (List.filter (String.eqb sid) l).

(** The session lists the effect is fired on carry pairwise distinct ids
    among the sessions with file changes. *)
Fixpoint distinctIds (evs : list Event) : Prop :=
  match evs with
  | [] => True
  | AutoLoad ss :: rest => NoDup (map id (sessionsWithChanges ss)) ∧ distinctIds rest
  | _ :: rest => distinctIds rest
  end.

End Loader.

End ProjectDetails.

(** ** JSON values, as [JSON.parse] returns them *)

Module Json.

Inductive json :=
| JNull
| JBool (b : bool)
| JNum (q : Q)
| JStr (s : string)
| JArr (items : list json)
| JObj (fields : list (string * json)).

(** A JavaScript value read from parsed JSON; [None] is [undefined]. *)
Definition jsval := option json.

Fixpoint assoc (k : string) (fields : list (string * json)) : jsval :=
  match fields with
  | [] => None
  | (k', v) :: rest => if String.eqb k k' then Some v else assoc k rest
  end.

(** [h.k] for a property name [k] that no prototype defines ([input],
    [output], [total], [timestamp]): reading a property of [null] throws,
    a primitive or an array has no such property. *)
Definition getField (h : json) (k : string) : completion jsval :=
  match h with
  | JNull => Throw TypeError
  | JObj fields => Normal (assoc k fields)
  | _ => Normal None
  end.

Definition truthy (v : jsval) : bool :=
  match v with
  | None | Some JNull => false
  | Some (JBool b) => b
  | Some (JNum q) => negb (Qeq_bool q 0)
  | Some (JStr s) => negb (String.eqb s "")
  | Some (JArr _) | Some (JObj _) => true
  end.

(** [v || 0] *)
Definition orZero (v : jsval) : jsval :=
  if truthy v then v else Some (JNum 0).

(** [history.map(f)]: only an array has a [map] to call. *)
Definition arrayMap {B} (history : json) (f : json -> nat -> completion B)
  : completion (list B) :=
  match history with
  | JArr items => mapIndexed f 0 items
  | _ => Throw TypeError
  end.

End Json.

(** ** The token-usage chart (SessionStatsModal, SessionAnalyticsModal) *)

Module TokenChart.
Import JsString Json.

Record Point := {
  name : string;
  input : jsval;
  output : jsval;
  total : jsval;
  time : string
}.

Section Platform.
(** [JSON.parse]: throws a [SyntaxError] on text that is not JSON. *)
Variable JSON_parse : string -> completion json.
(** [new Date(v).toLocaleTimeString()], in the locale of the browser. *)
Variable toLocaleTimeString : jsval -> completion string.
(** The translation function [t] of react-i18next. *)
Variable t : string -> string.

(** The callback of [history.map] in SessionStatsModal. *)
Definition statsPoint (h : json) (i : nat) : completion Point :=
  inp ← getField h "input";
  out ← getField h "output";
  tot ← getField h "total";
  ts ← getField h "timestamp";
  tm ← toLocaleTimeString ts;
  Normal {| name := "Turn " +:+ ofNat (i + 1);
            input := inp; output := out; total := tot; time := tm |}.

(** The callback of [history.map] in SessionAnalyticsModal. *)
Definition analyticsPoint (h : json) (i : nat) : completion Point :=
  let label := t "analytics.turn" +:+ " " +:+ ofNat (i + 1) in
  inp ← getField h "input";
  out ← getField h "output";
  tot ← getField h "total";
  ts ← getField h "timestamp";
  tm ← (if truthy ts then toLocaleTimeString ts else Normal "");
  Normal {| name := label;
            input := orZero inp; output := orZero out; total := orZero tot;
            time := tm |}.

(** The body of the [useMemo], for either callback. *)
Definition chartDataWith (point : json -> nat -> completion Point)
    (token_usage_history : option string) : completion (list Point) :=
  match token_usage_history with
  | None => Normal []
  | Some s =>
      if String.eqb s "" then Normal []
      else tryCatch
             (history ← JSON_parse s; arrayMap history point)
             (fun _ => Normal [])
  end.

(** [chartData] of SessionStatsModal. *)
Definition chartData_stats := chartDataWith statsPoint.

(** [chartData] of SessionAnalyticsModal. *)
Definition chartData_analytics := chartDataWith analyticsPoint.

End Platform.

End TokenChart.

(** ** TagManager (MessageItem.tsx) *)

Module TagManager.
Import JsString.

Record Tag := { id : Z; name : string; color : string }.

Record State := {
  tags : list Tag;
  isAdding : bool;
  newTagName : string;
  allTags : list Tag
}.

Inductive Effect :=
| AddTag (sessionId tagName : string)      (* [api.addTag(sessionId, name)] *)
| RemoveTag (sessionId tagName : string)   (* [api.removeTag(sessionId, name)] *)
| OnTagsChange                             (* [onTagsChange()] *)
| ConsoleError (msg : string).

(** [handleAddTag]: [captured] is the render the handler closed over,
    [response] how the API call settles, [now] is [Date.now()], and the
    updaters run on the state [s] of that moment. *)
Definition handleAddTag (sessionId : string) (captured : State)
    (response : completion unit) (now : Z) (s : State) : State * list Effect :=
  if String.eqb (trim (newTagName captured)) "" then (s, [])
  else
    match response with
    | Normal _ =>
        let newTag := {| id := now; name := newTagName captured; color := "blue" |} in
        ({| tags := tags s ++ [newTag]; isAdding := false; newTagName := "";
            allTags := allTags s |},
         [AddTag sessionId (newTagName captured); OnTagsChange])
    | Throw _ =>
        (s, [AddTag sessionId (newTagName captured); ConsoleError "Failed to add tag"])
    end.

(** [handleRemoveTag(tagName)] *)
Definition handleRemoveTag (sessionId tagName : string)
    (response : completion unit) (s : State) : State * list Effect :=
  match response with
  | Normal _ =>
      ({| tags := List.filter (fun t => negb (String.eqb (name t) tagName)) (tags s);
          isAdding := isAdding s; newTagName := newTagName s; allTags := allTags s |},
       [RemoveTag sessionId tagName; OnTagsChange])
  | Throw _ =>
      (s, [RemoveTag sessionId tagName; ConsoleError "Failed to remove tag"])
  end.

End TagManager.

(** ** Vocabulary of the specification *)

Module PathPrefix.
Import JsString CommonPrefix.

(** [segs] leads every path of [splitPaths]. *)
Definition sharedBy (segs : list string) (splitPaths : list (list string)) : Prop :=
  Forall (fun p => segs `prefix_of` p) splitPaths.

(** [segs] stops before the last segment of every path. *)
Definition properIn (segs : list string) (splitPaths : list (list string)) : Prop :=
  Forall (fun p => (length segs < length p)%nat) splitPaths.

(** The spec's words: the maximal sequence of leading segments shared by
    every path. *)
Definition LongestCommonPrefix (segs : list string)
    (splitPaths : list (list string)) : Prop :=
  sharedBy segs splitPaths
  ∧ ∀ q, sharedBy q splitPaths → (length q ≤ length segs)%nat.

(** The same among the sequences that keep the last segment of every path
    out. *)
Definition LongestCommonProperPrefix (segs : list string)
    (splitPaths : list (list string)) : Prop :=
  sharedBy segs splitPaths
  ∧ properIn segs splitPaths
  ∧ ∀ q, sharedBy q splitPaths → properIn q splitPaths →
         (length q ≤ length segs)%nat.

(** The spec's words for [buildFileTree]: its prefix is the longest common
    prefix, joined. *)
Definition buildFileTreeLongest (paths : list string) : Prop :=
  ∃ segs, LongestCommonPrefix segs (map (split slash) paths)
          ∧ prefixString paths = join "/" segs.

(** The spec's words for [getCommonPrefix], with or without the slash that
    closes the prefix. *)
Definition getCommonPrefixLongest (paths : list string) : Prop :=
  ∃ segs, LongestCommonPrefix segs (map (split slash) paths)
          ∧ (getCommonPrefix paths = join "/" segs
             ∨ getCommonPrefix paths = join "/" segs +:+ "/").

End PathPrefix.

Module TreeNames.
Import JsString JsObject.

(** The string contains a slash. *)
Fixpoint hasSlash (s : string) : bool :=
  match s with
  | EmptyString => false
  | String c rest => Ascii.eqb c slash || hasSlash rest
  end.

(** A segment that a read on a fresh object does not find, or finds
    falsy, on [Object.prototype]. *)
Definition plainName (op : ObjectPrototype) (part : string) : Prop :=
  match inheritedGet op part with
  | Some i => inheritedTruthy i = false
  | None => True
  end.

End TreeNames.

Module StatusMap.
Import FileChangeModal.

(** The entry of one path in the status map, change by change. *)
Definition statusAfter (p : string) (changes : list FileChange)
    (init : option string) : option string :=
  fold_left
    (fun cur c =>
       if String.eqb (path c) p
       then (if bool_decide (cur = Some "write") then cur else Some (type c))
       else cur)
    changes init.

End StatusMap.

Module ChartSpec.
Import JsString Json TokenChart.

(** The value of [h.k] for an entry that is not [null]. *)
Definition fieldOf (h : json) (k : string) : jsval :=
  match h with
  | JObj fields => assoc k fields
  | _ => None
  end.

(** The chart [chart] turns the history text [s], an array of [entries],
    into one point per entry, in order; the point at index [i] is named
    [label] and [i + 1], and carries the input, output and total of the
    entry, each passed through [adjust]. *)
Definition chartDelivers (chart : option string → completion (list Point))
    (label : string) (adjust : jsval → jsval) (s : string)
    (entries : list json) : Prop :=
  ∃ pts, chart (Some s) = Normal pts
         ∧ length pts = length entries
         ∧ ∀ i h, entries !! i = Some h →
             ∃ pt, pts !! i = Some pt
                   ∧ name pt = label +:+ " " +:+ ofNat (i + 1)
                   ∧ input pt = adjust (fieldOf h "input")
                   ∧ output pt = adjust (fieldOf h "output")
                   ∧ total pt = adjust (fieldOf h "total").

(** The spec's words: named [Turn i+1], carrying the values of the entry
    as they are. *)
Definition chartAsStated (chart : option string → completion (list Point))
    (s : string) (entries : list json) : Prop :=
  chartDelivers chart "Turn" (fun v => v) s entries.

(** The time conversion of the entry [h] does not throw. *)
Definition timeConverts (toLocaleTimeString : jsval → completion string)
    (h : json) : Prop :=
  ∃ tm, toLocaleTimeString (fieldOf h "timestamp") = Normal tm.

(** *** A platform to run the charts on

    [JSON.parse] on the texts of a table, a clock that prints every time
    alike, and a French translation. *)
Definition dq : string := String "034"%char EmptyString.

Definition textNull : string := "[null]".
Definition textNullInput : string := "[{" +:+ dq +:+ "input" +:+ dq +:+ ":null}]".
Definition textTwoTurns : string :=
  "[{" +:+ dq +:+ "input" +:+ dq +:+ ":10," +:+ dq +:+ "output" +:+ dq +:+ ":5,"
       +:+ dq +:+ "total" +:+ dq +:+ ":15},{"
       +:+ dq +:+ "input" +:+ dq +:+ ":20}]".

Definition parseTable : list (string * json) :=
  [ (textNull, JArr [JNull]);
    (textNullInput, JArr [JObj [("input", JNull)]]);
    (textTwoTurns,
      JArr [JObj [("input", JNum 10); ("output", JNum 5); ("total", JNum 15)];
            JObj [("input", JNum 20)]]) ].

Definition tableParse (s : string) : completion json :=
  match assoc s parseTable with
  | Some j => Normal j
  | None => Throw SyntaxError
  end.

Definition fixedClock (v : jsval) : completion string :=
  Normal (if truthy v then "12:00:00" else "Invalid Date").

Definition french (key : string) : string :=
  if String.eqb key "analytics.turn" then "Tour" else key.

End ChartSpec.

Module LoaderSpec.
Import JsObject ProjectDetails.

(** Per session id: at most one request in flight or one result written,
    never both; a write only where the result map has an entry; a request
    in flight only where the loading map says so. *)
Definition consistent (σ : System) : Prop :=
  ∀ sid,
    (occurrences sid (inflight σ) + occurrences sid (writes σ) ≤ 1)%nat
    ∧ (oneShotStats (cur σ) !! sid = None → occurrences sid (writes σ) = 0%nat)
    ∧ (loadingStats (cur σ) !! sid ≠ Some true →
       occurrences sid (inflight σ) = 0%nat).

(** The spec's words: a [file_change_count] greater than zero; a zero or
    absent count is not. *)
Definition countPositive (s : Session) : bool :=
  match file_change_count s with
  | Some n => (0 <? n)%Z
  | None => false
  end.

(** The spec's words: a request for exactly the sessions whose
    [file_change_count] is greater than zero. *)
Definition autoLoadAsStated (op : ObjectPrototype) (v : View) : Prop :=
  requested (autoLoad op v).2 = map id (List.filter countPositive (sessions v)).

(** *** A project opened for the second time *)

Definition session (sid : string) (changes : option Z) : Session :=
  {| id := sid; project_name := "demo"; file_path := "/tmp/" +:+ sid;
     start_time := None; tags := None; model := None; total_tokens := None;
     file_change_count := changes; input_tokens := None; output_tokens := None;
     turns := None; branch := None; token_usage_history := None |}.

Definition someStats : OneShotStats :=
  {| overall_score := 100%Q; file_count := 1%Z;
     file_stats := [ {| fs_path := "a.ts"; fs_score := 100%Q; fs_status := "perfect" |} ] |}.

Definition otherStats : OneShotStats :=
  {| overall_score := 50%Q; file_count := 2%Z; file_stats := [] |}.

(** The first visit: the effect fires, the request for [s1] resolves, the
    one for [s2] is rejected. *)
Definition firstRun : list Event :=
  [ AutoLoad [session "s1" (Some 3%Z); session "s2" (Some 1%Z);
              session "s3" (Some 0%Z); session "s4" None];
    Resolve "s1" someStats;
    Reject "s2" (Rejected "offline") ].

(** The same project opened again, in the same component: the session list
    is loaded anew, the ref is reset, the two maps are as the first visit
    left them. *)
Definition reopened : View :=
  {| loading := false;
     sessions := [session "s1" (Some 3%Z); session "s2" (Some 1%Z);
                  session "s3" (Some 0%Z); session "s4" None];
     autoLoadTriggered := false;
     stats := cur (run pristine firstRun) |}.

Definition firstVisit : View :=
  {| loading := false;
     sessions := sessions reopened;
     autoLoadTriggered := false;
     stats := emptyStats |}.

(** The spec's words: at most one result write per session key, ever. *)
Definition singleWriteAsStated (op : ObjectPrototype) : Prop :=
  ∀ evs sid, (occurrences sid (writes (run op evs)) ≤ 1)%nat.

(** *** A session list that carries one id twice *)

Definition twins : list Session :=
  [session "a" (Some 1%Z); session "a" (Some 2%Z)].

(** The effect fires on the list; both requests resolve. *)
Definition twinRun : list Event :=
  [AutoLoad twins; Resolve "a" someStats; Resolve "a" otherStats].

End LoaderSpec.

Module Examples.

(** A session that edited [a.ts] before and after writing it, wrote and
    then edited [b.ts], and only edited [c.ts]. *)
Definition change (kind p : string) : FileChangeModal.FileChange :=
  {| FileChangeModal.tool := "Edit"; FileChangeModal.type := kind;
     FileChangeModal.path := p; FileChangeModal.timestamp := "2026-01-01T00:00:00Z";
     FileChangeModal.content := None; FileChangeModal.target_content := None;
     FileChangeModal.diff := None |}.

Definition someChanges : list FileChangeModal.FileChange :=
  [change "edit" "src/a.ts"; change "write" "src/a.ts"; change "edit" "src/a.ts";
   change "write" "src/b.ts"; change "edit" "src/b.ts"; change "edit" "src/c.ts"].

(** A file the session wrote no line of and that is empty now. *)
Definition emptyFile : OneShot.FileStat :=
  {| OneShot.path := "empty.txt"; OneShot.score := 0%Q; OneShot.status := "perfect";
     OneShot.total_lines := Some 0%Z; OneShot.retained_lines := Some 0%Z;
     OneShot.session_content := Some ""; OneShot.current_content := Some "" |}.

(** A tag manager with two tags and a name typed into the input. *)
Definition twoTags : TagManager.State :=
  {| TagManager.tags :=
       [ {| TagManager.id := 1%Z; TagManager.name := "bug"; TagManager.color := "red" |};
         {| TagManager.id := 2%Z; TagManager.name := "todo"; TagManager.color := "blue" |} ];
     TagManager.isAdding := true;
     TagManager.newTagName := "urgent";
     TagManager.allTags := [] |}.

End Examples.

(** ** formatDuration.ts *)

Module FormatDuration.
Import JsString.

(** [String(n)] for an integer. *)
Definition ofZ (n : Z) : string :=
  if (n <? 0)%Z then "-" +:+ ofNat (Z.to_nat (- n)) else ofNat (Z.to_nat n).

(** [formatDuration(seconds)] for a whole number of seconds below 2^53, on
    which [Math.round], the division and [Math.floor] of the source are
    exact. *)
Definition formatDuration (seconds : Z) : string :=
  if (seconds <? 60)%Z then ofZ seconds +:+ "s"
  else
    let minutes := (seconds / 60)%Z in
    let hours := (minutes / 60)%Z in
    let remainingMinutes := (minutes mod 60)%Z in
    if (0 <? hours)%Z then ofZ hours +:+ "h " +:+ ofZ remainingMinutes +:+ "m"
    else ofZ minutes +:+ "m".

End FormatDuration.

(** ** More of the strings *)

Module JsText.
Import JsString.

Definition newline : ascii := "010"%char.
Definition colon : ascii := ":"%char.

(** [s.replace(pattern, '')] for a string pattern: the first occurrence
    of the pattern is removed. *)
Fixpoint removeFirst (pattern s : string) : string :=
  if String.prefix pattern s then substringFrom (String.length pattern) s
  else match s with
       | EmptyString => EmptyString
       | String c rest => String c (removeFirst pattern rest)
       end.

(** The string contains the character. *)
Fixpoint hasChar (c : ascii) (s : string) : bool :=
  match s with
  | EmptyString => false
  | String a rest => Ascii.eqb a c || hasChar c rest
  end.

(** [a.pop()] as a value: the last element. *)
Definition pop (l : list string) : option string := last l.

End JsText.

(** ** More of FileChangeModal.tsx *)

Module FileChangeViews.
Import JsString JsText JsObject FileChangeModal.

(** [groupedChanges]: one round of [changes.forEach(c => ...)].  When
    [groups[c.path]] is inherited and truthy it has no [push] to call. *)
Definition groupStep (op : ObjectPrototype)
    (acc : completion (gmap string (list FileChange))) (c : FileChange)
  : completion (gmap string (list FileChange)) :=
  groups ← acc;
  match objGet op groups (path c) with
  | Own l => Normal (<[path c := (l ++ [c])%list]> groups)
  | Inherited i =>
      if inheritedTruthy i then Throw TypeError
      else Normal (<[path c := [c]]> groups)
  | Undefined => Normal (<[path c := [c]]> groups)
  end.

Definition groupedChanges (op : ObjectPrototype) (changes : list FileChange)
  : completion (gmap string (list FileChange)) :=
  fold_left (groupStep op) changes (Normal ∅).

(** The title of a file group: [path.replace(commonPrefix, '')]. *)
Definition groupTitle (commonPrefix p : string) : string :=
  removeFirst commonPrefix p.

(** ContentViewer: the text in the [pre] element. *)
Definition shouldTruncate (content : string) (limit : nat) : bool :=
  (limit <? String.length content)%nat.

Definition shownContent (content : string) (limit : nat) (expanded : bool) : string :=
  if expanded || negb (shouldTruncate content limit) then content
  else substringTo limit content.

(** The note [... (content truncated)] is rendered. *)
Definition truncatedNote (content : string) (limit : nat) (expanded : bool) : bool :=
  negb expanded && shouldTruncate content limit.

(** The node a sequence of segments leads to, from the root object down. *)
Fixpoint findNode (parts : list string) (tree : gmap string TreeNode)
  : option TreeNode :=
  match parts with
  | [] => None
  | [part] => tree !! part
  | part :: rest =>
      match tree !! part with
      | Some node => findNode rest (children node)
      | None => None
      end
  end.

(** What [buildFileTree] stored at the node a sequence of segments leads
    to: the own properties [fullPath] and [status] that the assignments of
    the last segment gave the node, if it gave it any. *)
Definition storedAt (parts : list string) (tree : gmap string TreeNode)
  : option (string * option string) :=
  match findNode parts tree with
  | Some node =>
      match fullPath node with
      | Some p => Some (p, status node)
      | None => None
      end
  | None => None
  end.

(** [node.fullPath] as FileTreeNode reads it: a node that was never the
    last segment of a path has no [fullPath] of its own, and the read goes
    on to [Object.prototype]. *)
Definition readFullPath (op : ObjectPrototype) (node : TreeNode) : option string :=
  match fullPath node with
  | Some p => Some p
  | None => protoFullPath op
  end.

(** [node.status]: own where [fullPath] is, both being assigned together,
    inherited otherwise. *)
Definition readStatus (op : ObjectPrototype) (node : TreeNode) : option string :=
  match fullPath node with
  | Some _ => status node
  | None => protoStatus op
  end.

(** [const isFile = !!node.fullPath] *)
Definition isFile (op : ObjectPrototype) (node : TreeNode) : bool :=
  match readFullPath op node with
  | Some p => negb (String.eqb p "")
  | None => false
  end.

(** The file FileTreeNode shows at a sequence of segments: the path that a
    click hands to [onSelect] ([isFile && node.fullPath]) and the status
    that picks the icon, when the node reads as a file. *)
Definition fileAt (op : ObjectPrototype) (parts : list string)
    (tree : gmap string TreeNode) : option (string * option string) :=
  match findNode parts tree with
  | Some node =>
      if isFile op node
      then match readFullPath op node with
           | Some p => Some (p, readStatus op node)
           | None => None
           end
      else None
  | None => None
  end.

(** The tree after the segments [parts] of the file [p] are inserted, when
    no read meets [Object.prototype]. *)
Fixpoint insertPlain (p : string) (st : option string) (parts : list string)
    (current : gmap string TreeNode) : gmap string TreeNode :=
  match parts with
  | [] => current
  | part :: rest =>
      let node := default (newNode part) (current !! part) in
      let node1 := if isLast rest then markFile p st node else node in
      <[part := withChildren node1 (insertPlain p st rest (children node1))]> current
  end.

End FileChangeViews.

(** ** More of OneShotDetailsModal *)

Module OneShotDetails.
Import JsString JsText CommonPrefix.

(** The paths of [processedStats.file_stats]: every other field of a file
    record is copied. *)
Definition processedPaths (paths : list string) : list string :=
  match paths with
  | [] => []
  | _ =>
      let commonPrefix := getCommonPrefix paths in
      map (fun p => if String.eqb commonPrefix "" then p
                    else removeFirst commonPrefix p) paths
  end.

End OneShotDetails.

Module ChangeSpec.

(** The elements of a list in the order of their first occurrence. *)
Fixpoint firstOccurrences (l : list string) : list string :=
  match l with
  | [] => []
  | x :: rest =>
      x :: List.filter (fun y => negb (String.eqb y x)) (firstOccurrences rest)
  end.

End ChangeSpec.

Module PathShape.
Import JsString.

(** [p.startsWith('/')] *)
Definition startsWithSlash (p : string) : bool :=
  match p with
  | String c _ => Ascii.eqb c slash
  | EmptyString => false
  end.

(** [p.endsWith('/')] *)
Fixpoint endsWithSlash (p : string) : bool :=
  match p with
  | EmptyString => false
  | String c EmptyString => Ascii.eqb c slash
  | String _ rest => endsWithSlash rest
  end.

End PathShape.

Module TreeLookupSpec.
Import JsString FileChangeModal FileChangeViews.

(** One round of [paths.forEach] when no read meets [Object.prototype]. *)
Definition insertPathPlain (prefixString : string) (fileMap : JsMap.t)
    (rt : gmap string TreeNode) (p : string) : gmap string TreeNode :=
  match relativeParts prefixString p with
  | [ EmptyString ] => rt
  | parts => insertPlain p (JsMap.get p fileMap) parts rt
  end.

End TreeLookupSpec.

(** ** MessageItem (MessageItem.tsx) *)

Module MessageItem.
Import JsString JsText.

(** The separator and the closing line of the preview. *)
Definition nl : string := String newline EmptyString.
Definition ellipsisLine : string := String newline "...".

(** [formattedContent.split('\n').length] *)
Definition lineCount (formattedContent : string) : nat :=
  length (split newline formattedContent).

Definition isLong (formattedContent : string) : bool :=
  (30 <? lineCount formattedContent)%nat.

(** The initial value of the [isExpanded] state. *)
Definition initiallyExpanded (formattedContent : string) : bool :=
  negb (isLong formattedContent).

(** The text handed to ReactMarkdown. *)
Definition shownText (formattedContent : string) (isExpanded : bool) : string :=
  if isExpanded then formattedContent
  else join nl (take 30 (split newline formattedContent)) +:+ ellipsisLine.

(** The number in the label of the button, [lineCount - 30]; the button
    is rendered when the message is long. *)
Definition remainingLines (formattedContent : string) : Z :=
  Z.of_nat (lineCount formattedContent) - 30.

Definition buttonShown (formattedContent : string) : bool := isLong formattedContent.

End MessageItem.

(** ** Labels of sessions and projects *)

Module Labels.
Import JsString JsText.

(** [session.model?.split(':')[0] || 'Unknown'] *)
Definition modelLabel (model : option string) : string :=
  match model with
  | None => "Unknown"
  | Some m =>
      match head (split colon m) with
      | Some first => if String.eqb first "" then "Unknown" else first
      | None => "Unknown"
      end
  end.

(** [project.name.split('/').pop()] *)
Definition projectDisplayName (name : string) : option string :=
  pop (split slash name).

End Labels.

(** ** CodeSurvivalFileTree.tsx *)

Module CodeSurvivalFileTree.
Import JsString JsObject.

Inductive NodeType := file | folder.

(** The nodes of [root] before [convertToArray]: [children] is an object
    for a folder and [undefined] for a file. *)
Inductive FileTreeNode := mkNode {
  name : string;
  path : string;
  type : NodeType;
  children : option (gmap string FileTreeNode);
  fileStat : option OneShot.FileStat
}.

Definition withChildren (n : FileTreeNode) (kids : gmap string FileTreeNode)
  : FileTreeNode :=
  mkNode (name n) (path n) (type n) (Some kids) (fileStat n).

Definition isLast (rest : list string) : bool :=
  match rest with [] => true | _ => false end.

(** The node the loop creates for [part], the segments [before] leading
    to it. *)
Definition created (f : OneShot.FileStat) (before : list string) (part : string)
    (isFile : bool) : FileTreeNode :=
  mkNode part (join "/" (before ++ [part])%list)
         (if isFile then file else folder)
         (if isFile then None else Some ∅)
         (if isFile then Some f else None).

(** The inner [parts.forEach((part, index) => ...)] from the object
    [currentLevel] on; the nodes are mutated in place in the source, here
    the updated level is returned.  When [currentLevel[part]] is a file
    node or an inherited member, its [children] is [undefined], and the
    next [currentLevel[part]] throws. *)
Fixpoint insertParts (f : OneShot.FileStat) (before parts : list string)
    (op : ObjectPrototype) (currentLevel : gmap string FileTreeNode)
  : completion (gmap string FileTreeNode) :=
  match parts with
  | [] => Normal currentLevel
  | part :: rest =>
      let descend (node : FileTreeNode) (level : gmap string FileTreeNode) :=
        if isLast rest then Normal level
        else match children node with
             | Some kids =>
                 kids' ← insertParts f (before ++ [part]) rest op kids;
                 Normal (<[part := withChildren node kids']> level)
             | None => Throw TypeError
             end in
      let create :=
        let node := created f before part (isLast rest) in
        descend node (<[part := node]> currentLevel) in
      match objGet op currentLevel part with
      | Own node => descend node currentLevel
      | Inherited i =>
          if inheritedTruthy i
          then (if isLast rest then Normal currentLevel else Throw TypeError)
          else create
      | Undefined => create
      end
  end.

(** [files.forEach(file => ...)] of [buildFileTree]: the object [root]
    that [convertToArray] then turns into sorted arrays. *)
Definition buildRoot (op : ObjectPrototype) (files : list OneShot.FileStat)
  : completion (gmap string FileTreeNode) :=
  fold_left (fun acc f =>
               root ← acc;
               insertParts f [] (split slash (OneShot.path f)) op root)
            files (Normal ∅).

(** [toggleFolder(path)]: the updater of [expandedFolders]. *)
Definition toggleFolder (p : string) (prev : gset string) : gset string :=
  if bool_decide (p ∈ prev) then prev ∖ {[ p ]} else prev ∪ {[ p ]}.

(** The effect that expands the first level: the paths of the folders
    among the values of [root] (the order, which [convertToArray] fixes,
    plays no part in a set), and the new set of expanded folders. *)
Definition firstLevelFolders (root : gmap string FileTreeNode) : list string :=
  map path
      (List.filter (fun node => match type node with folder => true | file => false end)
                   (map snd (map_to_list root))).

Definition defaultExpanded (root : gmap string FileTreeNode) (prev : gset string)
  : gset string :=
  if (0 <? length (firstLevelFolders root))%nat
  then list_to_set (firstLevelFolders root)
  else prev.

(** [expandedFolders.has(node.path)] *)
Definition isExpanded (expandedFolders : gset string) (p : string) : bool :=
  bool_decide (p ∈ expandedFolders).

(** The node a sequence of segments leads to. *)
Fixpoint findNode (parts : list string) (level : gmap string FileTreeNode)
  : option FileTreeNode :=
  match parts with
  | [] => None
  | [part] => level !! part
  | part :: rest =>
      match level !! part with
      | Some node =>
          match children node with
          | Some kids => findNode rest kids
          | None => None
          end
      | None => None
      end
  end.

End CodeSurvivalFileTree.

(** ** Invariants of the loader *)

Module LoaderInvariants.
Import ProjectDetails.

(** The loading flag of a session is set only while a request for the
    session is in flight. *)
Definition flagged (σ : System) : Prop :=
  ∀ sid, loadingStats (cur σ) !! sid = Some true →
         (0 < occurrences sid (inflight σ))%nat.

End LoaderInvariants.

(** ** What a node of the survival tree shows *)

Module SurvivalTreeSpec.
Import JsString CodeSurvivalFileTree.

(** A node without the contents of its children. *)
Record NodeData := {
  d_name : string;
  d_path : string;
  d_type : NodeType;
  d_stat : option OneShot.FileStat;
  d_leaf : bool
}.

(** [children] is [undefined]. *)
Definition isLeaf (n : FileTreeNode) : bool :=
  match children n with
  | None => true
  | Some _ => false
  end.

Definition dataOf (n : FileTreeNode) : NodeData :=
  {| d_name := name n; d_path := path n; d_type := type n;
     d_stat := fileStat n; d_leaf := isLeaf n |}.

Definition nodeAt (parts : list string) (level : gmap string FileTreeNode)
  : option NodeData :=
  dataOf <$> findNode parts level.

(** The data of the node the loop creates at the segments [q] below
    [before]. *)
Definition createdData (f : OneShot.FileStat) (before q : list string)
    (isFile : bool) : NodeData :=
  {| d_name := default "" (last q);
     d_path := join "/" (before ++ q)%list;
     d_type := if isFile then file else folder;
     d_stat := if isFile then Some f else None;
     d_leaf := isFile |}.

(** No path stops at a folder of another path. *)
Definition prefixFree (files : list OneShot.FileStat) : Prop :=
  ∀ f g rest, In f files → In g files →
    split slash (OneShot.path g) = (split slash (OneShot.path f) ++ rest)%list →
    rest = [].

(** [g] is the first record of the list with the path [p]. *)
Definition firstWithPath (p : string) (files : list OneShot.FileStat)
    (g : OneShot.FileStat) : Prop :=
  ∃ l1 l2, files = (l1 ++ g :: l2)%list ∧ OneShot.path g = p
           ∧ ∀ h, In h l1 → OneShot.path h ≠ p.

(** What the tree holds after the files [done]. *)
Definition represents (root : gmap string FileTreeNode)
    (done : list OneShot.FileStat) : Prop :=
  (∀ q d, nodeAt q root = Some d →
     d_path d = join "/" q ∧ d_name d = default "" (last q)
     ∧ if d_leaf d
       then d_type d = file
            ∧ ∃ g, d_stat d = Some g ∧ split slash (OneShot.path g) = q
                   ∧ firstWithPath (OneShot.path g) done g
       else d_type d = folder ∧ d_stat d = None
            ∧ ∃ g rest, In g done ∧ rest ≠ []
                        ∧ split slash (OneShot.path g) = (q ++ rest)%list)
  ∧ (∀ g q, In g done → q ≠ [] → q `prefix_of` split slash (OneShot.path g) →
       is_Some (nodeAt q root)).

End SurvivalTreeSpec.

(** ** The colours of the overall score (OneShotDetailsModal.tsx) *)

Module ScoreColors.

Inductive Color := green | yellow | red.

(** The square in the header:
    [overall_score >= 80 ? green : overall_score > 50 ? yellow : red] *)
Definition badgeColor (overall_score : Q) : Color :=
  if Qle_bool 80 overall_score then green
  else if negb (Qle_bool overall_score 50) then yellow
  else red.

(** The bar below it:
    [overall_score > 80 ? green : overall_score > 50 ? yellow : red] *)
Definition barColor (overall_score : Q) : Color :=
  if negb (Qle_bool overall_score 80) then green
  else if negb (Qle_bool overall_score 50) then yellow
  else red.

(** Green is better than yellow, yellow better than red. *)
Definition rank (c : Color) : nat :=
  match c with
  | red => 0
  | yellow => 1
  | green => 2
  end.

End ScoreColors.

(** ** More examples *)

Module Samples.

(** A file record with the path [p] that survived as written. *)
Definition statAt (p : string) : OneShot.FileStat :=
  {| OneShot.path := p; OneShot.score := 100%Q; OneShot.status := "perfect";
     OneShot.total_lines := Some 1%Z; OneShot.retained_lines := Some 1%Z;
     OneShot.session_content := None; OneShot.current_content := None |}.

(** Thirty-one lines. *)
Definition longMessage : string :=
  JsString.join MessageItem.nl (replicate 31 "line").

End Samples.

(** ** Opening the file-change modal (ProjectDetails) *)

Module ChangesModal.
Import FileChangeModal.

(** The three [useState] cells of the modal, the calls of
    [api.getSessionChanges] without a response yet, and a log of the
    session whose response filled [fileChanges]. *)
Record State := {
  selectedSessionId : option string;
  fileChanges : list FileChange;
  modalOpen : bool;
  awaiting : list string;
  shownFor : option string
}.

Inductive Event :=
| View (sid : string)                              (* [handleViewChanges(sid)] up to its [await] *)
| Loaded (sid : string) (changes : list FileChange) (* the call for [sid] resolves *)
| Failed (sid : string)                            (* the call for [sid] rejects *)
| Close.                                           (* [onClose] of the modal *)

Definition step (σ : State) (ev : Event) : State :=
  match ev with
  | View sid =>
      {| selectedSessionId := Some sid; fileChanges := []; modalOpen := true;
         awaiting := sid :: awaiting σ; shownFor := None |}
  | Loaded sid changes =>
      if existsb (String.eqb sid) (awaiting σ)
      then {| selectedSessionId := selectedSessionId σ; fileChanges := changes;
              modalOpen := modalOpen σ;
              awaiting := ProjectDetails.removeOne sid (awaiting σ);
              shownFor := Some sid |}
      else σ
  | Failed sid =>
      if existsb (String.eqb sid) (awaiting σ)
      then {| selectedSessionId := selectedSessionId σ; fileChanges := fileChanges σ;
              modalOpen := modalOpen σ;
              awaiting := ProjectDetails.removeOne sid (awaiting σ);
              shownFor := shownFor σ |}
      else σ
  | Close =>
      {| selectedSessionId := selectedSessionId σ; fileChanges := fileChanges σ;
         modalOpen := false; awaiting := awaiting σ; shownFor := shownFor σ |}
  end.

Definition run (evs : list Event) (σ : State) : State := fold_left step evs σ.

(** The state of the first render. *)
Definition initial : State :=
  {| selectedSessionId := None; fileChanges := []; modalOpen := false;
     awaiting := []; shownFor := None |}.

(** Every click comes when no call is without a response. *)
Fixpoint oneAtATime (σ : State) (evs : list Event) : Prop :=
  match evs with
  | [] => True
  | View sid :: rest => awaiting σ = [] ∧ oneAtATime (step σ (View sid)) rest
  | ev :: rest => oneAtATime (step σ ev) rest
  end.

(** The changes listed are those of the selected session, or none. *)
Definition inStep (σ : State) : Prop :=
  (∀ sid, In sid (awaiting σ) → selectedSessionId σ = Some sid)
  ∧ (shownFor σ = None ∨ shownFor σ = selectedSessionId σ).

End ChangesModal.

(** ** Where the score of a file is printed *)

Module ScoreDisplay.
Import OneShot.

(** [Math.round(x)]: the integer nearest to [x], a half going up. *)
Definition mathRound (x : Q) : Z := Qfloor (x + (1 # 2)).

(** The header of OneShotDiffViewer, in the first of its two versions:
    [{Math.round(displayScore)}%]. *)
Definition diffViewerHeader (file : FileStat) : Q :=
  inject_Z (mathRound (displayScore file)).

(** The header of the selected file in OneShotDetailsModal, in the version
    with the tree: [{Math.round(displayScore)}%]. *)
Definition selectedFileHeader (selectedFile : FileStat) : Q :=
  inject_Z (mathRound (displayScore selectedFile)).

(** The header of OneShotDiffViewer, in the second of its two versions:
    [{Math.round(file.score)}%]. *)
Definition diffViewerHeader2 (file : FileStat) : Q :=
  inject_Z (mathRound (score file)).

(** A file row of CodeSurvivalFileTree:
    [{Math.round(node.fileStat.score)}%]. *)
Definition treeRow (fileStat : FileStat) : Q :=
  inject_Z (mathRound (score fileStat)).

(** A row of the list in OneShotDetailsModal.tsx: [{file.score}%]. *)
Definition listRow (file : FileStat) : Q := score file.

End ScoreDisplay.

Module ScoreSpec.
Import OneShot.

(** The spec's words, for the number a place shows: 100 when
    [total_lines] and [retained_lines] are both 0, the [score] field in
    every other case. *)
Definition shownAsStated (shown : FileStat → Q) : Prop :=
  ∀ file,
    (total_lines file = Some 0%Z ∧ retained_lines file = Some 0%Z →
     (shown file == 100)%Q)
    ∧ (¬ (total_lines file = Some 0%Z ∧ retained_lines file = Some 0%Z) →
       (shown file == score file)%Q).

(** [n] is the integer nearest to [x], a half going up. *)
Definition nearest (x : Q) (n : Z) : Prop :=
  (inject_Z n <= x + (1 # 2))%Q ∧ (x + (1 # 2) < inject_Z (n + 1))%Q.

(** A file of which two thirds survived, with a score that is no whole
    number. *)
Definition partlyKept : FileStat :=
  {| path := "src/a.ts"; score := (133 # 2)%Q; status := "modified";
     total_lines := Some 3%Z; retained_lines := Some 2%Z;
     session_content := None; current_content := None |}.

End ScoreSpec.

(** * Properties *)

(** ** Strings *)

Section StringFacts.
Import JsString.

Lemma split_nonempty sep s : split sep s ≠ [].
Proof.
  destruct s as [|c rest]; simpl; [done|].
  destruct (Ascii.eqb c sep); [done|].
  by destruct (split sep rest).
Qed.

Lemma split_length_pos sep s : 0 < length (split sep s).
Proof.
  pose proof (split_nonempty sep s) as H.
  destruct (split sep s); [done | simpl; lia].
Qed.

Lemma join_cons sep x y l :
  join sep (x :: y :: l) = x +:+ sep +:+ join sep (y :: l).
Proof. reflexivity. Qed.

(** A string with a slash splits into at least two segments. *)
Lemma lastIndexOf_split_length k s :
  lastIndexOf slash s = Some k → 1 < length (split slash s).
Proof.
  revert k. induction s as [|c rest IH]; intros k; simpl; [done|].
  destruct (lastIndexOf slash rest) as [k'|] eqn:Hl.
  - intros _. specialize (IH k' eq_refl).
    destruct (Ascii.eqb c slash); simpl; [lia|].
    destruct (split slash rest); simpl in *; lia.
  - destruct (Ascii.eqb c slash); [|done].
    intros _. simpl. pose proof (split_length_pos slash rest). lia.
Qed.

(** Up to and including the last slash: all segments but the last, each
    followed by a slash. *)
Lemma substring_lastIndexOf k s :
  lastIndexOf slash s = Some k →
  substringTo (S k) s = join "/" (removelast (split slash s)) +:+ "/".
Proof.
  unfold substringTo.
  revert k. induction s as [|c rest IH]; intros k; simpl; [done|].
  destruct (lastIndexOf slash rest) as [k'|] eqn:Hl.
  - intros [= <-].
    pose proof (lastIndexOf_split_length _ _ Hl) as Hlen.
    rewrite (IH k' eq_refl).
    destruct (Ascii.eqb_spec c slash) as [->|Hc].
    + destruct (split slash rest) as [|a [|b l]]; simpl in Hlen; try lia.
      reflexivity.
    + destruct (split slash rest) as [|a [|b l]]; simpl in Hlen; try lia.
      change (removelast (String c a :: b :: l))
        with (String c a :: removelast (b :: l)).
      change (removelast (a :: b :: l)) with (a :: removelast (b :: l)).
      destruct (removelast (b :: l)); reflexivity.
  - destruct (Ascii.eqb_spec c slash) as [->|Hc]; [|done].
    intros [= <-].
    assert (Hs : split slash rest = [rest]).
    { clear IH. induction rest as [|d r IHr]; simpl in *; [done|].
      destruct (lastIndexOf slash r); [done|].
      destruct (Ascii.eqb d slash); [done|].
      by rewrite IHr. }
    rewrite Hs. simpl. by destruct rest.
Qed.

End StringFacts.

(** ** The common prefix *)

Section CommonPrefixFacts.
Import JsString CommonPrefix PathPrefix.

Lemma fold_min_le (l : list nat) (a : nat) :
  (fold_left Nat.min l a ≤ a)%nat
  ∧ Forall (fun x => (fold_left Nat.min l a ≤ x)%nat) l.
Proof.
  revert a. induction l as [|x l IH]; intros a; simpl; [by split|].
  destruct (IH (Nat.min a x)) as [H1 H2]. split; [lia|].
  constructor; [lia | done].
Qed.

Lemma fold_min_attained (l : list nat) (a : nat) :
  fold_left Nat.min l a = a ∨ In (fold_left Nat.min l a) l.
Proof.
  revert a. induction l as [|x l IH]; intros a; simpl; [by left|].
  destruct (IH (Nat.min a x)) as [H|H]; [|by right; right].
  rewrite H. destruct (Nat.min_spec a x) as [[_ ->]|[_ ->]]; [by left|].
  by right; left.
Qed.

Lemma minLength_le (lens : list nat) :
  Forall (fun x => (minLength lens ≤ x)%nat) lens.
Proof.
  destruct lens as [|n rest]; [constructor|]. simpl.
  destruct (fold_min_le rest n). by constructor.
Qed.

Lemma minLength_attained (lens : list nat) :
  lens ≠ [] → In (minLength lens) lens.
Proof.
  destruct lens as [|n rest]; [done|]. intros _. simpl.
  destruct (fold_min_attained rest n) as [->|H]; [by left | by right].
Qed.

Lemma everyAgrees_true sps i seg :
  everyAgrees sps i seg = true ↔ ∀ p, In p sps → p !! i = seg.
Proof.
  unfold everyAgrees. rewrite forallb_forall.
  split; intros H p Hp; specialize (H p Hp).
  - by apply bool_decide_eq_true in H.
  - by apply bool_decide_eq_true.
Qed.

Lemma everyAgrees_false sps i seg :
  everyAgrees sps i seg = false → ∃ p, In p sps ∧ p !! i ≠ seg.
Proof.
  unfold everyAgrees. induction sps as [|p sps IH]; simpl; [done|].
  destruct (bool_decide (p !! i = seg)) eqn:Hp; simpl.
  - intros H. destruct (IH H) as (q & Hq & Hne). exists q. by split; [right|].
  - intros _. exists p. apply bool_decide_eq_false in Hp. by split; [left|].
Qed.

(** What the loop leaves in the array, from index [i] on. *)
Lemma prefixLoop_spec sps k i :
  let r := prefixLoop sps k i in
  (∀ j p, (j < length r)%nat → In p sps → p !! (i + j)%nat = r !! j)
  ∧ (length r ≤ k)%nat
  ∧ ((length r < k)%nat → (i + length r < length (hd [] sps))%nat →
     ∃ p, In p sps ∧ p !! (i + length r)%nat ≠ hd [] sps !! (i + length r)%nat).
Proof.
  revert i. induction k as [|k IH]; intros i; simpl.
  { split; [intros j p Hj; simpl in Hj; lia|]. split; simpl; lia. }
  destruct (hd [] sps !! i) as [seg|] eqn:Hseg.
  - destruct (everyAgrees sps i (Some seg)) eqn:Hall.
    + destruct (IH (S i)) as (Ha & Hb & Hc).
      rewrite everyAgrees_true in Hall.
      split; [|split].
      * intros j p Hj Hp. destruct j as [|j]; simpl in *.
        -- rewrite Nat.add_0_r. by apply Hall.
        -- replace (i + S j)%nat with (S i + j)%nat by lia.
           apply Ha; [lia | done].
      * simpl. lia.
      * simpl. intros Hlt Hin.
        replace (i + S (length (prefixLoop sps k (S i))))%nat
          with (S i + length (prefixLoop sps k (S i)))%nat in * by lia.
        apply Hc; [lia | done].
    + split; [intros j p Hj; simpl in Hj; lia|]. split; [simpl; lia|].
      simpl. intros _ _. rewrite Nat.add_0_r, Hseg.
      by apply everyAgrees_false.
  - split; [intros j p Hj; simpl in Hj; lia|]. split; [simpl; lia|].
    simpl. intros _ Hlt. rewrite Nat.add_0_r in Hlt.
    apply lookup_lt_is_Some_2 in Hlt. rewrite Hseg in Hlt. by destruct Hlt.
Qed.

Lemma prefix_of_lookup (r p : list string) :
  (∀ j, (j < length r)%nat → p !! j = r !! j) → r `prefix_of` p.
Proof.
  intros H. exists (drop (length r) p).
  rewrite <- (take_drop (length r) p) at 1. f_equal.
  apply list_eq. intros j. rewrite lookup_take.
  destruct (decide (j < length r)%nat) as [Hj|Hj]; [by apply H|].
  symmetry. apply lookup_ge_None. lia.
Qed.

Lemma prefix_lookup (q p : list string) j :
  q `prefix_of` p → (j < length q)%nat → p !! j = q !! j.
Proof. intros [k ->] Hj. by apply lookup_app_l. Qed.

(** The loop computes the longest common prefix that keeps the last
    segment of every path out. *)
Lemma commonParts_longest_proper (paths : list string) :
  paths ≠ [] →
  LongestCommonProperPrefix (commonParts paths) (map (split slash) paths).
Proof.
  intros Hne. unfold commonParts.
  set (sps := map (split slash) paths).
  set (n := minLength (map length sps)).
  assert (Hsps : sps ≠ []) by (subst sps; by destruct paths).
  assert (Hle : ∀ p, In p sps → (n ≤ length p)%nat).
  { intros p Hp. pose proof (minLength_le (map length sps)) as H.
    rewrite Forall_forall in H. apply H, list_elem_of_In, in_map, Hp. }
  assert (Hat : ∃ p, In p sps ∧ length p = n).
  { pose proof (minLength_attained (map length sps)) as H.
    destruct (in_map_iff length sps n) as [Hm _].
    destruct Hm as (p & Hp & Hin); [apply H; by destruct sps|].
    by exists p. }
  assert (Hh : In (hd [] sps) sps) by (destruct sps; [done | by left]).
  destruct (prefixLoop_spec sps (n - 1) 0) as (Ha & Hb & Hc).
  set (r := prefixLoop sps (n - 1) 0) in *.
  assert (Hpos : (0 < n)%nat).
  { destruct Hat as (p & Hp & <-). subst sps.
    apply in_map_iff in Hp as (s & <- & _). apply split_length_pos. }
  split; [|split].
  - unfold sharedBy. apply Forall_forall. intros p Hp%list_elem_of_In.
    apply prefix_of_lookup. intros j Hj. by apply (Ha j p).
  - unfold properIn. apply Forall_forall. intros p Hp%list_elem_of_In.
    specialize (Hle p Hp). lia.
  - intros q Hq Hprop.
    unfold sharedBy in Hq. unfold properIn in Hprop.
    rewrite Forall_forall in Hq. rewrite Forall_forall in Hprop.
    destruct (decide (length q ≤ length r)%nat) as [|Hgt]; [done|exfalso].
    assert (Hqn : (length q < n)%nat).
    { destruct Hat as (p & Hp & <-). by apply Hprop, list_elem_of_In. }
    destruct Hc as (p & Hp & Hdiff); [lia| |].
    + specialize (Hprop _ (proj2 (list_elem_of_In _ _) Hh)). simpl. lia.
    + apply Hdiff. simpl.
      rewrite (prefix_lookup q p) by (try apply Hq, list_elem_of_In; done || lia).
      rewrite (prefix_lookup q (hd [] sps))
        by (try apply Hq, list_elem_of_In; done || lia).
      done.
Qed.

(** For one path the loop keeps every segment but the last. *)
Lemma commonParts_single (p : string) :
  commonParts [p] = removelast (split slash p).
Proof.
  destruct (commonParts_longest_proper [p]) as (Hs & Hp & Hmax); [done|].
  unfold sharedBy, properIn in *. simpl map in *.
  rewrite Forall_singleton in Hs. rewrite Forall_singleton in Hp.
  rewrite removelast_firstn_len.
  assert (Hlen : (length (take (Nat.pred (length (split slash p))) (split slash p))
           ≤ length (commonParts [p]))%nat).
  { apply Hmax; apply Forall_singleton.
    - apply prefix_take.
    - rewrite length_take. pose proof (split_length_pos slash p). lia. }
  rewrite length_take in Hlen.
  destruct Hs as [k Hk].
  rewrite Hk at 2. rewrite take_app_le by lia.
  rewrite take_ge; [done|lia].
Qed.

End CommonPrefixFacts.

Section CommonPrefixClaims.
Import JsString JsObject CommonPrefix PathPrefix FileChangeModal.

(** [buildFileTree] hands back the prefix string it computed first. *)
Lemma buildFileTree_prefix op fileMap op' built :
  JsMap.keys fileMap ≠ [] →
  buildFileTree op fileMap = (op', Normal built) →
  prefix built = prefixString (JsMap.keys fileMap).
Proof.
  unfold buildFileTree. intros Hne.
  destruct (JsMap.keys fileMap) as [|p ps] eqn:Hk; [done|].
  destruct (fold_left _ _ _) as [op1 [rt|e]]; simpl; [|done].
  by intros [= _ <-].
Qed.

(** C1, as amended: for every non-empty list of paths the loop returns the
    longest sequence of leading segments that every path shares and that
    stops before the last segment of every path (the file name is always
    kept).  [buildFileTree] joins these segments with a slash and returns
    that string as its prefix; [getCommonPrefix], on two or more paths,
    returns them joined and closed by a slash, or the empty string when
    there are none; on a single path it returns the path up to and
    including its last slash, which is the same string, unless that slash
    is missing or is the first character, when it returns the empty
    string. *)
Theorem common_prefix_longest_proper (paths : list string) :
  paths ≠ [] →
  let segs := commonParts paths in
  LongestCommonProperPrefix segs (map (split slash) paths)
  ∧ prefixString paths = join "/" segs
  ∧ (∀ op fileMap op' built,
       JsMap.keys fileMap = paths →
       buildFileTree op fileMap = (op', Normal built) →
       prefix built = join "/" segs)
  ∧ getCommonPrefix paths =
      match paths with
      | [p] =>
          match lastIndexOf slash p with
          | Some (S _) => join "/" segs +:+ "/"
          | _ => ""
          end
      | _ => match segs with [] => "" | _ => join "/" segs +:+ "/" end
      end.
Proof.
  intros Hne segs. split; [by apply commonParts_longest_proper|].
  split; [done|]. split.
  - intros op fileMap op' built <- Hb.
    by rewrite (buildFileTree_prefix _ _ _ _ Hne Hb).
  - destruct paths as [|p [|p' ps]]; [done| |].
    + unfold getCommonPrefix.
      destruct (lastIndexOf slash p) as [[|k]|] eqn:Hk; [done| |done].
      subst segs. rewrite commonParts_single, Nat.add_1_r.
      by apply substring_lastIndexOf.
    + unfold getCommonPrefix. fold segs. by destruct segs.
Qed.

Lemma common_prefix_longest_proper_witness :
  ["x/a.ts"; "x/y/b.ts"] ≠ []
  ∧ LongestCommonProperPrefix (commonParts ["x/a.ts"; "x/y/b.ts"])
      (map (split slash) ["x/a.ts"; "x/y/b.ts"]).
Proof.
  split; [done|].
  apply (common_prefix_longest_proper ["x/a.ts"; "x/y/b.ts"]). done.
Defined.

Lemma longest_of_single (segs p : list string) :
  LongestCommonPrefix segs [p] → segs = p.
Proof.
  intros [Hs Hmax]. unfold sharedBy in *.
  rewrite Forall_singleton in Hs.
  specialize (Hmax p). rewrite Forall_singleton in Hmax.
  specialize (Hmax (reflexivity p)).
  destruct Hs as [k ->]. rewrite length_app in Hmax.
  destruct k; [by rewrite app_nil_r | simpl in Hmax; lia].
Qed.

(** C1, as stated, fails: for the single path [src/a.ts] the longest
    sequence of leading segments shared by every path is the whole path,
    [src], [a.ts]; [buildFileTree] returns [src] and [getCommonPrefix]
    returns [src/]. *)
Lemma common_prefix_not_longest :
  prefixString ["src/a.ts"] = "src"
  ∧ getCommonPrefix ["src/a.ts"] = "src/"
  ∧ ¬ buildFileTreeLongest ["src/a.ts"]
  ∧ ¬ getCommonPrefixLongest ["src/a.ts"].
Proof.
  split; [reflexivity|]. split; [reflexivity|]. split.
  - intros (segs & Hl & Heq). apply longest_of_single in Hl. subst segs.
    vm_compute in Heq. discriminate.
  - intros (segs & Hl & Heq). apply longest_of_single in Hl. subst segs.
    vm_compute in Heq. destruct Heq; discriminate.
Qed.

End CommonPrefixClaims.

(** ** The file tree *)

Section FileTreeClaims.
Import JsString JsObject CommonPrefix FileChangeModal TreeNames.

Lemma insertParts_plain p st parts op current :
  Forall (plainName op) parts →
  ∃ m, insertParts p st parts op current = (op, Normal m).
Proof.
  revert current. induction parts as [|part rest IH]; intros current Hplain.
  { by eexists. }
  apply Forall_cons in Hplain as [Hpart Hrest]. simpl.
  assert (Hd : ∀ node, ∃ m,
    (let node1 := if isLast rest then markFile p st node else node in
     let '(op', r) := insertParts p st rest op (children node1) in
     (op', kids ← r; Normal (<[part := withChildren node1 kids]> current)))
    = (op, Normal m)).
  { intros node. simpl.
    destruct (IH (children (if isLast rest then markFile p st node else node)) Hrest)
      as [kids ->].
    by eexists. }
  unfold objGet. destruct (current !! part) as [node|]; [apply Hd|].
  unfold plainName in Hpart.
  destruct (inheritedGet op part) as [i|]; [|apply Hd].
  rewrite Hpart. apply Hd.
Qed.

(** The builder returns normally when no segment below the common prefix
    is found, truthy, on [Object.prototype]. *)
Lemma buildFileTree_returns op fileMap :
  (∀ p, In p (JsMap.keys fileMap) →
        Forall (plainName op)
               (relativeParts (prefixString (JsMap.keys fileMap)) p)) →
  ∃ built, buildFileTree op fileMap = (op, Normal built).
Proof.
  unfold buildFileTree. intros Hplain.
  destruct (JsMap.keys fileMap) as [|p0 ps] eqn:Hk; [by eexists|].
  rewrite <- Hk in *. clear Hk.
  set (pre := prefixString (JsMap.keys fileMap)) in *.
  assert (Hfold : ∀ paths rt,
    (∀ p, In p paths → Forall (plainName op) (relativeParts pre p)) →
    ∃ rt', fold_left (insertPath pre fileMap) paths (op, Normal rt)
           = (op, Normal rt')).
  { induction paths as [|p paths IH]; intros rt Hp; cbn [fold_left];
      [by eexists|].
    assert (He : ∃ rt1, insertPath pre fileMap (op, Normal rt) p = (op, Normal rt1)).
    { unfold insertPath.
      destruct (insertParts_plain p (JsMap.get p fileMap) (relativeParts pre p)
                  op rt) as [m Hm]; [apply Hp; by left|].
      destruct (relativeParts pre p) as [|[|c s] [|b l]]; by eexists. }
    destruct He as [rt1 ->]. apply IH. intros q Hq. apply Hp. by right. }
  destruct (Hfold (JsMap.keys fileMap) ∅ Hplain) as [rt' ->]. by eexists.
Qed.

End FileTreeClaims.

(** ** Paths below the common prefix *)

Section RelativePartsFacts.
Import JsString JsObject CommonPrefix PathPrefix FileChangeModal TreeNames.

Lemma append_assoc (a b c : string) : (a +:+ b) +:+ c = a +:+ (b +:+ c).
Proof.
  induction a as [|x a IH]; [done|].
  change (String x ((a +:+ b) +:+ c) = String x (a +:+ (b +:+ c))).
  by f_equal.
Qed.

Lemma split_noSlash s : hasSlash s = false → split slash s = [s].
Proof.
  induction s as [|c s IH]; simpl; [done|].
  intros [Hc Hs]%orb_false_iff. by rewrite Hc, IH.
Qed.

Lemma split_segments_noSlash s :
  Forall (fun seg => hasSlash seg = false) (split slash s).
Proof.
  induction s as [|c s IH]; simpl; [by repeat constructor|].
  destruct (Ascii.eqb c slash) eqn:Hc; [by constructor|].
  destruct (split slash s) as [|seg segs]; [by repeat constructor; simpl; rewrite Hc|].
  apply Forall_cons in IH as [Hseg Hsegs].
  constructor; [simpl; by rewrite Hc | done].
Qed.

Lemma split_app_slash x rest :
  hasSlash x = false →
  split slash (x +:+ String slash rest) = x :: split slash rest.
Proof.
  induction x as [|c x IH]; simpl; [done|].
  intros [Hc Hx]%orb_false_iff. by rewrite Hc, IH.
Qed.

Lemma split_join l :
  l ≠ [] → Forall (fun seg => hasSlash seg = false) l →
  split slash (join "/" l) = l.
Proof.
  induction l as [|x [|y l] IH]; intros Hne Hl; [done| |].
  - rewrite Forall_singleton in Hl. by apply split_noSlash.
  - apply Forall_cons in Hl as [Hx Hl]. rewrite join_cons.
    change ("/" +:+ join "/" (y :: l)) with (String slash (join "/" (y :: l))).
    rewrite split_app_slash by done. by rewrite IH.
Qed.

Lemma join_app l1 l2 :
  l1 ≠ [] → l2 ≠ [] →
  join "/" (l1 ++ l2) = join "/" l1 +:+ "/" +:+ join "/" l2.
Proof.
  intros H1 H2. induction l1 as [|x [|y l] IH]; [done| |].
  - destruct l2; done.
  - change ((x :: y :: l) ++ l2)%list with (x :: ((y :: l) ++ l2))%list.
    change ((y :: l) ++ l2)%list with (y :: (l ++ l2))%list at 1.
    rewrite !join_cons.
    change (y :: (l ++ l2))%list with ((y :: l) ++ l2)%list.
    rewrite IH by done. by rewrite !append_assoc.
Qed.

Lemma join_String c seg segs :
  join "/" (String c seg :: segs) = String c (join "/" (seg :: segs)).
Proof. by destruct segs. Qed.

Lemma join_split s : join "/" (split slash s) = s.
Proof.
  induction s as [|c s IH]; simpl; [done|].
  pose proof (split_nonempty slash s) as Hne.
  destruct (Ascii.eqb_spec c slash) as [->|Hc].
  - destruct (split slash s) as [|seg segs]; [done|].
    by rewrite join_cons, IH.
  - destruct (split slash s) as [|seg segs]; [done|].
    by rewrite join_String, IH.
Qed.

Lemma substringFrom_app a b : substringFrom (String.length a) (a +:+ b) = b.
Proof. induction a as [|c a IH]; simpl; [by destruct b | done]. Qed.

(** The parts of a path below a proper prefix of its segments are segments
    of the path. *)
Lemma relativeParts_segments (pre rest : list string) (p : string) :
  split slash p = (pre ++ rest)%list → rest ≠ [] →
  ∀ part, In part (relativeParts (join "/" pre) p) → In part (split slash p).
Proof.
  intros Hsp Hrest part. unfold relativeParts.
  destruct pre as [|x pre'].
  - simpl. destruct p as [|c p']; [done|]. simpl.
    destruct (Ascii.eqb c slash) eqn:Hc; [by right |].
    simpl. by rewrite Hc.
  - rewrite <- (join_split p) at 1. rewrite Hsp.
    rewrite join_app by done. rewrite substringFrom_app.
    change ("/" +:+ join "/" rest) with (String slash (join "/" rest)).
    cbn [stripLeadingSlash]. rewrite Ascii.eqb_refl.
    rewrite split_join; [|done|].
    + intros Hin. apply in_or_app. by right.
    + pose proof (split_segments_noSlash p) as Hns. rewrite Hsp in Hns.
      by apply Forall_app in Hns as [_ Hns].
Qed.

(** The builder returns normally when no segment of any path is found,
    truthy, on [Object.prototype]. *)
Lemma buildFileTree_returns_plain op fileMap :
  (∀ p, In p (JsMap.keys fileMap) → Forall (plainName op) (split slash p)) →
  ∃ built, buildFileTree op fileMap = (op, Normal built).
Proof.
  intros Hplain. apply buildFileTree_returns. intros p Hp.
  assert (Hne : JsMap.keys fileMap ≠ []) by (by destruct (JsMap.keys fileMap)).
  destruct (commonParts_longest_proper _ Hne) as (Hs & Hpr & _).
  unfold sharedBy in Hs. unfold properIn in Hpr.
  rewrite Forall_forall in Hs. rewrite Forall_forall in Hpr.
  assert (Hin : split slash p ∈ map (split slash) (JsMap.keys fileMap))
    by (by apply list_elem_of_In, in_map).
  destruct (Hs _ Hin) as [rest Hrest]. specialize (Hpr _ Hin).
  assert (rest ≠ []).
  { intros ->. rewrite app_nil_r in Hrest. rewrite Hrest in Hpr. lia. }
  apply Forall_forall. intros part Hpart%list_elem_of_In.
  specialize (Hplain p Hp). rewrite Forall_forall in Hplain.
  apply Hplain, list_elem_of_In.
  by apply (relativeParts_segments (commonParts (JsMap.keys fileMap)) rest).
Qed.

End RelativePartsFacts.

Section FileTreeTotality.
Import JsString JsObject FileChangeModal TreeNames.

(** C8: the builder returns the empty root and the empty prefix for the
    empty map, and returns normally for every map none of whose path
    segments names a member of [Object.prototype]; but it throws on the
    changes of [x/constructor/a.ts] and [x/b.ts]: the read
    [current["constructor"]] on the fresh root finds the inherited
    constructor, no node is made, [current] becomes [undefined], and the
    read for the next segment throws a [TypeError]. *)
Theorem buildFileTree_throws_on_inherited_segment :
  (∀ op, buildFileTree op [] = (op, Normal {| root := ∅; prefix := "" |}))
  ∧ (∀ op fileMap,
       (∀ p, In p (JsMap.keys fileMap) → Forall (plainName op) (split slash p)) →
       ∃ built, buildFileTree op fileMap = (op, Normal built))
  ∧ buildFileTree pristine [("x/constructor/a.ts", "write"); ("x/b.ts", "edit")]
    = (pristine, Throw TypeError).
Proof.
  split; [done|]. split; [apply buildFileTree_returns_plain | by vm_compute].
Qed.

End FileTreeTotality.


(** ** The per-file status map *)

Section FileStatusClaims.
Import FileChangeModal StatusMap.

Lemma get_set_eq k v m : JsMap.get k (JsMap.set k v m) = Some v.
Proof.
  induction m as [|[k' v'] m IH]; simpl.
  - by rewrite String.eqb_refl.
  - destruct (String.eqb k k') eqn:E; simpl; rewrite E; [done | apply IH].
Qed.

Lemma get_set_ne k k' v m : k ≠ k' → JsMap.get k (JsMap.set k' v m) = JsMap.get k m.
Proof.
  intros Hne. induction m as [|[k0 v0] m IH]; simpl.
  - by apply String.eqb_neq in Hne as ->.
  - destruct (String.eqb_spec k' k0) as [->|Hk]; simpl.
    + by apply String.eqb_neq in Hne as ->.
    + destruct (String.eqb k k0); [done | apply IH].
Qed.

Lemma keys_get k m : In k (JsMap.keys m) ↔ is_Some (JsMap.get k m).
Proof.
  induction m as [|[k' v'] m IH]; simpl.
  - split; [done | by intros [? ?]].
  - destruct (String.eqb_spec k k') as [->|Hk].
    + split; [by eexists | by left].
    + rewrite <- IH. split; [intros [?|?]; [congruence | done] | by right].
Qed.

Lemma get_fold p changes m :
  JsMap.get p (fold_left fileStatusStep changes m)
  = statusAfter p changes (JsMap.get p m).
Proof.
  unfold statusAfter.
  revert m. induction changes as [|c changes IH]; intros m; simpl; [done|].
  rewrite IH. f_equal. unfold fileStatusStep.
  destruct (String.eqb_spec (path c) p) as [<-|Hne].
  - destruct (bool_decide (JsMap.get (path c) m = Some "write")); [done|].
    apply get_set_eq.
  - destruct (bool_decide (JsMap.get (path c) m = Some "write")); [done|].
    by apply get_set_ne.
Qed.

Lemma statusAfter_is_Some p changes init :
  is_Some (statusAfter p changes init)
  ↔ is_Some init ∨ ∃ c, In c changes ∧ path c = p.
Proof.
  unfold statusAfter.
  revert init. induction changes as [|c changes IH]; intros init; simpl.
  { split; [by left | intros [?|(c & [] & _)]; done]. }
  rewrite IH. destruct (String.eqb_spec (path c) p) as [Hp|Hne].
  - split; [intros _; right; exists c; by split; [left|]|intros _; left].
    destruct (bool_decide_reflect (init = Some "write")) as [->|]; by eexists.
  - split.
    + intros [?|(c' & Hin & Hp)]; [by left|]. right. exists c'. by split; [right|].
    + intros [?|(c' & [->|Hin] & Hp)]; [by left | done |]. right. by exists c'.
Qed.

Lemma statusAfter_write p changes init :
  statusAfter p changes init = Some "write"
  ↔ init = Some "write" ∨ ∃ c, In c changes ∧ path c = p ∧ type c = "write".
Proof.
  unfold statusAfter.
  revert init. induction changes as [|c changes IH]; intros init; simpl.
  { split; [by left | intros [?|(c & [] & _)]; done]. }
  rewrite IH. destruct (String.eqb_spec (path c) p) as [Hp|Hne].
  - destruct (bool_decide_reflect (init = Some "write")) as [->|Hi].
    + split; by left.
    + split.
      * intros [[= Hw]|(c' & Hin & Hp' & Hw)].
        -- right. exists c. by split; [left|].
        -- right. exists c'. by split; [right|].
      * intros [?|(c' & [->|Hin] & Hp' & Hw)]; [done| |].
        -- left. by rewrite Hw.
        -- right. by exists c'.
  - split.
    + intros [?|(c' & Hin & Hp & Hw)]; [by left|]. right. exists c'. by split; [right|].
    + intros [?|(c' & [->|Hin] & Hp & Hw)]; [by left | done |]. right. by exists c'.
Qed.

Lemma statusAfter_last p changes init :
  init ≠ Some "write" →
  (∀ c, In c changes → path c = p → type c ≠ "write") →
  statusAfter p changes init
  = match last (List.filter (fun c => String.eqb (path c) p) changes) with
    | Some c => Some (type c)
    | None => init
    end.
Proof.
  unfold statusAfter.
  revert init. induction changes as [|c changes IH]; intros init Hi Hnw; simpl; [done|].
  assert (Hnw' : ∀ c', In c' changes → path c' = p → type c' ≠ "write")
    by (intros c' Hc'; apply Hnw; by right).
  destruct (String.eqb_spec (path c) p) as [Hp|Hne].
  - rewrite bool_decide_eq_false_2 by done.
    rewrite IH; [|intros [= Hw]; exact (Hnw c (or_introl eq_refl) Hp Hw)|done].
    destruct (List.filter _ changes) as [|c1 l]; simpl; [done|].
    rewrite last_cons. by destruct (last l).
  - by apply IH.
Qed.

(** C9: the keys of the status map are exactly the paths that occur in the
    change list; a path maps to [write] exactly when one of its changes has
    type [write]; when none has, it maps to the type of its last change. *)
Theorem fileStatusMap_spec (changes : list FileChange) (p : string) :
  let m := fileStatusMap changes in
  let forPath := List.filter (fun c => String.eqb (path c) p) changes in
  (In p (JsMap.keys m) ↔ ∃ c, In c changes ∧ path c = p)
  ∧ (JsMap.get p m = Some "write"
     ↔ ∃ c, In c changes ∧ path c = p ∧ type c = "write")
  ∧ ((∀ c, In c forPath → type c ≠ "write") →
     JsMap.get p m = type <$> last forPath).
Proof.
  simpl. unfold fileStatusMap. rewrite keys_get, get_fold. simpl.
  split; [|split].
  - rewrite statusAfter_is_Some. split; [intros [[? ?]|?]; done | by right].
  - rewrite statusAfter_write. split; [intros [?|?]; done | by right].
  - intros Hnw. rewrite statusAfter_last; [|done|].
    + by destruct (last _).
    + intros c Hc Hp. apply Hnw. apply filter_In. split; [done|].
      by apply String.eqb_eq.
Qed.

Lemma fileStatusMap_spec_witness :
  (∀ c, In c (List.filter (fun c => String.eqb (path c) "src/c.ts") Examples.someChanges) →
        type c ≠ "write")
  ∧ JsMap.get "src/c.ts" (fileStatusMap Examples.someChanges) = Some "edit"
  ∧ JsMap.get "src/a.ts" (fileStatusMap Examples.someChanges) = Some "write".
Proof.
  assert (H : ∀ c, In c (List.filter (fun c => String.eqb (path c) "src/c.ts")
                           Examples.someChanges) → type c ≠ "write").
  { intros c [<-|[]]. discriminate. }
  split; [exact H|]. split.
  - exact (proj2 (proj2 (fileStatusMap_spec Examples.someChanges "src/c.ts")) H).
  - apply (fileStatusMap_spec Examples.someChanges "src/a.ts").
    exists (Examples.change "write" "src/a.ts").
    split; [right; left; reflexivity | split; reflexivity].
Defined.

End FileStatusClaims.

(** ** The displayed survival score *)

Section DisplayScoreClaims.
Import OneShot ScoreDisplay ScoreSpec.

Lemma strictlyZero_true x : strictlyZero x = true ↔ x = Some 0%Z.
Proof.
  destruct x as [n|]; simpl; [|done].
  rewrite Z.eqb_eq. split; [by intros -> | by intros [= ->]].
Qed.

(** The rule of [displayScore]. *)
Lemma displayScore_rule (file : FileStat) :
  (total_lines file = Some 0%Z ∧ retained_lines file = Some 0%Z →
   displayScore file = 100%Q)
  ∧ (¬ (total_lines file = Some 0%Z ∧ retained_lines file = Some 0%Z) →
     displayScore file = score file).
Proof.
  unfold displayScore. split.
  - intros [Ht Hr]. apply strictlyZero_true in Ht, Hr. by rewrite Ht, Hr.
  - intros Hn.
    destruct (strictlyZero (total_lines file)) eqn:Ht; [|done].
    destruct (strictlyZero (retained_lines file)) eqn:Hr; [|done].
    apply strictlyZero_true in Ht, Hr. tauto.
Qed.

Lemma mathRound_nearest (x : Q) : nearest x (mathRound x).
Proof.
  unfold nearest, mathRound. split; [apply Qfloor_le | apply Qlt_floor].
Qed.

(** A whole number is its own rounding. *)
Lemma mathRound_whole (x : Q) (k : Z) : (x == inject_Z k)%Q → mathRound x = k.
Proof.
  intros Hx. unfold mathRound.
  rewrite (Qfloor_comp _ (inject_Z k + (1 # 2))%Q) by (by rewrite Hx).
  pose proof (Qfloor_le (inject_Z k + (1 # 2))) as H1.
  pose proof (Qlt_floor (inject_Z k + (1 # 2))) as H2.
  set (m := Qfloor (inject_Z k + (1 # 2))) in *.
  unfold Qle, Qlt in H1, H2. simpl in H1, H2. lia.
Qed.

(** C10, as amended: the header of OneShotDiffViewer (in the first of its
    two versions) and the header of the selected file in OneShotDetailsModal
    print the same number, the rounding of the display score: 100 when
    [total_lines] and [retained_lines] are both 0, and in every other case
    the integer nearest to the [score] field, which is the score itself
    when that is a whole number.  The file rows of the tree and the header
    of the second version of OneShotDiffViewer print the integer nearest to
    [score], and the rows of the list in OneShotDetailsModal.tsx print
    [score] as it is, whatever the line counts are. *)
Theorem displayedScore_by_place (file : FileStat) :
  selectedFileHeader file = diffViewerHeader file
  ∧ (total_lines file = Some 0%Z ∧ retained_lines file = Some 0%Z →
     diffViewerHeader file = 100%Q)
  ∧ (¬ (total_lines file = Some 0%Z ∧ retained_lines file = Some 0%Z) →
     ∃ n, diffViewerHeader file = inject_Z n ∧ nearest (score file) n)
  ∧ (∃ n, treeRow file = inject_Z n ∧ diffViewerHeader2 file = inject_Z n
          ∧ nearest (score file) n)
  ∧ listRow file = score file
  ∧ (∀ k : Z, (score file == inject_Z k)%Q →
       treeRow file = inject_Z k ∧ diffViewerHeader2 file = inject_Z k
       ∧ (¬ (total_lines file = Some 0%Z ∧ retained_lines file = Some 0%Z) →
          diffViewerHeader file = inject_Z k)).
Proof.
  destruct (displayScore_rule file) as [Hzero Hother].
  unfold selectedFileHeader, diffViewerHeader, diffViewerHeader2, treeRow, listRow.
  split; [done|]. split; [|split; [|split; [|split]]].
  - intros H. by rewrite (Hzero H).
  - intros H. rewrite (Hother H). eexists. split; [done|]. apply mathRound_nearest.
  - eexists. split; [done|]. split; [done|]. apply mathRound_nearest.
  - done.
  - intros k Hk. rewrite (mathRound_whole _ _ Hk). split; [done|]. split; [done|].
    intros H. by rewrite (Hother H), (mathRound_whole _ _ Hk).
Qed.

Lemma displayedScore_by_place_witness :
  (total_lines Examples.emptyFile = Some 0%Z
   ∧ retained_lines Examples.emptyFile = Some 0%Z)
  ∧ diffViewerHeader Examples.emptyFile = 100%Q.
Proof.
  assert (H : total_lines Examples.emptyFile = Some 0%Z
              ∧ retained_lines Examples.emptyFile = Some 0%Z) by (split; reflexivity).
  split; [exact H|].
  exact (proj1 (proj2 (displayedScore_by_place Examples.emptyFile)) H).
Defined.

(** C10, as stated, fails.  The empty file, with 0 total and 0 retained
    lines and a score of 0, is shown with 100 in the two headers that have
    the rule and with 0 in the tree, in the other header and in the list;
    and a file with a score of 66.5 is shown with 67 in the headers that
    have the rule. *)
Lemma displayedScore_not_as_stated :
  (total_lines Examples.emptyFile = Some 0%Z
   ∧ retained_lines Examples.emptyFile = Some 0%Z)
  ∧ diffViewerHeader Examples.emptyFile = 100%Q
  ∧ treeRow Examples.emptyFile = 0%Q
  ∧ diffViewerHeader2 Examples.emptyFile = 0%Q
  ∧ listRow Examples.emptyFile = 0%Q
  ∧ ¬ shownAsStated treeRow
  ∧ ¬ shownAsStated diffViewerHeader2
  ∧ ¬ shownAsStated listRow
  ∧ diffViewerHeader partlyKept = 67%Q
  ∧ ¬ shownAsStated diffViewerHeader
  ∧ ¬ shownAsStated selectedFileHeader.
Proof.
  assert (Hz : total_lines Examples.emptyFile = Some 0%Z
               ∧ retained_lines Examples.emptyFile = Some 0%Z) by (split; reflexivity).
  assert (Hn : ¬ (total_lines partlyKept = Some 0%Z
                  ∧ retained_lines partlyKept = Some 0%Z)) by (intros [H _]; discriminate).
  split; [exact Hz|]. repeat (split; [reflexivity|]).
  split; [|split; [|split; [|split; [reflexivity|split]]]].
  - intros H. pose proof (proj1 (H Examples.emptyFile) Hz) as E.
    vm_compute in E. discriminate.
  - intros H. pose proof (proj1 (H Examples.emptyFile) Hz) as E.
    vm_compute in E. discriminate.
  - intros H. pose proof (proj1 (H Examples.emptyFile) Hz) as E.
    vm_compute in E. discriminate.
  - intros H. pose proof (proj2 (H partlyKept) Hn) as E.
    vm_compute in E. discriminate.
  - intros H. pose proof (proj2 (H partlyKept) Hn) as E.
    vm_compute in E. discriminate.
Qed.

End DisplayScoreClaims.

(** ** The tag manager *)

Section TagManagerClaims.
Import JsString TagManager.

(** C6: when the add or the remove call rejects, the local tag list is
    unchanged; when the remove call succeeds, the list loses exactly the
    tags whose name is the given name; when the add call is made and
    succeeds, one tag with the entered name is appended. *)
Theorem tag_updates_atomic (sessionId tagName : string) (captured s : State)
    (now : Z) (e : JsError) :
  tags (handleAddTag sessionId captured (Throw e) now s).1 = tags s
  ∧ tags (handleRemoveTag sessionId tagName (Throw e) s).1 = tags s
  ∧ (tags (handleRemoveTag sessionId tagName (Normal ()) s).1
     = List.filter (fun t => negb (String.eqb (name t) tagName)) (tags s)
     ∧ ∀ t, In t (tags (handleRemoveTag sessionId tagName (Normal ()) s).1)
            ↔ In t (tags s) ∧ name t ≠ tagName)
  ∧ (trim (newTagName captured) ≠ "" →
     ∃ tag, name tag = newTagName captured
            ∧ tags (handleAddTag sessionId captured (Normal ()) now s).1
              = (tags s ++ [tag])%list).
Proof.
  split; [|split; [|split]].
  - unfold handleAddTag. by destruct (String.eqb _ _).
  - reflexivity.
  - split; [done|]. intros t. simpl. rewrite filter_In.
    by rewrite negb_true_iff, String.eqb_neq.
  - intros Hne. unfold handleAddTag.
    apply String.eqb_neq in Hne as ->.
    by exists {| id := now; name := newTagName captured; color := "blue" |}.
Qed.

Lemma tag_updates_atomic_witness :
  trim (newTagName Examples.twoTags) ≠ ""
  ∧ ∃ tag, name tag = "urgent"
           ∧ tags (handleAddTag "s1" Examples.twoTags (Normal ()) 1767225600000
                     Examples.twoTags).1
             = (tags Examples.twoTags ++ [tag])%list.
Proof.
  assert (H : trim (newTagName Examples.twoTags) ≠ "") by (vm_compute; discriminate).
  split; [exact H|].
  exact (proj2 (proj2 (proj2
    (tag_updates_atomic "s1" "bug" Examples.twoTags Examples.twoTags
       1767225600000 TypeError))) H).
Defined.

End TagManagerClaims.

(** ** The token-usage chart *)

Section TokenChartClaims.
Import JsString Json TokenChart ChartSpec.

Variable JSON_parse : string → completion json.
Variable toLocaleTimeString : jsval → completion string.
Variable t : string → string.

Lemma getField_fieldOf h k : h ≠ JNull → getField h k = Normal (fieldOf h k).
Proof. by destruct h. Qed.

(** A [map] whose callback never throws maps every item, in order. *)
Lemma mapIndexed_normal {A B} (f : A → nat → completion B) (g : nat → A → B) xs :
  ∀ k, (∀ i x, xs !! i = Some x → f x (k + i)%nat = Normal (g (k + i)%nat x)) →
       mapIndexed f k xs = Normal (imap (fun i => g (k + i)%nat) xs).
Proof.
  induction xs as [|x xs IH]; intros k Hf; simpl; [done|].
  pose proof (Hf 0%nat x eq_refl) as H0. rewrite Nat.add_0_r in H0.
  rewrite H0. simpl.
  rewrite (IH (S k)).
  - simpl. rewrite Nat.add_0_r. do 2 f_equal.
    apply imap_ext. intros i y _. simpl. f_equal. lia.
  - intros i y Hy. replace (S k + i)%nat with (k + S i)%nat by lia.
    by apply Hf.
Qed.

(** A [map] whose callback throws on some item throws. *)
Lemma mapIndexed_throw {A B} (f : A → nat → completion B) xs :
  ∀ k, (∃ i x, xs !! i = Some x ∧ ∃ e, f x (k + i)%nat = Throw e) →
       ∃ e, mapIndexed f k xs = Throw e.
Proof.
  induction xs as [|x xs IH]; intros k (i & y & Hy & e & He); [done|]. simpl.
  destruct (f x k) as [b|e0] eqn:Hfx; [|by eexists]. simpl.
  destruct i as [|i].
  - injection Hy as ->. rewrite Nat.add_0_r in He. congruence.
  - destruct (IH (S k)) as [e1 ->]; [|by eexists].
    exists i, y. split; [done|]. exists e.
    by replace (S k + i)%nat with (k + S i)%nat by lia.
Qed.

Lemma chartDataWith_array point s entries :
  s ≠ "" → JSON_parse s = Normal (JArr entries) →
  chartDataWith JSON_parse point (Some s)
  = tryCatch (mapIndexed point 0 entries) (fun _ => Normal []).
Proof.
  intros Hs Hp. unfold chartDataWith.
  apply String.eqb_neq in Hs as ->. by rewrite Hp.
Qed.

(** The chart never throws. *)
Lemma chartDataWith_never_throws point tuh :
  ∃ pts, chartDataWith JSON_parse point tuh = Normal pts.
Proof.
  unfold chartDataWith. destruct tuh as [s|]; [|by eexists].
  destruct (String.eqb s ""); [by eexists|].
  destruct (JSON_parse s) as [h|e]; simpl; [|by eexists].
  destruct (arrayMap h point); simpl; by eexists.
Qed.

(** C5: when the history is absent, or is a string that [JSON.parse]
    rejects, either chart is the empty list, returned normally: no
    exception leaves the computation. *)
Theorem chartData_empty_on_failure (token_usage_history : option string) :
  (token_usage_history = None
   ∨ ∃ s e, token_usage_history = Some s ∧ JSON_parse s = Throw e) →
  chartData_stats JSON_parse toLocaleTimeString token_usage_history = Normal []
  ∧ chartData_analytics JSON_parse toLocaleTimeString t token_usage_history
    = Normal [].
Proof.
  unfold chartData_stats, chartData_analytics, chartDataWith.
  intros [->|(s & e & -> & Hp)]; [done|].
  rewrite Hp. simpl. by destruct (String.eqb s "").
Qed.

Lemma delivers_imap chart label adjust s entries (g : nat → json → Point) :
  chart (Some s) = Normal (imap g entries) →
  (∀ i h, entries !! i = Some h →
     name (g i h) = label +:+ " " +:+ ofNat (i + 1)
     ∧ input (g i h) = adjust (fieldOf h "input")
     ∧ output (g i h) = adjust (fieldOf h "output")
     ∧ total (g i h) = adjust (fieldOf h "total")) →
  chartDelivers chart label adjust s entries.
Proof.
  intros Hc Hg. exists (imap g entries).
  split; [done|]. split; [apply length_imap|].
  intros i h Hh. exists (g i h). split; [|by apply Hg].
  by rewrite list_lookup_imap, Hh.
Qed.

(** C4, as amended: for a history that is a non-empty string parsing as a
    JSON array of n entries, (1) when some entry is [null] either chart is
    the empty list; (2) when no entry is [null] and every time conversion
    returns, the chart of SessionStatsModal has n points in the order of
    the entries, the point at index i named [Turn i+1] and carrying the
    input, output and total of entry i; (3) under the same conditions (a
    time is converted only when the timestamp is truthy) the chart of
    SessionAnalyticsModal has n points in order, the point at index i
    named by the translation of [analytics.turn] and i+1, and carrying
    the input, output and total of entry i with every falsy or missing
    value replaced by 0. *)
Theorem chartData_points (s : string) (entries : list json) :
  s ≠ "" → JSON_parse s = Normal (JArr entries) →
  (In JNull entries →
     chartData_stats JSON_parse toLocaleTimeString (Some s) = Normal []
     ∧ chartData_analytics JSON_parse toLocaleTimeString t (Some s) = Normal [])
  ∧ (Forall (fun h => h ≠ JNull ∧ timeConverts toLocaleTimeString h) entries →
     chartDelivers (chartData_stats JSON_parse toLocaleTimeString)
                   "Turn" (fun v => v) s entries)
  ∧ (Forall (fun h => h ≠ JNull
                      ∧ (truthy (fieldOf h "timestamp") = true →
                         timeConverts toLocaleTimeString h)) entries →
     chartDelivers (chartData_analytics JSON_parse toLocaleTimeString t)
                   (t "analytics.turn") orZero s entries).
Proof.
  intros Hs Hp. unfold chartData_stats, chartData_analytics.
  split; [|split].
  - intros Hnull. apply list_elem_of_In, list_elem_of_lookup in Hnull as [i Hi].
    rewrite !(chartDataWith_array _ s entries) by done.
    destruct (mapIndexed_throw (statsPoint toLocaleTimeString) entries 0%nat)
      as [e1 ->]; [by exists i, JNull; split; [|exists TypeError]|].
    destruct (mapIndexed_throw (analyticsPoint toLocaleTimeString t) entries 0%nat)
      as [e2 ->]; [by exists i, JNull; split; [|exists TypeError]|].
    done.
  - intros Hok. rewrite Forall_forall in Hok.
    set (g := fun (i : nat) (h : json) =>
      {| name := "Turn " +:+ ofNat (i + 1);
         input := fieldOf h "input"; output := fieldOf h "output";
         total := fieldOf h "total";
         time := match toLocaleTimeString (fieldOf h "timestamp") with
                 | Normal tm => tm
                 | Throw _ => ""
                 end |}).
    apply (delivers_imap _ _ _ _ _ g); [|done].
    rewrite (chartDataWith_array _ s entries) by done.
    rewrite (mapIndexed_normal _ g); [done|].
    intros i h Hh. destruct (Hok h) as [Hn [tm Htm]];
      [by eapply list_elem_of_lookup_2|].
    unfold statsPoint. rewrite !getField_fieldOf by done. simpl.
    unfold g. by rewrite Htm.
  - intros Hok. rewrite Forall_forall in Hok.
    set (g := fun (i : nat) (h : json) =>
      {| name := t "analytics.turn" +:+ " " +:+ ofNat (i + 1);
         input := orZero (fieldOf h "input");
         output := orZero (fieldOf h "output");
         total := orZero (fieldOf h "total");
         time := if truthy (fieldOf h "timestamp")
                 then match toLocaleTimeString (fieldOf h "timestamp") with
                      | Normal tm => tm
                      | Throw _ => ""
                      end
                 else "" |}).
    apply (delivers_imap _ _ _ _ _ g); [|done].
    rewrite (chartDataWith_array _ s entries) by done.
    rewrite (mapIndexed_normal _ g); [done|].
    intros i h Hh. destruct (Hok h) as [Hn Htm];
      [by eapply list_elem_of_lookup_2|].
    unfold analyticsPoint. rewrite !getField_fieldOf by done. simpl.
    unfold g. destruct (truthy (fieldOf h "timestamp")); [|done].
    destruct (Htm eq_refl) as [tm ->]. done.
Qed.

End TokenChartClaims.

Section TokenChartExamples.
Import JsString Json TokenChart ChartSpec.

Lemma chartData_empty_on_failure_witness :
  (Some "not json" = None
   ∨ ∃ s e, Some "not json" = Some s ∧ tableParse s = Throw e)
  ∧ chartData_stats tableParse fixedClock (Some "not json") = Normal []
  ∧ chartData_analytics tableParse fixedClock french (Some "not json") = Normal [].
Proof.
  assert (H : Some "not json" = None
              ∨ ∃ s e, Some "not json" = Some s ∧ tableParse s = Throw e).
  { right. exists "not json", SyntaxError. split; reflexivity. }
  split; [exact H|].
  exact (chartData_empty_on_failure tableParse fixedClock french _ H).
Defined.

Lemma chartData_points_witness :
  textTwoTurns ≠ ""
  ∧ tableParse textTwoTurns
    = Normal (JArr [JObj [("input", JNum 10); ("output", JNum 5); ("total", JNum 15)];
                    JObj [("input", JNum 20)]])
  ∧ chartDelivers (chartData_stats tableParse fixedClock) "Turn" (fun v => v)
      textTwoTurns
      [JObj [("input", JNum 10); ("output", JNum 5); ("total", JNum 15)];
       JObj [("input", JNum 20)]].
Proof.
  assert (Hs : textTwoTurns ≠ "") by (vm_compute; discriminate).
  assert (Hp : tableParse textTwoTurns
    = Normal (JArr [JObj [("input", JNum 10); ("output", JNum 5); ("total", JNum 15)];
                    JObj [("input", JNum 20)]])) by (vm_compute; reflexivity).
  split; [exact Hs|]. split; [exact Hp|].
  apply (chartData_points tableParse fixedClock french _ _ Hs Hp).
  repeat constructor; try discriminate; by eexists.
Defined.

Lemma not_delivers_length chart label adjust s entries pts :
  chart (Some s) = Normal pts → length pts ≠ length entries →
  ¬ chartDelivers chart label adjust s entries.
Proof. intros Hc Hl (pts' & Hc' & Hl' & _). congruence. Qed.

(** C4, as stated, fails.  On the history [[null]], an array of one entry,
    both charts are empty: reading [h.input] of [null] throws and the
    [catch] returns the empty list.  On [[{"input":null}]] the chart of
    SessionAnalyticsModal, under a French translation, names its point
    [Tour 1] and gives it the input 0, not the [null] of the entry. *)
Lemma chartData_not_as_stated :
  tableParse textNull = Normal (JArr [JNull])
  ∧ chartData_stats tableParse fixedClock (Some textNull) = Normal []
  ∧ ¬ chartAsStated (chartData_stats tableParse fixedClock) textNull [JNull]
  ∧ ¬ chartAsStated (chartData_analytics tableParse fixedClock french)
        textNull [JNull]
  ∧ tableParse textNullInput = Normal (JArr [JObj [("input", JNull)]])
  ∧ chartData_analytics tableParse fixedClock french (Some textNullInput)
    = Normal [ {| name := "Tour 1"; input := Some (JNum 0); output := Some (JNum 0);
                  total := Some (JNum 0); time := "" |} ]
  ∧ ¬ chartAsStated (chartData_analytics tableParse fixedClock french)
        textNullInput [JObj [("input", JNull)]].
Proof.
  split; [reflexivity|]. split; [reflexivity|].
  split; [by apply (not_delivers_length _ _ _ _ _ [])|].
  split; [by apply (not_delivers_length _ _ _ _ _ [])|].
  split; [reflexivity|]. split; [reflexivity|].
  intros (pts & Hc & _ & Hpt).
  destruct (Hpt 0%nat _ eq_refl) as (pt & Hl & Hname & _).
  vm_compute in Hc. injection Hc as <-. injection Hl as <-.
  vm_compute in Hname. discriminate.
Qed.

End TokenChartExamples.


(** ** The one-shot statistics loader *)

Section LoaderFacts.
Import JsObject ProjectDetails.

Variable op : ObjectPrototype.

Lemma guard_own_stats captured sid :
  is_Some (oneShotStats captured !! sid) → guard op captured sid = true.
Proof.
  intros [st Hst]. unfold guard, statsTruthy, objGet. rewrite Hst.
  apply orb_true_r.
Qed.

Lemma guard_own_loading captured sid :
  loadingStats captured !! sid = Some true → guard op captured sid = true.
Proof.
  intros Hl. unfold guard, loadingTruthy, objGet. by rewrite Hl.
Qed.

(** When the guard lets the call through, the maps hold nothing for the
    session that would stop it. *)
Lemma guard_false captured sid :
  guard op captured sid = false →
  oneShotStats captured !! sid = None ∧ loadingStats captured !! sid ≠ Some true.
Proof.
  unfold guard, loadingTruthy, statsTruthy, objGet.
  intros [Hl Hs]%orb_false_iff. split.
  - by destruct (oneShotStats captured !! sid).
  - intros H. by rewrite H in Hl.
Qed.

(** The guard reads the two maps at the session id only. *)
Lemma guard_ext c1 c2 sid :
  oneShotStats c1 !! sid = oneShotStats c2 !! sid →
  loadingStats c1 !! sid = loadingStats c2 !! sid →
  guard op c1 sid = guard op c2 sid.
Proof.
  intros Hs Hl. unfold guard, loadingTruthy, statsTruthy, objGet.
  by rewrite Hs, Hl.
Qed.

Lemma guard_empty sid :
  inheritedGet op sid = None → guard op emptyStats sid = false.
Proof.
  intros Hi. unfold guard, loadingTruthy, statsTruthy, objGet. simpl.
  by rewrite !lookup_empty, Hi.
Qed.

Lemma requested_app e1 e2 :
  requested (e1 ++ e2) = (requested e1 ++ requested e2)%list.
Proof. unfold requested. apply flat_map_app. Qed.

Lemma requested_begin captured sid :
  requested (loadOneShotStats_begin op captured sid)
  = if guard op captured sid then [] else [sid].
Proof. unfold loadOneShotStats_begin. by destruct (guard op captured sid). Qed.

(** The requests of a round of calls from one render. *)
Lemma requested_batch captured (ss : list Session) :
  requested (flat_map (fun s => loadOneShotStats_begin op captured (id s)) ss)
  = map id (List.filter (fun s => negb (guard op captured (id s))) ss).
Proof.
  induction ss as [|s ss IH]; simpl; [done|].
  rewrite requested_app, requested_begin, IH.
  by destruct (guard op captured (id s)).
Qed.

Lemma sessionsWithChanges_In s ss :
  In s (sessionsWithChanges ss)
  ↔ In s ss ∧ ∃ n, file_change_count s = Some n ∧ (0 < n)%Z.
Proof.
  unfold sessionsWithChanges. rewrite filter_In, Z.ltb_lt.
  split; intros [Hin H]; (split; [done|]).
  - destruct (file_change_count s) as [n|]; simpl in H; [by exists n | lia].
  - by destruct H as (n & -> & Hn).
Qed.

(** *** The component over time *)

Lemma occurrences_cons sid x l :
  occurrences sid (x :: l)
  = ((if String.eqb sid x then 1 else 0) + occurrences sid l)%nat.
Proof. unfold occurrences. simpl. by destruct (String.eqb sid x). Qed.

Lemma occurrences_removeOne_eq sid l :
  occurrences sid (removeOne sid l) = Nat.pred (occurrences sid l).
Proof.
  induction l as [|x l IH]; simpl; [done|].
  destruct (String.eqb sid x) eqn:E.
  - by rewrite occurrences_cons, E.
  - by rewrite !occurrences_cons, E, IH.
Qed.

Lemma occurrences_removeOne_ne sid sid' l :
  sid' ≠ sid → occurrences sid' (removeOne sid l) = occurrences sid' l.
Proof.
  intros Hne. induction l as [|x l IH]; simpl; [done|].
  destruct (String.eqb_spec sid x) as [<-|Hx].
  - rewrite occurrences_cons. by apply String.eqb_neq in Hne as ->.
  - by rewrite !occurrences_cons, IH.
Qed.

Lemma pending_occurrences sid σ :
  pending sid σ = true → (1 ≤ occurrences sid (inflight σ))%nat.
Proof.
  unfold pending. induction (inflight σ) as [|x l IH]; simpl; [done|].
  rewrite occurrences_cons. destruct (String.eqb sid x); simpl; [lia | done].
Qed.

Import LoaderSpec.

Lemma consistent_initial : consistent initial.
Proof. intros sid. unfold occurrences. simpl. split; [lia|]. by split. Qed.

(** One call of the loader, from a render that shows the maps as they
    are at [sid]. *)
Lemma consistent_begin σ captured sid :
  oneShotStats captured !! sid = oneShotStats (cur σ) !! sid →
  loadingStats captured !! sid = loadingStats (cur σ) !! sid →
  consistent σ →
  consistent (applyEffects (loadOneShotStats_begin op captured sid) σ).
Proof.
  intros Hs Hl Hc. unfold loadOneShotStats_begin.
  destruct (guard op captured sid) eqn:Hg; [done|].
  apply guard_false in Hg as [Hnone Hnl]. rewrite Hs in Hnone. rewrite Hl in Hnl.
  intros sid'. destruct (Hc sid') as (H1 & H2 & H3). simpl.
  unfold applyLoading. rewrite occurrences_cons.
  destruct (String.eqb_spec sid' sid) as [->|Hne].
  - rewrite lookup_insert_eq. specialize (H2 Hnone). specialize (H3 Hnl).
    split; [lia|]. by split.
  - rewrite lookup_insert_ne by done. simpl. by repeat split.
Qed.

Lemma begin_other σ captured sid sid' :
  sid' ≠ sid →
  oneShotStats (cur (applyEffects (loadOneShotStats_begin op captured sid) σ)) !! sid'
  = oneShotStats (cur σ) !! sid'
  ∧ loadingStats (cur (applyEffects (loadOneShotStats_begin op captured sid) σ)) !! sid'
    = loadingStats (cur σ) !! sid'.
Proof.
  intros Hne. unfold loadOneShotStats_begin.
  destruct (guard op captured sid); [done|]. simpl.
  unfold applyLoading. by rewrite lookup_insert_ne.
Qed.

Lemma applyEffects_app e1 e2 σ :
  applyEffects (e1 ++ e2) σ = applyEffects e2 (applyEffects e1 σ).
Proof. apply fold_left_app. Qed.

(** A round of calls from one render, for pairwise distinct sessions. *)
Lemma consistent_batch (ss : list Session) σ captured :
  NoDup (map id ss) →
  (∀ s, In s ss →
     oneShotStats captured !! id s = oneShotStats (cur σ) !! id s
     ∧ loadingStats captured !! id s = loadingStats (cur σ) !! id s) →
  consistent σ →
  consistent
    (applyEffects (flat_map (fun s => loadOneShotStats_begin op captured (id s)) ss) σ).
Proof.
  revert σ. induction ss as [|s ss IH]; intros σ Hnd Hagree Hc; [done|].
  simpl. rewrite applyEffects_app.
  apply NoDup_cons in Hnd as [Hnotin Hnd].
  destruct (Hagree s (or_introl eq_refl)) as [Hs Hl].
  apply IH; [done| |by apply consistent_begin].
  intros s' Hs'. destruct (Hagree s' (or_intror Hs')) as [Hs1 Hl1].
  destruct (begin_other σ captured (id s) (id s')) as [-> ->]; [|done].
  intros Heq. apply Hnotin. rewrite <- Heq.
  apply list_elem_of_In, in_map, Hs'.
Qed.

Lemma consistent_settled σ sid (response : completion OneShotStats) :
  pending sid σ = true → consistent σ →
  consistent (applyEffects (loadOneShotStats_resume sid response) (settle sid σ)).
Proof.
  intros Hp%pending_occurrences Hc sid'.
  destruct (Hc sid') as (H1 & H2 & H3).
  destruct response as [st|e]; simpl; unfold applyLoading, applyResult.
  - rewrite occurrences_cons.
    destruct (String.eqb_spec sid' sid) as [->|Hne].
    + rewrite !lookup_insert_eq, occurrences_removeOne_eq.
      split; [lia|]. split; [done|]. intros _. lia.
    + rewrite !lookup_insert_ne, occurrences_removeOne_ne by done.
      simpl. by repeat split.
  - destruct (String.eqb_spec sid' sid) as [->|Hne].
    + rewrite !lookup_insert_eq, occurrences_removeOne_eq.
      split; [lia|]. split; [done|]. intros _. lia.
    + rewrite !lookup_insert_ne, occurrences_removeOne_ne by done.
      by repeat split.
Qed.

Lemma consistent_run evs σ :
  distinctIds evs → consistent σ → consistent (fold_left (step op) evs σ).
Proof.
  revert σ. induction evs as [|ev evs IH]; intros σ Hd Hc; [done|].
  cbn [fold_left]. apply IH.
  - destruct ev; simpl in Hd; tauto.
  - destruct ev as [sid|ss|sid st|sid e]; cbn [step].
    + by apply consistent_begin.
    + destruct Hd as [Hnd _]. by apply consistent_batch.
    + destruct (pending sid σ) eqn:Hp; [by apply consistent_settled | done].
    + destruct (pending sid σ) eqn:Hp; [by apply consistent_settled | done].
Qed.

End LoaderFacts.

Section LoaderClaims.
Import JsObject ProjectDetails LoaderSpec.

Variable op : ObjectPrototype.

(** C2: applying two results for different sessions gives the same result
    map in either order, and applying a result twice gives the same map as
    applying it once; the same holds for both maps after the two
    completions of the loader have run. *)
Theorem applyResult_commutative_idempotent
    (m : gmap string OneShotStats) (sid1 sid2 : string) (st1 st2 : OneShotStats) :
  (sid1 ≠ sid2 →
   applyResult sid1 st1 (applyResult sid2 st2 m)
   = applyResult sid2 st2 (applyResult sid1 st1 m))
  ∧ applyResult sid1 st1 (applyResult sid1 st1 m) = applyResult sid1 st1 m
  ∧ (∀ σ, sid1 ≠ sid2 →
       cur (applyEffects (loadOneShotStats_resume sid1 (Normal st1))
             (applyEffects (loadOneShotStats_resume sid2 (Normal st2)) σ))
       = cur (applyEffects (loadOneShotStats_resume sid2 (Normal st2))
               (applyEffects (loadOneShotStats_resume sid1 (Normal st1)) σ))).
Proof.
  unfold applyResult. split; [|split].
  - intros Hne. by apply insert_insert_ne.
  - apply insert_insert_eq.
  - intros σ Hne. simpl. unfold applyResult, applyLoading. f_equal.
    + by apply insert_insert_ne.
    + by apply insert_insert_ne.
Qed.

(** The filter of the effect keeps the sessions with a count greater than
    zero, and no other. *)
Lemma sessionsWithChanges_stated (ss : list Session) :
  sessionsWithChanges ss = List.filter countPositive ss.
Proof.
  unfold sessionsWithChanges. apply filter_ext. intros s. unfold countPositive, orZero.
  by destruct (file_change_count s).
Qed.

Lemma filter_guarded (ss : list Session) (g : Session → bool) :
  List.filter g (List.filter countPositive ss)
  = List.filter (fun s => countPositive s && g s) ss.
Proof.
  induction ss as [|s ss IH]; simpl; [done|].
  destruct (countPositive s); simpl; [|done]. destruct (g s); by rewrite IH.
Qed.

(** C3, as amended: when the effect fires (loading is over, the session
    list is not empty, the effect has not fired for this list yet), a
    request is started for exactly the sessions whose file_change_count is
    greater than zero and that the guard of the loader lets through, that
    is, for which the maps of that render hold neither statistics nor a
    request in flight, one request each and in the order of the list:
    every request belongs to a session with a positive count that the
    guard lets through, so a session with a zero or absent count is never
    requested for, and every session with a positive count that the guard
    lets through is requested for.  With both maps empty, as when the
    project is opened for the first time, and no session id naming a member
    of [Object.prototype], that is every session with a positive count. *)
Theorem autoLoad_requests (v : View) :
  loading v = false → sessions v ≠ [] → autoLoadTriggered v = false →
  requested (autoLoad op v).2
  = map id (List.filter (fun s => countPositive s
                                  && negb (guard op (stats v) (id s)))
                        (sessions v))
  ∧ (∀ sid, In sid (requested (autoLoad op v).2) →
       ∃ s n, In s (sessions v) ∧ id s = sid
              ∧ file_change_count s = Some n ∧ (0 < n)%Z
              ∧ guard op (stats v) sid = false)
  ∧ (∀ s n, In s (sessions v) →
       file_change_count s = Some n → (0 < n)%Z →
       guard op (stats v) (id s) = false →
       In (id s) (requested (autoLoad op v).2))
  ∧ (stats v = emptyStats →
     (∀ s, In s (sessions v) → inheritedGet op (id s) = None) →
     autoLoadAsStated op v).
Proof.
  intros Hl Hs Ht. unfold autoLoadAsStated, autoLoad. rewrite Hl, Ht.
  assert ((0 <? length (sessions v))%nat = true) as ->
    by (by destruct (sessions v)).
  cbn [negb andb snd]. rewrite requested_batch.
  rewrite sessionsWithChanges_stated, filter_guarded.
  split; [done|]. split; [|split].
  - intros sid (s & <- & Hin)%in_map_iff.
    apply filter_In in Hin as [Hin [Hpos Hg]%andb_true_iff].
    unfold countPositive in Hpos.
    destruct (file_change_count s) as [n|] eqn:Hn; [|done].
    apply Z.ltb_lt in Hpos. apply negb_true_iff in Hg. by exists s, n.
  - intros s n Hin Hn Hpos Hg. apply in_map, filter_In. split; [done|].
    unfold countPositive. rewrite Hn, Hg.
    by apply Z.ltb_lt in Hpos as ->.
  - intros -> Hplain. f_equal. apply filter_ext_in. intros s Hin.
    rewrite guard_empty by (by apply Hplain). cbn [negb]. apply andb_true_r.
Qed.

(** C7, as amended: when the result map holds statistics for a session, or
    the loading map marks a request for it in flight, a call of the loader
    does nothing: no request, no update, both maps as before.  Consequently,
    over any run of clicks, firings of the auto-load effect and responses in
    which no list the effect fires on carries the same id twice among its
    sessions with file changes, every session id is written to the result
    map at most once. *)
Theorem loader_guard_single_write :
  (∀ captured sid,
     is_Some (oneShotStats captured !! sid)
     ∨ loadingStats captured !! sid = Some true →
     loadOneShotStats_begin op captured sid = []
     ∧ ∀ σ, cur σ = captured → step op σ (Click sid) = σ)
  ∧ (∀ evs sid, distinctIds evs →
       (occurrences sid (writes (run op evs)) ≤ 1)%nat).
Proof.
  split.
  - intros captured sid H.
    assert (Hg : guard op captured sid = true).
    { destruct H; [by apply guard_own_stats | by apply guard_own_loading]. }
    unfold loadOneShotStats_begin. split; [by rewrite Hg|].
    intros σ <-. simpl. unfold loadOneShotStats_begin. by rewrite Hg.
  - intros evs sid Hd.
    destruct (consistent_run op evs initial Hd (consistent_initial) sid)
      as (H & _ & _).
    unfold run. lia.
Qed.

End LoaderClaims.

Section LoaderExamples.
Import JsObject ProjectDetails LoaderSpec.

Lemma applyResult_commutative_idempotent_witness :
  "s1" ≠ "s2"
  ∧ applyResult "s1" someStats (applyResult "s2" otherStats ∅)
    = applyResult "s2" otherStats (applyResult "s1" someStats ∅).
Proof.
  assert (H : "s1" ≠ "s2") by discriminate.
  split; [exact H|].
  exact (proj1 (applyResult_commutative_idempotent ∅ "s1" "s2" someStats otherStats) H).
Defined.

Lemma autoLoad_requests_witness :
  loading firstVisit = false ∧ sessions firstVisit ≠ []
  ∧ autoLoadTriggered firstVisit = false
  ∧ autoLoadAsStated pristine firstVisit.
Proof.
  assert (H1 : loading firstVisit = false) by reflexivity.
  assert (H2 : sessions firstVisit ≠ []) by discriminate.
  assert (H3 : autoLoadTriggered firstVisit = false) by reflexivity.
  split; [exact H1|]. split; [exact H2|]. split; [exact H3|].
  apply (autoLoad_requests pristine firstVisit H1 H2 H3); [reflexivity|].
  intros s Hin. simpl in Hin.
  destruct Hin as [<-|[<-|[<-|[<-|[]]]]]; reflexivity.
Defined.

(** C3, as stated, fails: when the project is opened again, the statistics
    of [s1] are in the result map, the guard stops the call for [s1], and
    only [s2] is requested, though [s1] and [s2] both have file changes. *)
Lemma autoLoad_not_as_stated :
  oneShotStats (stats reopened) !! "s1" = Some someStats
  ∧ map id (List.filter countPositive (sessions reopened)) = ["s1"; "s2"]
  ∧ requested (autoLoad pristine reopened).2 = ["s2"]
  ∧ ¬ autoLoadAsStated pristine reopened.
Proof.
  split; [by vm_compute|]. split; [reflexivity|].
  assert (H : requested (autoLoad pristine reopened).2 = ["s2"]) by by vm_compute.
  split; [exact H|].
  unfold autoLoadAsStated. rewrite H. vm_compute. discriminate.
Qed.

(** C7, as stated, fails in its last part: all calls of one [forEach] read
    the maps of the same render, so when the session list carries the id
    [a] twice, neither call sees the flag of the other, two requests go out
    and two results are written under [a]. *)
Lemma loader_two_writes :
  inflight (step pristine initial (AutoLoad twins)) = ["a"; "a"]
  ∧ occurrences "a" (writes (run pristine twinRun)) = 2%nat
  ∧ ¬ singleWriteAsStated pristine.
Proof.
  split; [by vm_compute|].
  assert (H : occurrences "a" (writes (run pristine twinRun)) = 2%nat)
    by by vm_compute.
  split; [exact H|].
  intros Hs. specialize (Hs twinRun "a"). rewrite H in Hs. lia.
Qed.

Lemma loader_guard_single_write_witness :
  (is_Some (oneShotStats (stats reopened) !! "s1")
   ∨ loadingStats (stats reopened) !! "s1" = Some true)
  ∧ loadOneShotStats_begin pristine (stats reopened) "s1" = []
  ∧ distinctIds [AutoLoad (sessions reopened); Resolve "s1" someStats;
                 Click "s1"; Reject "s2" (Rejected "offline"); Click "s2";
                 Resolve "s2" otherStats]
  ∧ (occurrences "s2"
       (writes (run pristine
          [AutoLoad (sessions reopened); Resolve "s1" someStats;
           Click "s1"; Reject "s2" (Rejected "offline"); Click "s2";
           Resolve "s2" otherStats])) ≤ 1)%nat.
Proof.
  assert (H : is_Some (oneShotStats (stats reopened) !! "s1")
              ∨ loadingStats (stats reopened) !! "s1" = Some true).
  { left. by eexists. }
  assert (Hd : distinctIds [AutoLoad (sessions reopened); Resolve "s1" someStats;
                 Click "s1"; Reject "s2" (Rejected "offline"); Click "s2";
                 Resolve "s2" otherStats]).
  { simpl. split; [|done]. apply (bool_decide_unpack _). by vm_compute. }
  split; [exact H|].
  split; [exact (proj1 (proj1 (loader_guard_single_write pristine) _ _ H))|].
  split; [exact Hd|].
  exact (proj2 (loader_guard_single_write pristine) _ "s2" Hd).
Defined.

End LoaderExamples.

(** ** Durations *)

Section FormatDurationFacts.
Import JsString FormatDuration.

(** [formatDuration] shows whole seconds below a minute; from a minute on
    it drops the seconds without rounding: it shows the whole minutes [m]
    below an hour, and the whole hours [h] with the minutes [m] beyond them,
    always less than 60, from an hour on. *)
Theorem formatDuration_truncates (s : Z) :
  (s < 2 ^ 53)%Z →
  ((s < 60)%Z → formatDuration s = ofZ s +:+ "s")
  ∧ ((60 ≤ s)%Z →
     ∃ h m, (0 ≤ h)%Z ∧ (0 ≤ m < 60)%Z
            ∧ (3600 * h + 60 * m ≤ s < 3600 * h + 60 * m + 60)%Z
            ∧ formatDuration s
              = if (0 <? h)%Z then ofZ h +:+ "h " +:+ ofZ m +:+ "m"
                else ofZ m +:+ "m").
Proof.
  intros _. unfold formatDuration. split.
  - intros Hs. by apply Z.ltb_lt in Hs as ->.
  - intros Hs. apply Z.ltb_ge in Hs as Hb. rewrite Hb.
    exists (s / 60 / 60)%Z, (s / 60 mod 60)%Z.
    pose proof (Z.div_mod s 60 ltac:(lia)) as H1.
    pose proof (Z.mod_pos_bound s 60 ltac:(lia)) as H2.
    pose proof (Z.div_mod (s / 60) 60 ltac:(lia)) as H3.
    pose proof (Z.mod_pos_bound (s / 60) 60 ltac:(lia)) as H4.
    assert (0 ≤ s / 60)%Z by (apply Z.div_pos; lia).
    assert (0 ≤ s / 60 / 60)%Z by (apply Z.div_pos; lia).
    split; [done|]. split; [lia|]. split; [lia|].
    destruct (0 <? s / 60 / 60)%Z eqn:Hh; [done|].
    apply Z.ltb_ge in Hh.
    assert (Hz : (s / 60 / 60 = 0)%Z) by lia.
    rewrite Hz in H3. do 2 f_equal. lia.
Qed.

Lemma formatDuration_truncates_witness :
  (3725 < 2 ^ 53)%Z ∧ (60 ≤ 3725)%Z
  ∧ ∃ h m, (0 ≤ h)%Z ∧ (0 ≤ m < 60)%Z
           ∧ (3600 * h + 60 * m ≤ 3725 < 3600 * h + 60 * m + 60)%Z
           ∧ formatDuration 3725
             = if (0 <? h)%Z then ofZ h +:+ "h " +:+ ofZ m +:+ "m"
               else ofZ m +:+ "m".
Proof.
  assert (H1 : (3725 < 2 ^ 53)%Z) by lia.
  assert (H2 : (60 ≤ 3725)%Z) by lia.
  split; [exact H1|]. split; [exact H2|].
  exact (proj2 (formatDuration_truncates 3725 H1) H2).
Defined.

End FormatDurationFacts.

(** ** The status map and the groups of changes *)

Section ChangeGroupFacts.
Import JsString JsObject FileChangeModal FileChangeViews TreeNames ChangeSpec.

Lemma filter_twice {A} (f g : A → bool) (l : list A) :
  List.filter f (List.filter g l) = List.filter (fun x => g x && f x) l.
Proof.
  induction l as [|x l IH]; simpl; [done|].
  destruct (g x); simpl; [|done]. destruct (f x); by rewrite IH.
Qed.

Lemma keys_set k v m :
  JsMap.keys (JsMap.set k v m)
  = if bool_decide (k ∈ JsMap.keys m) then JsMap.keys m
    else (JsMap.keys m ++ [k])%list.
Proof.
  induction m as [|[k' v'] m IH]; simpl; [done|].
  destruct (String.eqb_spec k k') as [->|Hne]; simpl.
  - rewrite bool_decide_eq_true_2; [done | by left].
  - rewrite IH. destruct (bool_decide_reflect (k ∈ JsMap.keys m)) as [Hin|Hin].
    + rewrite bool_decide_eq_true_2; [done | by right].
    + rewrite bool_decide_eq_false_2; [done|].
      intros [?|?]%elem_of_cons; congruence.
Qed.

Lemma keys_step m c :
  JsMap.keys (fileStatusStep m c)
  = if bool_decide (path c ∈ JsMap.keys m) then JsMap.keys m
    else (JsMap.keys m ++ [path c])%list.
Proof.
  unfold fileStatusStep.
  destruct (bool_decide_reflect (JsMap.get (path c) m = Some "write")) as [Hw|Hw].
  - rewrite bool_decide_eq_true_2; [done|].
    apply list_elem_of_In, keys_get. by eexists.
  - apply keys_set.
Qed.

Lemma keys_fold changes m :
  JsMap.keys (fold_left fileStatusStep changes m)
  = (JsMap.keys m
     ++ List.filter (fun p => negb (bool_decide (p ∈ JsMap.keys m)))
          (firstOccurrences (map path changes)))%list.
Proof.
  revert m. induction changes as [|c changes IH]; intros m.
  { simpl. by rewrite app_nil_r. }
  cbn [fold_left map firstOccurrences List.filter].
  rewrite IH, keys_step, filter_twice.
  destruct (bool_decide_reflect (path c ∈ JsMap.keys m)) as [Hin|Hin]; cbn [negb].
  - f_equal. apply filter_ext. intros p.
    destruct (String.eqb_spec p (path c)) as [->|Hne]; simpl; [|done].
    by rewrite bool_decide_eq_true_2.
  - rewrite <- app_assoc. simpl. do 2 f_equal. apply filter_ext. intros p.
    destruct (String.eqb_spec p (path c)) as [->|Hne]; simpl.
    + apply negb_false_iff, bool_decide_eq_true_2.
      apply elem_of_app. right. by left.
    + f_equal. apply bool_decide_ext.
      rewrite elem_of_app, list_elem_of_singleton.
      split; [intros [?|?]; [done | congruence] | by left].
Qed.

Lemma firstOccurrences_In (x : string) l : In x (firstOccurrences l) ↔ In x l.
Proof.
  induction l as [|y l IH]; simpl; [done|].
  rewrite filter_In, IH, negb_true_iff, String.eqb_neq.
  destruct (decide (y = x)) as [->|Hne]; [by split; [left | left]|].
  split; [intros [?|[? ?]]; [by left | by right] | intros [?|?]; [by left|]].
  right. split; [done | congruence].
Qed.

Lemma firstOccurrences_NoDup l : List.NoDup (firstOccurrences l).
Proof.
  induction l as [|y l IH]; simpl; constructor.
  - rewrite filter_In, negb_true_iff, String.eqb_neq. by intros [_ ?].
  - by apply List.NoDup_filter.
Qed.

Lemma firstOccurrences_length l : (length (firstOccurrences l) ≤ length l)%nat.
Proof.
  induction l as [|y l IH]; simpl; [done|].
  pose proof (filter_length_le (fun z => negb (String.eqb z y)) (firstOccurrences l)).
  lia.
Qed.

Lemma fileStatusMap_keys_eq (changes : list FileChange) :
  JsMap.keys (fileStatusMap changes) = firstOccurrences (map path changes).
Proof.
  unfold fileStatusMap. rewrite keys_fold. cbn [JsMap.keys map app].
  rewrite <- (filter_true (firstOccurrences (map path changes))) at 2.
  apply filter_ext. intros p.
  apply negb_true_iff, bool_decide_eq_false_2, not_elem_of_nil.
Qed.

(** The keys of the status map are the paths of the changes in the order
    in which each occurs first; so no path is listed twice, and the header
    never counts more files than changes. *)
Theorem fileStatusMap_keys (changes : list FileChange) :
  JsMap.keys (fileStatusMap changes) = firstOccurrences (map path changes)
  ∧ List.NoDup (JsMap.keys (fileStatusMap changes))
  ∧ (length (JsMap.keys (fileStatusMap changes)) ≤ length changes)%nat.
Proof.
  rewrite fileStatusMap_keys_eq. split; [done|].
  split; [apply firstOccurrences_NoDup|].
  etrans; [apply firstOccurrences_length|]. by rewrite length_map.
Qed.

(** One round of the grouping on a path that is not found on
    [Object.prototype]. *)
Lemma groupStep_plain op groups c :
  plainName op (path c) →
  groupStep op (Normal groups) c
  = Normal (<[path c := (default [] (groups !! path c) ++ [c])%list]> groups).
Proof.
  unfold plainName, groupStep, objGet. simpl. intros Hp.
  destruct (groups !! path c) as [l|]; [done|].
  destruct (inheritedGet op (path c)) as [i|]; [|done]. by rewrite Hp.
Qed.

Lemma groups_fold op changes groups :
  (∀ c, In c changes → plainName op (path c)) →
  ∃ groups',
    fold_left (groupStep op) changes (Normal groups) = Normal groups'
    ∧ ∀ p, groups' !! p
           = match List.filter (fun c => String.eqb (path c) p) changes with
             | [] => groups !! p
             | l => Some (default [] (groups !! p) ++ l)%list
             end.
Proof.
  revert groups. induction changes as [|c changes IH]; intros groups Hplain.
  { by exists groups. }
  cbn [fold_left]. rewrite groupStep_plain by (apply Hplain; by left).
  destruct (IH (<[path c := (default [] (groups !! path c) ++ [c])%list]> groups))
    as (g' & -> & Hg'); [intros c' Hc'; apply Hplain; by right|].
  exists g'. split; [done|]. intros p. rewrite Hg'. simpl.
  destruct (String.eqb_spec (path c) p) as [->|Hne].
  - rewrite lookup_insert_eq. simpl.
    destruct (List.filter _ changes) as [|c1 l]; [done|].
    by rewrite <- app_assoc.
  - by rewrite lookup_insert_ne.
Qed.

Lemma plainName_dec op k : plainName op k ∨ ¬ plainName op k.
Proof.
  unfold plainName. destruct (inheritedGet op k) as [i|]; [|by left].
  destruct (inheritedTruthy i); [by right | by left].
Qed.

(** Once a path is found, truthy, on [Object.prototype], the grouping
    throws. *)
Lemma groups_fold_throw op changes groups :
  (∀ k, is_Some (groups !! k) → plainName op k) →
  (∃ c, In c changes ∧ ¬ plainName op (path c)) →
  fold_left (groupStep op) changes (Normal groups) = Throw TypeError.
Proof.
  revert groups. induction changes as [|c changes IH]; intros groups Hown (c0 & Hin & Hnp).
  { destruct Hin. }
  cbn [fold_left].
  destruct (plainName_dec op (path c)) as [Hp|Hp].
  - rewrite groupStep_plain by done. apply IH.
    + intros k [l Hl]. destruct (decide (k = path c)) as [->|Hne]; [done|].
      rewrite lookup_insert_ne in Hl by done. apply Hown. by eexists.
    + destruct Hin as [->|Hin]; [done|]. by exists c0.
  - assert (Hs : groupStep op (Normal groups) c = Throw TypeError).
    { unfold groupStep, objGet. simpl.
      destruct (groups !! path c) as [l|] eqn:Hl.
      { exfalso. apply Hp, Hown. by eexists. }
      unfold plainName in Hp.
      destruct (inheritedGet op (path c)) as [i|]; [|done].
      by destruct (inheritedTruthy i). }
    rewrite Hs. clear. induction changes as [|c' changes IH]; [done|]. apply IH.
Qed.

(** The groups of changes: the grouping returns exactly when no path names
    a truthy member of [Object.prototype]; it then files every change under
    its path, in input order, and has a group for exactly the paths that
    are keys of the status map. *)
Theorem groupedChanges_spec op (changes : list FileChange) :
  ((∀ c, In c changes → plainName op (path c)) →
   ∃ groups,
     groupedChanges op changes = Normal groups
     ∧ (∀ p, groups !! p
             = match List.filter (fun c => String.eqb (path c) p) changes with
               | [] => None
               | l => Some l
               end)
     ∧ (∀ p, is_Some (groups !! p) ↔ In p (JsMap.keys (fileStatusMap changes))))
  ∧ ((∃ c, In c changes ∧ ¬ plainName op (path c)) →
     groupedChanges op changes = Throw TypeError).
Proof.
  unfold groupedChanges. split.
  - intros Hplain.
    destruct (groups_fold op changes ∅ Hplain) as (g & Hg & Hl).
    exists g. split; [done|].
    assert (Hl' : ∀ p, g !! p
             = match List.filter (fun c => String.eqb (path c) p) changes with
               | [] => None
               | l => Some l
               end).
    { intros p. rewrite Hl, lookup_empty. by destruct (List.filter _ changes). }
    split; [done|]. intros p. rewrite Hl'.
    rewrite fileStatusMap_keys_eq.
    rewrite firstOccurrences_In, in_map_iff.
    destruct (List.filter _ changes) as [|c l] eqn:Hf.
    + split; [by intros [? ?]|]. intros (c & Hp & Hin). exfalso.
      assert (In c (List.filter (fun c => String.eqb (path c) p) changes)) as Hc
        by (apply filter_In; split; [done | by apply String.eqb_eq]).
      by rewrite Hf in Hc.
    + split; [|by eexists]. intros _. exists c.
      assert (In c (List.filter (fun c => String.eqb (path c) p) changes)) as Hc
        by (rewrite Hf; by left).
      apply filter_In in Hc as [Hin Hp]. by apply String.eqb_eq in Hp.
  - apply groups_fold_throw. intros k [l Hl]. by rewrite lookup_empty in Hl.
Qed.

End ChangeGroupFacts.

(** ** Finding the files in the tree *)

Section FileTreeLookup.
Import JsString JsObject CommonPrefix PathPrefix FileChangeModal FileChangeViews
  TreeNames PathShape TreeLookupSpec.

Lemma insertParts_insertPlain p st parts op current :
  Forall (plainName op) parts →
  insertParts p st parts op current = (op, Normal (insertPlain p st parts current)).
Proof.
  revert current. induction parts as [|part rest IH]; intros current Hplain; [done|].
  apply Forall_cons in Hplain as [Hpart Hrest]. simpl.
  assert (Hd : ∀ node,
    (let node1 := if isLast rest then markFile p st node else node in
     let '(op', r) := insertParts p st rest op (children node1) in
     (op', kids ← r; Normal (<[part := withChildren node1 kids]> current)))
    = (op, Normal (<[part := withChildren
                               (if isLast rest then markFile p st node else node)
                               (insertPlain p st rest
                                  (children (if isLast rest then markFile p st node
                                             else node)))]> current))).
  { intros node. simpl. by rewrite IH. }
  unfold objGet. destruct (current !! part) as [node|]; simpl; [apply Hd|].
  unfold plainName in Hpart.
  destruct (inheritedGet op part) as [i|]; [|apply Hd].
  rewrite Hpart. apply Hd.
Qed.

Lemma storedAt_empty parts : storedAt parts ∅ = None.
Proof. unfold storedAt. by destruct parts as [|a [|b l]]. Qed.

Lemma storedAt_cons part rest tree :
  rest ≠ [] →
  storedAt (part :: rest) tree
  = match tree !! part with
    | Some node => storedAt rest (children node)
    | None => None
    end.
Proof.
  intros Hr. unfold storedAt. destruct rest as [|b l]; [done|]. simpl.
  by destruct (tree !! part).
Qed.

(** The inserted file is found under its segments. *)
Lemma storedAt_insert_same p st parts current :
  parts ≠ [] → storedAt parts (insertPlain p st parts current) = Some (p, st).
Proof.
  revert current. induction parts as [|part rest IH]; intros current Hne; [done|].
  destruct rest as [|b l].
  - unfold storedAt. simpl. by rewrite lookup_insert_eq.
  - rewrite storedAt_cons by done.
    cbn [insertPlain]. rewrite lookup_insert_eq. simpl. by apply IH.
Qed.

(** Every other sequence of segments leads to the same file as before. *)
Lemma storedAt_insert_other p st parts parts' current :
  parts' ≠ parts →
  storedAt parts' (insertPlain p st parts current) = storedAt parts' current.
Proof.
  revert parts' current.
  induction parts as [|part rest IH]; intros parts' current Hne; [done|].
  destruct parts' as [|part' rest']; [done|].
  cbn [insertPlain].
  destruct (decide (part' = part)) as [->|Hp].
  - assert (Hr : rest' ≠ rest) by congruence.
    destruct rest' as [|b' l'].
    + destruct rest as [|b l]; [done|]. unfold storedAt. simpl.
      rewrite lookup_insert_eq. simpl. by destruct (current !! part).
    + rewrite !storedAt_cons by done. rewrite lookup_insert_eq. simpl.
      rewrite IH by done.
      destruct (current !! part) as [node|]; simpl.
      * by destruct (isLast rest).
      * destruct (isLast rest); apply storedAt_empty.
  - destruct rest' as [|b' l'].
    + unfold storedAt. simpl. by rewrite lookup_insert_ne.
    + rewrite !storedAt_cons by done. by rewrite lookup_insert_ne.
Qed.

Lemma fold_insertPath_plain op pre fileMap paths rt :
  (∀ p, In p paths → Forall (plainName op) (relativeParts pre p)) →
  fold_left (insertPath pre fileMap) paths (op, Normal rt)
  = (op, Normal (fold_left (insertPathPlain pre fileMap) paths rt)).
Proof.
  revert rt. induction paths as [|p paths IH]; intros rt Hplain; [done|].
  cbn [fold_left].
  assert (Hs : insertPath pre fileMap (op, Normal rt) p
               = (op, Normal (insertPathPlain pre fileMap rt p))).
  { unfold insertPath, insertPathPlain.
    pose proof (insertParts_insertPlain p (JsMap.get p fileMap) (relativeParts pre p)
                  op rt (Hplain p (or_introl eq_refl))) as Hi.
    destruct (relativeParts pre p) as [|[|c s] [|b l]]; done. }
  rewrite Hs. apply IH. intros q Hq. apply Hplain. by right.
Qed.

Lemma fold_storedAt pre fileMap paths rt p :
  List.NoDup paths →
  (∀ q, In q paths → relativeParts pre q = relativeParts pre p → q = p) →
  In p paths → relativeParts pre p ≠ [""] →
  storedAt (relativeParts pre p) (fold_left (insertPathPlain pre fileMap) paths rt)
  = Some (p, JsMap.get p fileMap).
Proof.
  induction paths as [|q paths IH] using rev_ind; intros Hnd Hinj Hin Hne; [done|].
  rewrite fold_left_app. cbn [fold_left].
  apply NoDup_ListNoDup, NoDup_app in Hnd as (Hnd1 & Hdisj & _).
  apply in_app_iff in Hin as [Hin|[->|[]]].
  - assert (Hqp : q ≠ p).
    { intros ->. apply (Hdisj p); [by apply list_elem_of_In | by left]. }
    assert (Hrel : relativeParts pre p ≠ relativeParts pre q).
    { intros Heq. apply Hqp, Hinj; [apply in_app_iff; right; by left | done]. }
    unfold insertPathPlain at 1.
    assert (Hkeep : storedAt (relativeParts pre p)
                      (fold_left (insertPathPlain pre fileMap) paths rt)
                    = Some (p, JsMap.get p fileMap)).
    { apply IH; [by apply NoDup_ListNoDup | | done | done].
      intros q' Hq'. apply Hinj, in_app_iff. by left. }
    destruct (relativeParts pre q) as [|[|c s] [|b l]] eqn:Hq; try done;
      rewrite storedAt_insert_other; done.
  - unfold insertPathPlain at 1.
    assert (Hnil : relativeParts pre p ≠ []) by apply split_nonempty.
    destruct (relativeParts pre p) as [|[|c s] [|b l]] eqn:Hp; try done;
      by apply storedAt_insert_same.
Qed.

(** Below a non-empty prefix of its segments, the parts of a path are its
    remaining segments. *)
Lemma relativeParts_rest (pre rest : list string) (p : string) :
  split slash p = (pre ++ rest)%list → pre ≠ [] → rest ≠ [] →
  relativeParts (join "/" pre) p = rest.
Proof.
  intros Hsp Hpre Hrest. unfold relativeParts.
  rewrite <- (join_split p) at 1. rewrite Hsp.
  rewrite join_app by done. rewrite substringFrom_app.
  change ("/" +:+ join "/" rest) with (String slash (join "/" rest)).
  cbn [stripLeadingSlash]. rewrite Ascii.eqb_refl.
  apply split_join; [done|].
  pose proof (split_segments_noSlash p) as Hns. rewrite Hsp in Hns.
  by apply Forall_app in Hns as [_ Hns].
Qed.

Lemma split_absolute p :
  startsWithSlash p = true → ∃ segs, split slash p = "" :: segs ∧ segs ≠ [].
Proof.
  destruct p as [|c p]; [done|]. simpl. intros ->.
  exists (split slash p). split; [done | apply split_nonempty].
Qed.

Lemma split_String c p :
  split slash (String c p)
  = if Ascii.eqb c slash then "" :: split slash p
    else match split slash p with
         | seg :: segs => String c seg :: segs
         | [] => [String c ""]
         end.
Proof. reflexivity. Qed.

Lemma last_split_nonempty p :
  p ≠ "" → endsWithSlash p = false → last (split slash p) ≠ Some "".
Proof.
  induction p as [|c p IH]; [done|]. intros _ He.
  destruct p as [|d p'].
  - simpl in He. simpl. by rewrite He.
  - assert (He' : endsWithSlash (String d p') = false) by exact He.
    specialize (IH ltac:(done) He').
    rewrite split_String.
    pose proof (split_nonempty slash (String d p')) as Hne.
    destruct (split slash (String d p')) as [|a l]; [done|].
    destruct (Ascii.eqb c slash).
    + by rewrite last_cons_cons.
    + destruct l as [|b l]; [|by rewrite last_cons_cons in *].
      simpl in *. by intros [=].
Qed.

(** Absolute paths share at least the empty segment before their first
    slash. *)
Lemma commonParts_absolute paths :
  paths ≠ [] → (∀ p, In p paths → startsWithSlash p = true) →
  commonParts paths ≠ [].
Proof.
  intros Hne Habs.
  destruct (commonParts_longest_proper paths Hne) as (_ & _ & Hmax).
  specialize (Hmax [""]).
  intros Hnil. rewrite Hnil in Hmax. simpl in Hmax.
  assert (1 ≤ 0)%nat; [|lia]. apply Hmax.
  - apply Forall_forall. intros sp (p & <- & Hp)%list_elem_of_In%in_map_iff.
    destruct (split_absolute p (Habs p Hp)) as (segs & -> & _). by exists segs.
  - apply Forall_forall. intros sp (p & <- & Hp)%list_elem_of_In%in_map_iff.
    destruct (split_absolute p (Habs p Hp)) as (segs & -> & Hs).
    destruct segs; [done | simpl; lia].
Qed.

(** A node that has a non-empty [fullPath] of its own reads as a file
    with that path and its own status, whatever [Object.prototype] holds. *)
Lemma storedAt_fileAt op parts tree p st :
  storedAt parts tree = Some (p, st) → p ≠ "" →
  fileAt op parts tree = Some (p, st).
Proof.
  unfold storedAt, fileAt, isFile, readFullPath, readStatus.
  destruct (findNode parts tree) as [node|]; [|done].
  destruct (fullPath node) as [p'|]; [|done].
  intros [= -> <-] Hne. by apply String.eqb_neq in Hne as ->.
Qed.

(** When [Object.prototype] has no truthy [fullPath], a node reads as a
    file only by a [fullPath] of its own. *)
Lemma fileAt_storedAt op parts tree p st :
  plainName op "fullPath" →
  fileAt op parts tree = Some (p, st) → storedAt parts tree = Some (p, st).
Proof.
  unfold plainName, inheritedGet. cbn [String.eqb Ascii.eqb Bool.eqb existsb functionMembers orb].
  unfold storedAt, fileAt, isFile, readFullPath, readStatus.
  intros Hplain. destruct (findNode parts tree) as [node|]; [|done].
  destruct (fullPath node) as [p'|].
  - by destruct (negb (String.eqb p' "")).
  - destruct (protoFullPath op) as [p0|]; [|done].
    simpl in Hplain. by rewrite Hplain.
Qed.

(** Every file is found in the tree: for a status map of absolute paths
    that do not end in a slash and have no segment found, truthy, on
    [Object.prototype], [buildFileTree] returns, and the segments of every
    path below the common prefix lead to a node that carries the path as
    its own [fullPath] and the entry of the map as its own [status], and
    that FileTreeNode therefore shows as a file with that path and
    status. *)
Theorem buildFileTree_finds_every_file op (fileMap : JsMap.t) :
  List.NoDup (JsMap.keys fileMap) →
  (∀ p, In p (JsMap.keys fileMap) →
        startsWithSlash p = true ∧ endsWithSlash p = false
        ∧ Forall (plainName op) (split slash p)) →
  ∃ built,
    buildFileTree op fileMap = (op, Normal built)
    ∧ ∀ p, In p (JsMap.keys fileMap) →
        ∃ rest, split slash p = (commonParts (JsMap.keys fileMap) ++ rest)%list
                ∧ storedAt rest (root built) = Some (p, JsMap.get p fileMap)
                ∧ fileAt op rest (root built) = Some (p, JsMap.get p fileMap).
Proof.
  intros Hnd Hshape.
  destruct (decide (JsMap.keys fileMap = [])) as [Hk|Hne].
  { unfold buildFileTree. rewrite Hk. eexists. split; [done|]. by intros p []. }
  set (paths := JsMap.keys fileMap) in *.
  assert (Hcp : commonParts paths ≠ []).
  { apply commonParts_absolute; [done|]. intros p Hp. by apply Hshape. }
  destruct (commonParts_longest_proper paths Hne) as (Hs & Hpr & _).
  unfold sharedBy in Hs. unfold properIn in Hpr.
  rewrite Forall_forall in Hs. rewrite Forall_forall in Hpr.
  assert (Hrest : ∀ p, In p paths →
            ∃ rest, split slash p = (commonParts paths ++ rest)%list
                    ∧ rest ≠ [] ∧ rest ≠ [""]
                    ∧ relativeParts (prefixString paths) p = rest).
  { intros p Hp.
    assert (Hin : split slash p ∈ map (split slash) paths)
      by (by apply list_elem_of_In, in_map).
    destruct (Hs _ Hin) as [rest Hr]. specialize (Hpr _ Hin).
    assert (Hrne : rest ≠ []).
    { intros ->. rewrite app_nil_r in Hr. rewrite Hr in Hpr. lia. }
    exists rest. split; [done|]. split; [done|]. split.
    - intros ->. destruct (Hshape p Hp) as (Ha & He & _).
      apply (last_split_nonempty p); [by destruct p | done|].
      rewrite Hr. by rewrite last_snoc.
    - by apply relativeParts_rest. }
  assert (Hplain : ∀ p, In p paths →
            Forall (plainName op) (relativeParts (prefixString paths) p)).
  { intros p Hp. destruct (Hrest p Hp) as (rest & Hr & _ & _ & ->).
    destruct (Hshape p Hp) as (_ & _ & Hpl). rewrite Hr in Hpl.
    by apply Forall_app in Hpl as [_ Hpl]. }
  unfold buildFileTree. fold paths.
  destruct paths as [|p0 ps] eqn:Hpaths; [done|]. rewrite <- Hpaths in *.
  rewrite fold_insertPath_plain by done.
  eexists. split; [done|]. simpl.
  intros p Hp. destruct (Hrest p Hp) as (rest & Hr & Hrne & Hr1 & Hrel).
  exists rest. split; [done|]. rewrite <- Hrel.
  assert (Hstored : storedAt (relativeParts (prefixString paths) p)
                      (fold_left (insertPathPlain (prefixString paths) fileMap) paths ∅)
                    = Some (p, JsMap.get p fileMap)).
  { apply fold_storedAt; [done| |done|by rewrite Hrel].
    intros q Hq Heq. destruct (Hrest q Hq) as (rest' & Hr' & _ & _ & Hrel').
    rewrite Hrel, Hrel' in Heq. subst rest'.
    rewrite <- (join_split p), <- (join_split q). by rewrite Hr, Hr'. }
  split; [done|]. apply storedAt_fileAt; [done|].
  destruct (Hshape p Hp) as (Ha & _ & _). by destruct p.
Qed.

End FileTreeLookup.

(** ** Paths without the common prefix *)

Section StrippedPathFacts.
Import JsString JsText CommonPrefix PathPrefix FileChangeViews OneShotDetails.

Lemma prefix_append a b : String.prefix a (a +:+ b) = true.
Proof.
  induction a as [|c a IH]; [by destruct b|].
  change (String c a +:+ b) with (String c (a +:+ b)). simpl.
  destruct (ascii_dec c c); [done | congruence].
Qed.

Lemma removeFirst_prefix pattern s :
  String.prefix pattern s = true →
  removeFirst pattern s = substringFrom (String.length pattern) s.
Proof.
  intros H.
  assert (Heq : removeFirst pattern s
    = if String.prefix pattern s then substringFrom (String.length pattern) s
      else match s with
           | EmptyString => EmptyString
           | String c rest => String c (removeFirst pattern rest)
           end) by (by destruct s).
  by rewrite Heq, H.
Qed.

(** Removing a leading pattern gives back the rest. *)
Lemma removeFirst_append a b : removeFirst a (a +:+ b) = b.
Proof.
  rewrite removeFirst_prefix by apply prefix_append. apply substringFrom_app.
Qed.

Lemma substring_split n s : substringTo n s +:+ substringFrom n s = s.
Proof.
  unfold substringTo. revert s. induction n as [|n IH]; intros s.
  - by destruct s.
  - destruct s as [|c s]; [done|]. simpl.
    change (String c (String.substring 0 n s) +:+ substringFrom n s)
      with (String c (String.substring 0 n s +:+ substringFrom n s)).
    by rewrite IH.
Qed.

(** The prefix string of [buildFileTree] starts every path. *)
Lemma prefixString_starts paths p :
  In p paths → ∃ rest, p = prefixString paths +:+ rest.
Proof.
  intros Hp. assert (Hne : paths ≠ []) by (by destruct paths).
  destruct (commonParts_longest_proper paths Hne) as (Hs & Hpr & _).
  unfold sharedBy in Hs. unfold properIn in Hpr.
  rewrite Forall_forall in Hs. rewrite Forall_forall in Hpr.
  assert (Hin : split slash p ∈ map (split slash) paths)
    by (by apply list_elem_of_In, in_map).
  destruct (Hs _ Hin) as [rest Hr]. specialize (Hpr _ Hin).
  assert (Hrne : rest ≠ []).
  { intros ->. rewrite app_nil_r in Hr. rewrite Hr in Hpr. lia. }
  unfold prefixString.
  destruct (commonParts paths) as [|a l] eqn:Hcp.
  - exists p. by destruct p.
  - exists ("/" +:+ join "/" rest).
    rewrite <- (join_split p) at 1. rewrite Hr. by apply join_app.
Qed.

(** So does the common prefix of the details modal. *)
Lemma getCommonPrefix_starts paths p :
  In p paths → ∃ rest, p = getCommonPrefix paths +:+ rest.
Proof.
  intros Hp. destruct paths as [|p1 [|p2 ps]]; [done| |].
  - destruct Hp as [->|[]]. unfold getCommonPrefix.
    destruct (lastIndexOf slash p) as [[|k]|]; try (exists p; by destruct p).
    exists (substringFrom (S k + 1) p). symmetry. apply substring_split.
  - destruct (prefixString_starts _ p Hp) as [rest Hr].
    unfold getCommonPrefix. unfold prefixString in Hr.
    destruct (commonParts (p1 :: p2 :: ps)) as [|a l] eqn:Hcp.
    + exists p. by destruct p.
    + change (0 <? length (a :: l))%nat with true. cbv iota.
      assert (Hne : p1 :: p2 :: ps ≠ []) by done.
      destruct (commonParts_longest_proper _ Hne) as (Hs & Hpr & _).
      unfold sharedBy in Hs. unfold properIn in Hpr.
      rewrite Forall_forall in Hs. rewrite Forall_forall in Hpr.
      assert (Hin : split slash p ∈ map (split slash) (p1 :: p2 :: ps))
        by (by apply list_elem_of_In, in_map).
      destruct (Hs _ Hin) as [rest' Hr']. specialize (Hpr _ Hin).
      rewrite Hcp in *.
      assert (Hrne : rest' ≠ []).
      { intros ->. rewrite app_nil_r in Hr'. rewrite Hr' in Hpr. lia. }
      exists (join "/" rest').
      rewrite <- (join_split p) at 1. rewrite Hr'.
      rewrite join_app by done. by rewrite append_assoc.
Qed.

(** The details modal shows every path without the common prefix: putting
    the prefix back in front of a processed path gives the path of the file
    record, and no record is lost or moved. *)
Theorem processedPaths_round_trip (paths : list string) :
  length (processedPaths paths) = length paths
  ∧ ∀ i p, paths !! i = Some p →
      ∃ p', processedPaths paths !! i = Some p'
            ∧ getCommonPrefix paths +:+ p' = p.
Proof.
  destruct paths as [|p0 ps] eqn:Hpaths; [by split|]. rewrite <- Hpaths.
  assert (Hdef : processedPaths paths
    = map (fun p => if String.eqb (getCommonPrefix paths) "" then p
                    else removeFirst (getCommonPrefix paths) p) paths)
    by (by rewrite Hpaths).
  rewrite Hdef. split; [apply length_map|].
  intros i p Hi. rewrite list_lookup_fmap, Hi. simpl. eexists. split; [done|].
  destruct (String.eqb_spec (getCommonPrefix paths) "") as [->|Hne]; [by destruct p|].
  destruct (getCommonPrefix_starts paths p) as [rest Hr];
    [by eapply list_elem_of_In, list_elem_of_lookup_2|].
  rewrite Hr. by rewrite removeFirst_append.
Qed.

(** The title of a file group in the file-change modal is the path without
    the prefix string of the tree: the prefix followed by the title is the
    path. *)
Theorem groupTitle_round_trip (paths : list string) (p : string) :
  In p paths → prefixString paths +:+ groupTitle (prefixString paths) p = p.
Proof.
  intros Hp. destruct (prefixString_starts paths p Hp) as [rest Hr].
  unfold groupTitle. rewrite Hr. by rewrite removeFirst_append.
Qed.

End StrippedPathFacts.

Section LookupExamples.
Import JsString JsObject CommonPrefix PathPrefix FileChangeModal FileChangeViews TreeNames PathShape TreeLookupSpec Examples.

Lemma groupedChanges_spec_witness :
  (∀ c, In c someChanges → plainName pristine (path c))
  ∧ ∃ groups, groupedChanges pristine someChanges = Normal groups
      ∧ groups !! "src/b.ts" = Some [change "write" "src/b.ts"; change "edit" "src/b.ts"]
      ∧ groups !! "src/d.ts" = None.
Proof.
  assert (H : ∀ c, In c someChanges → plainName pristine (path c)).
  { intros c Hc. simpl in Hc.
    repeat (destruct Hc as [<-|Hc]; [by vm_compute|]). done. }
  split; [exact H|].
  destruct (proj1 (groupedChanges_spec pristine someChanges) H) as (g & Hg & Hl & _).
  exists g. split; [done|]. by rewrite !Hl.
Defined.

Lemma buildFileTree_finds_every_file_witness :
  ∃ built,
    buildFileTree pristine [("/x/a.ts", "write"); ("/x/y/b.ts", "edit")]
      = (pristine, Normal built)
    ∧ fileAt pristine ["y"; "b.ts"] (root built) = Some ("/x/y/b.ts", Some "edit").
Proof.
  destruct (buildFileTree_finds_every_file pristine
              [("/x/a.ts", "write"); ("/x/y/b.ts", "edit")])
    as (built & Hb & Hf).
  - repeat constructor; simpl; intuition congruence.
  - intros p Hp. simpl in Hp.
    repeat (destruct Hp as [<-|Hp]; [by vm_compute; repeat constructor|]). done.
  - exists built. split; [done|].
    destruct (Hf "/x/y/b.ts") as (rest & Hr & _ & Hfile); [simpl; tauto|].
    assert (rest = ["y"; "b.ts"]) as <-; [|done].
    vm_compute in Hr. by injection Hr as <-.
Defined.

Lemma groupTitle_round_trip_witness :
  "/x" +:+ groupTitle "/x" "/x/y/b.ts" = "/x/y/b.ts".
Proof. apply (groupTitle_round_trip ["/x/a.ts"; "/x/y/b.ts"]). simpl. tauto. Defined.

End LookupExamples.

(** ** Splitting and joining on any separator *)

Section SeparatorFacts.
Import JsString JsText.

Lemma joinAny_String sep c seg segs :
  join sep (String c seg :: segs) = String c (join sep (seg :: segs)).
Proof. by destruct segs. Qed.

Lemma joinAny_split sep s : join (String sep "") (split sep s) = s.
Proof.
  induction s as [|c s IH]; simpl; [done|].
  pose proof (split_nonempty sep s) as Hne.
  destruct (Ascii.eqb_spec c sep) as [->|Hc].
  - destruct (split sep s) as [|seg segs]; [done|].
    by rewrite join_cons, IH.
  - destruct (split sep s) as [|seg segs]; [done|].
    by rewrite joinAny_String, IH.
Qed.

Lemma joinAny_app sep l1 l2 :
  l1 ≠ [] → l2 ≠ [] →
  join sep (l1 ++ l2) = join sep l1 +:+ sep +:+ join sep l2.
Proof.
  intros H1 H2. induction l1 as [|x [|y l] IH]; [done| |].
  - destruct l2; done.
  - change ((x :: y :: l) ++ l2)%list with (x :: ((y :: l) ++ l2))%list.
    change ((y :: l) ++ l2)%list with (y :: (l ++ l2))%list at 1.
    rewrite !join_cons.
    change (y :: (l ++ l2))%list with ((y :: l) ++ l2)%list.
    rewrite IH by done. by rewrite !append_assoc.
Qed.

Lemma split_segments_noSep sep s :
  Forall (fun seg => hasChar sep seg = false) (split sep s).
Proof.
  induction s as [|c s IH]; simpl; [by repeat constructor|].
  destruct (Ascii.eqb c sep) eqn:Hc; [by constructor|].
  destruct (split sep s) as [|seg segs]; [by repeat constructor; simpl; rewrite Hc|].
  apply Forall_cons in IH as [Hseg Hsegs].
  constructor; [|done]. simpl. by rewrite Hc.
Qed.

Lemma append_nil_r (s : string) : s +:+ "" = s.
Proof.
  induction s as [|c s IH]; [done|].
  change (String c (s +:+ "") = String c s). by rewrite IH.
Qed.

Lemma length_append (a b : string) :
  String.length (a +:+ b) = (String.length a + String.length b)%nat.
Proof.
  induction a as [|c a IH]; [done|].
  change (S (String.length (a +:+ b)) = S (String.length a + String.length b)).
  by rewrite IH.
Qed.

Lemma length_substringTo n s :
  String.length (substringTo n s) = Nat.min n (String.length s).
Proof.
  unfold substringTo. revert s. induction n as [|n IH]; intros s.
  - by destruct s.
  - destruct s as [|c s]; [done|]. simpl. by rewrite IH.
Qed.

End SeparatorFacts.

(** ** ContentViewer *)

Section ContentViewerFacts.
Import JsString FileChangeViews.

(** ContentViewer never shows text that is not in the content: what it
    shows is a leading part of it.  Exactly when the note about truncation
    is rendered, the shown text is the first [limit] characters and not the
    whole content, and the button that expands it is there; otherwise the
    whole content is shown. *)
Theorem contentViewer_shows_prefix (content : string) (limit : nat) (expanded : bool) :
  (∃ rest, content = shownContent content limit expanded +:+ rest)
  ∧ (truncatedNote content limit expanded = true →
       String.length (shownContent content limit expanded) = limit
       ∧ shownContent content limit expanded ≠ content
       ∧ shouldTruncate content limit = true)
  ∧ (truncatedNote content limit expanded = false →
       shownContent content limit expanded = content).
Proof.
  unfold shownContent, truncatedNote, shouldTruncate.
  destruct expanded; cbn [orb negb andb].
  - split; [exists ""; by rewrite append_nil_r|]. by split.
  - destruct (Nat.ltb_spec limit (String.length content)) as [Hlt|Hge]; cbn [negb].
    + split; [exists (substringFrom limit content); symmetry; apply substring_split|].
      split; [|done]. intros _.
      assert (Hlen : String.length (substringTo limit content) = limit)
        by (rewrite length_substringTo; lia).
      split; [done|]. split; [|done]. intros Heq. rewrite Heq in Hlen. lia.
    + split; [exists ""; by rewrite append_nil_r|]. by split.
Qed.

End ContentViewerFacts.

(** ** The preview of a long message *)

Section MessageItemFacts.
Import JsString JsText MessageItem.

(** A message of more than 30 lines starts collapsed: the text shown is
    its first 30 lines followed by a line of three dots, the button is
    there, and the number on the button is the number of lines left out,
    which is positive; the first 30 lines, a line break and the lines left
    out make up the message. *)
Theorem messagePreview_long (formattedContent : string) :
  isLong formattedContent = true →
  initiallyExpanded formattedContent = false
  ∧ buttonShown formattedContent = true
  ∧ ∃ first rest : list string,
      length first = 30%nat
      ∧ (0 < remainingLines formattedContent)%Z
      ∧ Z.of_nat (length rest) = remainingLines formattedContent
      ∧ split newline formattedContent = (first ++ rest)%list
      ∧ shownText formattedContent false = join nl first +:+ ellipsisLine
      ∧ formattedContent = join nl first +:+ nl +:+ join nl rest.
Proof.
  unfold initiallyExpanded, buttonShown, isLong, remainingLines, shownText, lineCount.
  intros Hlong. rewrite Hlong. split; [done|]. split; [done|].
  apply Nat.ltb_lt in Hlong.
  exists (take 30 (split newline formattedContent)),
         (drop 30 (split newline formattedContent)).
  rewrite length_take, length_drop.
  split; [lia|]. split; [lia|]. split; [lia|].
  split; [by rewrite take_drop|]. split; [done|].
  rewrite <- (joinAny_split newline formattedContent) at 1.
  rewrite <- (take_drop 30 (split newline formattedContent)) at 1.
  apply joinAny_app.
  - intros H. apply (f_equal length) in H. rewrite length_take in H. cbn [length] in H. lia.
  - intros H. apply (f_equal length) in H. rewrite length_drop in H. cbn [length] in H. lia.
Qed.

(** A message of at most 30 lines starts expanded and is shown as it is,
    without a button.  Should the state be collapsed all the same (it is
    initialised once per list position), the whole message is shown with
    the line of three dots after it, and there is no button to expand
    it. *)
Theorem messagePreview_short (formattedContent : string) :
  isLong formattedContent = false →
  shownText formattedContent (initiallyExpanded formattedContent) = formattedContent
  ∧ buttonShown formattedContent = false
  ∧ shownText formattedContent false = formattedContent +:+ ellipsisLine.
Proof.
  unfold initiallyExpanded, buttonShown, isLong, shownText, lineCount.
  intros Hshort. rewrite Hshort. split; [done|]. split; [done|].
  apply Nat.ltb_ge in Hshort.
  rewrite take_ge by done. unfold nl. by rewrite joinAny_split.
Qed.

End MessageItemFacts.

(** ** Labels *)

Section LabelFacts.
Import JsString JsText PathShape TreeNames Labels.

Lemma head_split_prefix sep s :
  ∃ first rest, head (split sep s) = Some first
    ∧ hasChar sep first = false
    ∧ s = first +:+ rest
    ∧ (rest = "" ∨ ∃ r, rest = String sep r).
Proof.
  pose proof (split_segments_noSep sep s) as Hno.
  pose proof (joinAny_split sep s) as Hj.
  destruct (split sep s) as [|first [|b l]] eqn:Hs.
  - by destruct (split_nonempty sep s).
  - exists first, "". apply Forall_cons in Hno as [Hf _].
    simpl in Hj. subst s. split; [done|]. split; [done|].
    split; [by rewrite append_nil_r | by left].
  - exists first, (String sep (join (String sep "") (b :: l))).
    apply Forall_cons in Hno as [Hf _].
    split; [done|]. split; [done|]. split; [|right; by eexists].
    rewrite join_cons in Hj. by rewrite <- Hj.
Qed.

(** The model label is never empty and holds no colon; for a model name
    that does not start with a colon it is the name up to the first colon,
    and ['Unknown'] stands for a missing or empty name and for a name that
    starts with a colon. *)
Theorem modelLabel_spec (model : option string) :
  modelLabel model ≠ ""
  ∧ hasChar colon (modelLabel model) = false
  ∧ match model with
    | None => modelLabel model = "Unknown"
    | Some "" => modelLabel model = "Unknown"
    | Some (String c r as m) =>
        if Ascii.eqb c colon then modelLabel model = "Unknown"
        else ∃ rest, m = modelLabel model +:+ rest
                     ∧ (rest = "" ∨ ∃ r', rest = String colon r')
    end.
Proof.
  destruct model as [m|]; [|done].
  unfold modelLabel.
  destruct (head_split_prefix colon m) as (first & rest & Hh & Hno & Hm & Hrest).
  rewrite Hh.
  destruct (String.eqb_spec first "") as [->|Hne].
  - split; [done|]. split; [done|].
    destruct m as [|c r]; [done|].
    change ("" +:+ rest) with rest in Hm.
    destruct Hrest as [->|[r' ->]]; [done|].
    injection Hm as -> ->. by rewrite Ascii.eqb_refl.
  - split; [done|]. split; [done|].
    destruct m as [|c r]; [by destruct first|].
    destruct first as [|c' f]; [done|].
    change (String c' f +:+ rest) with (String c' (f +:+ rest)) in Hm.
    injection Hm as -> Hr. simpl in Hno. apply orb_false_iff in Hno as [Hc _].
    rewrite Hc. exists rest. split; [|done].
    change (String c' f +:+ rest) with (String c' (f +:+ rest)). by rewrite Hr.
Qed.

(** The display name of a project is the part of its name after the last
    slash: it holds no slash, the name ends with it, and what precedes it
    is empty or ends with a slash. *)
Theorem projectDisplayName_spec (name : string) :
  ∃ pre d, projectDisplayName name = Some d
    ∧ hasChar slash d = false
    ∧ name = pre +:+ d
    ∧ (pre = "" ∨ ∃ q, pre = q +:+ "/").
Proof.
  unfold projectDisplayName, pop.
  pose proof (split_segments_noSep slash name) as Hno.
  pose proof (joinAny_split slash name) as Hj.
  pose proof (split_nonempty slash name) as Hne.
  destruct (split slash name) as [|a l] using rev_ind; [done|]. clear IHl.
  apply Forall_app in Hno as [_ Hno]. rewrite Forall_singleton in Hno.
  rewrite last_snoc.
  destruct l as [|b l].
  - exists "", a. simpl in Hj. subst name.
    split; [done|]. split; [done|]. split; [done | by left].
  - rewrite joinAny_app in Hj by done. cbn [join] in Hj.
    exists (join "/" (b :: l) +:+ "/"), a.
    split; [done|]. split; [done|]. split; [|right; by eexists].
    rewrite <- Hj. by rewrite append_assoc.
Qed.

End LabelFacts.

(** ** Expanded folders *)

Section ToggleFacts.
Import CodeSurvivalFileTree.

(** Toggling a folder flips whether it is expanded and leaves every other
    folder as it was; toggling it twice restores the set, and toggles of
    two folders can be made in either order. *)
Theorem toggleFolder_involution (p q : string) (expandedFolders : gset string) :
  isExpanded (toggleFolder p expandedFolders) p = negb (isExpanded expandedFolders p)
  ∧ (q ≠ p →
     isExpanded (toggleFolder p expandedFolders) q = isExpanded expandedFolders q)
  ∧ toggleFolder p (toggleFolder p expandedFolders) = expandedFolders
  ∧ toggleFolder p (toggleFolder q expandedFolders)
    = toggleFolder q (toggleFolder p expandedFolders).
Proof.
  assert (Hin : ∀ a b (s : gset string),
            a ∈ toggleFolder b s ↔ (a ∈ s ∧ a ≠ b) ∨ (a = b ∧ b ∉ s)).
  { intros a b s. unfold toggleFolder. case_bool_decide as Hb.
    - rewrite elem_of_difference, elem_of_singleton. intuition congruence.
    - rewrite elem_of_union, elem_of_singleton. intuition congruence. }
  split; [|split; [|split]].
  - unfold isExpanded.
    destruct (bool_decide_reflect (p ∈ expandedFolders)) as [H|H]; simpl.
    + apply bool_decide_eq_false. rewrite Hin. intuition congruence.
    + apply bool_decide_eq_true. rewrite Hin. intuition congruence.
  - intros Hq. unfold isExpanded. apply bool_decide_ext. rewrite Hin.
    intuition congruence.
  - apply set_eq. intros a. rewrite !Hin.
    destruct (decide (a = p)); destruct (decide (p ∈ expandedFolders));
      subst; intuition congruence.
  - apply set_eq. intros a. rewrite !Hin.
    destruct (decide (a = p)); destruct (decide (a = q));
      destruct (decide (p ∈ expandedFolders));
      destruct (decide (q ∈ expandedFolders)); subst; intuition congruence.
Qed.

End ToggleFacts.

(** ** The loader over all runs *)

Section LoaderRuns.
Import JsObject ProjectDetails TreeNames LoaderInvariants.

Variable op : ObjectPrototype.

(** What a call of the loader does to the component. *)
Lemma begin_state captured sid σ :
  applyEffects (loadOneShotStats_begin op captured sid) σ
  = if guard op captured sid then σ
    else {| cur := {| oneShotStats := oneShotStats (cur σ);
                      loadingStats := applyLoading sid true (loadingStats (cur σ)) |};
            inflight := sid :: inflight σ;
            writes := writes σ |}.
Proof.
  unfold loadOneShotStats_begin. by destruct (guard op captured sid).
Qed.

(** A property that every call keeps is kept by a round of calls. *)
Lemma batch_keeps (P : System → Prop) captured (ss : list Session) σ :
  (∀ σ' s, In s ss → P σ' →
     P (applyEffects (loadOneShotStats_begin op captured (id s)) σ')) →
  P σ →
  P (applyEffects (flat_map (fun s => loadOneShotStats_begin op captured (id s)) ss) σ).
Proof.
  revert σ. induction ss as [|s ss IH]; intros σ Hstep HP; [done|].
  simpl. rewrite applyEffects_app. apply IH.
  - intros σ' s' Hs'. apply Hstep. by right.
  - apply Hstep; [by left | done].
Qed.

Lemma step_keeps (P : System → Prop) σ ev :
  (∀ σ' captured sid, P σ' →
     P (applyEffects (loadOneShotStats_begin op captured sid) σ')) →
  (∀ sid response, pending sid σ = true →
     P (applyEffects (loadOneShotStats_resume sid response) (settle sid σ))) →
  P σ → P (step op σ ev).
Proof.
  intros Hb Hr HP. destruct ev as [sid|ss|sid st|sid e]; cbn [step].
  - by apply Hb.
  - apply batch_keeps; [|done]. intros σ' s _. apply Hb.
  - destruct (pending sid σ) eqn:Hp; [by apply Hr | done].
  - destruct (pending sid σ) eqn:Hp; [by apply Hr | done].
Qed.

Lemma occurrences_pending sid σ :
  (0 < occurrences sid (inflight σ))%nat → pending sid σ = true.
Proof.
  unfold pending. induction (inflight σ) as [|x l IH].
  - unfold occurrences. simpl. lia.
  - rewrite occurrences_cons. simpl. destruct (String.eqb sid x); simpl; [done|].
    intros H. apply IH. lia.
Qed.

Lemma flagged_step σ ev : flagged σ → flagged (step op σ ev).
Proof.
  intros HP. apply step_keeps; [| |done].
  - intros σ' captured sid Hf sid'. rewrite begin_state.
    destruct (guard op captured sid); [apply Hf|]. simpl.
    unfold applyLoading. rewrite occurrences_cons.
    destruct (String.eqb_spec sid' sid) as [->|Hne]; [intros _; simpl; lia|].
    rewrite lookup_insert_ne by done. apply Hf.
  - intros sid response Hp sid'.
    assert (Hl : loadingStats
                   (cur (applyEffects (loadOneShotStats_resume sid response)
                           (settle sid σ)))
                 = applyLoading sid false (loadingStats (cur σ)))
      by (by destruct response).
    assert (Hi : inflight (applyEffects (loadOneShotStats_resume sid response)
                             (settle sid σ))
                 = removeOne sid (inflight σ))
      by (by destruct response).
    rewrite Hl, Hi. unfold applyLoading.
    destruct (decide (sid' = sid)) as [->|Hne].
    + by rewrite lookup_insert_eq.
    + rewrite lookup_insert_ne by done.
      rewrite occurrences_removeOne_ne by done. apply HP.
Qed.

(** Over any run of clicks, firings of the auto-load effect and responses,
    whenever the loading flag of a session is set, a request for that
    session is in flight: the response that clears the flag is still to
    come, so no spinner is left behind. *)
Theorem loading_flag_has_request (evs : list Event) (sid : string) :
  loadingStats (cur (run op evs)) !! sid = Some true →
  pending sid (run op evs) = true.
Proof.
  intros Hl. apply occurrences_pending. revert sid Hl.
  change (flagged (run op evs)). unfold run.
  assert (H0 : flagged initial) by (intros sid; simpl; by rewrite lookup_empty).
  revert H0. generalize initial.
  induction evs as [|ev evs IH]; intros σ Hσ; [done|].
  cbn [fold_left]. by apply IH, flagged_step.
Qed.

(** Over any run, the statistics shown for a session are those of a
    response that arrived for the session: a failed request writes
    nothing, and no result is made up. *)
Theorem results_come_from_responses (evs : list Event) (sid : string)
    (st : OneShotStats) :
  oneShotStats (cur (run op evs)) !! sid = Some st → In (Resolve sid st) evs.
Proof.
  revert sid st. unfold run.
  induction evs as [|ev evs IH] using rev_ind; intros sid st.
  - simpl. by rewrite lookup_empty.
  - rewrite fold_left_app. cbn [fold_left]. rewrite in_app_iff.
    set (σ := fold_left (step op) evs initial) in *.
    assert (Hkeep : ∀ ev',
              (∀ sid' st', ev' ≠ Resolve sid' st') →
              oneShotStats (cur (step op σ ev')) = oneShotStats (cur σ)).
    { intros ev' Hev.
      assert (Hb : ∀ σ' captured sid',
                oneShotStats (cur σ') = oneShotStats (cur σ) →
                oneShotStats
                  (cur (applyEffects (loadOneShotStats_begin op captured sid') σ'))
                = oneShotStats (cur σ)).
      { intros σ' captured sid' H. rewrite begin_state.
        by destruct (guard op captured sid'). }
      destruct ev' as [sid'|ss|sid' st'|sid' e]; cbn [step].
      - by apply Hb.
      - apply (batch_keeps (fun σ' => oneShotStats (cur σ') = oneShotStats (cur σ)));
          [|done].
        intros σ' s _. apply Hb.
      - by destruct (Hev sid' st').
      - by destruct (pending sid' σ). }
    destruct ev as [sid'|ss|sid' st'|sid' e].
    1,2,4: rewrite Hkeep by done; intros H; left; by apply IH.
    cbn [step]. destruct (pending sid' σ); [|intros H; left; by apply IH].
    simpl. unfold applyResult.
    destruct (decide (sid = sid')) as [->|Hne].
    + rewrite lookup_insert_eq. intros [= ->]. right. by left.
    + rewrite lookup_insert_ne by done. intros H. left. by apply IH.
Qed.

(** Once statistics are loaded for a session they stay: whatever happens
    afterwards, the session keeps an entry in the result map and the
    loader sends no further request for it. *)
Theorem loaded_stats_never_requested_again (σ : System) (evs : list Event)
    (sid : string) :
  is_Some (oneShotStats (cur σ) !! sid) →
  is_Some (oneShotStats (cur (fold_left (step op) evs σ)) !! sid)
  ∧ (occurrences sid (inflight (fold_left (step op) evs σ))
     ≤ occurrences sid (inflight σ))%nat.
Proof.
  revert σ. induction evs as [|ev evs IH]; intros σ Hs; [split; [done | simpl; lia]|].
  cbn [fold_left].
  assert (Hstep : is_Some (oneShotStats (cur (step op σ ev)) !! sid)
                  ∧ (occurrences sid (inflight (step op σ ev))
                     ≤ occurrences sid (inflight σ))%nat).
  { assert (Hb : ∀ σ' sid',
              is_Some (oneShotStats (cur σ') !! sid)
              ∧ (occurrences sid (inflight σ') ≤ occurrences sid (inflight σ))%nat →
              is_Some (oneShotStats
                         (cur (applyEffects (loadOneShotStats_begin op (cur σ) sid') σ'))
                       !! sid)
              ∧ (occurrences sid
                   (inflight (applyEffects (loadOneShotStats_begin op (cur σ) sid') σ'))
                 ≤ occurrences sid (inflight σ))%nat).
    { intros σ' sid' [H1 H2]. rewrite begin_state.
      destruct (guard op (cur σ) sid') eqn:Hg; [done|]. simpl. split; [done|].
      rewrite occurrences_cons.
      destruct (String.eqb_spec sid sid') as [<-|Hne]; [|lia].
      by rewrite guard_own_stats in Hg. }
    assert (Hr : ∀ sid' response,
              is_Some (oneShotStats
                         (cur (applyEffects (loadOneShotStats_resume sid' response)
                                 (settle sid' σ))) !! sid)
              ∧ (occurrences sid
                   (inflight (applyEffects (loadOneShotStats_resume sid' response)
                                (settle sid' σ)))
                 ≤ occurrences sid (inflight σ))%nat).
    { intros sid' response.
      assert (Hi : inflight (applyEffects (loadOneShotStats_resume sid' response)
                               (settle sid' σ))
                   = removeOne sid' (inflight σ))
        by (by destruct response).
      rewrite Hi. split.
      - destruct response as [st|e]; simpl; [|done]. unfold applyResult.
        destruct (decide (sid = sid')) as [->|Hne].
        + rewrite lookup_insert_eq. by eexists.
        + by rewrite lookup_insert_ne.
      - destruct (decide (sid = sid')) as [->|Hne].
        + rewrite occurrences_removeOne_eq. lia.
        + by rewrite occurrences_removeOne_ne. }
    destruct ev as [sid'|ss|sid' st|sid' e]; cbn [step].
    - apply Hb. split; [done | lia].
    - apply (batch_keeps
               (fun σ' => is_Some (oneShotStats (cur σ') !! sid)
                          ∧ (occurrences sid (inflight σ')
                             ≤ occurrences sid (inflight σ))%nat)).
      + intros σ' s _. apply Hb.
      + split; [done | lia].
    - destruct (pending sid' σ); [apply Hr | split; [done | lia]].
    - destruct (pending sid' σ); [apply Hr | split; [done | lia]]. }
  destruct Hstep as [H1 H2]. destruct (IH _ H1) as [H3 H4]. split; [done | lia].
Qed.

(** A failed load can be retried: when the response to a request is a
    rejection and no statistics are there for the session, the loading
    flag is cleared, and the next click on the session sends a new request
    and sets the flag again. *)
Theorem failed_load_can_be_retried (σ : System) (sid : string) (e : JsError) :
  pending sid σ = true →
  oneShotStats (cur σ) !! sid = None →
  plainName op sid →
  let σ1 := step op σ (Reject sid e) in
  let σ2 := step op σ1 (Click sid) in
  loadingStats (cur σ1) !! sid = Some false
  ∧ oneShotStats (cur σ1) = oneShotStats (cur σ)
  ∧ inflight σ1 = removeOne sid (inflight σ)
  ∧ inflight σ2 = sid :: inflight σ1
  ∧ loadingStats (cur σ2) !! sid = Some true
  ∧ writes σ2 = writes σ.
Proof.
  intros Hp Hs Hplain. cbn zeta. cbn [step]. rewrite Hp. cbn [loadOneShotStats_resume].
  set (σ1 := applyEffects _ (settle sid σ)).
  assert (Hl : loadingStats (cur σ1) !! sid = Some false).
  { subst σ1. simpl. apply lookup_insert_eq. }
  assert (Hst : oneShotStats (cur σ1) = oneShotStats (cur σ)) by done.
  assert (Hg : guard op (cur σ1) sid = false).
  { unfold guard, loadingTruthy, statsTruthy, objGet. rewrite Hl, Hst, Hs. simpl.
    unfold plainName in Hplain. by destruct (inheritedGet op sid). }
  rewrite begin_state, Hg. simpl. unfold applyLoading.
  rewrite !lookup_insert_eq. done.
Qed.

End LoaderRuns.

(** ** The tree of the survival view *)

Section SurvivalTreeFacts.
Import JsString JsObject TreeNames CodeSurvivalFileTree SurvivalTreeSpec.

Lemma nodeAt_nil level : nodeAt [] level = None.
Proof. done. Qed.

Lemma nodeAt_single part level : nodeAt [part] level = dataOf <$> level !! part.
Proof. done. Qed.

Lemma nodeAt_cons part q level :
  q ≠ [] →
  nodeAt (part :: q) level
  = match level !! part with
    | Some node =>
        match children node with
        | Some kids => nodeAt q kids
        | None => None
        end
    | None => None
    end.
Proof.
  intros Hq. unfold nodeAt. destruct q as [|b q]; [done|]. cbn [findNode].
  destruct (level !! part) as [node|]; [|done].
  by destruct (children node).
Qed.

Lemma nodeAt_empty q : nodeAt q ∅ = None.
Proof. destruct q as [|a [|b q]]; done. Qed.

Lemma objGet_plain_missing {V} op (level : gmap string V) part :
  plainName op part → level !! part = None →
  match objGet op level part with
  | Own _ => False
  | Inherited i => inheritedTruthy i = false
  | Undefined => True
  end.
Proof.
  intros Hp Hl. unfold objGet. rewrite Hl. unfold plainName in Hp.
  by destruct (inheritedGet op part).
Qed.

(** What one file does to the tree: the nodes that were there keep what
    they show, and the segments of the path that had no node get one. *)
Lemma nodeAt_insert f before parts op level level' q :
  Forall (plainName op) parts →
  insertParts f before parts op level = Normal level' →
  nodeAt q level'
  = match nodeAt q level with
    | Some d => Some d
    | None =>
        if bool_decide (q ≠ [] ∧ q `prefix_of` parts)
        then Some (createdData f before q (bool_decide (q = parts)))
        else None
    end.
Proof.
  revert before level level' q.
  induction parts as [|part rest IH]; intros before level level' q Hplain Hins.
  - injection Hins as <-. destruct (nodeAt q level); [done|].
    rewrite bool_decide_eq_false_2; [done|].
    intros [Hq Hp]. by apply prefix_nil_inv in Hp.
  - apply Forall_cons in Hplain as [Hpart Hrest].
    cbn [insertParts] in Hins.
    destruct (level !! part) as [node|] eqn:Hl.
    + (* the node is there *)
      unfold objGet in Hins. rewrite Hl in Hins.
      destruct rest as [|b rest'].
      * injection Hins as <-. destruct (nodeAt q level) eqn:Hq; [done|].
        rewrite bool_decide_eq_false_2; [done|].
        intros [Hne Hp]. destruct q as [|a q]; [done|].
        apply prefix_cons_inv_1 in Hp as Ha. apply prefix_cons_inv_2 in Hp.
        apply prefix_nil_inv in Hp. subst.
        rewrite nodeAt_single, Hl in Hq. done.
      * cbn [isLast] in Hins.
        destruct (children node) as [kids|] eqn:Hk; [|done].
        destruct (insertParts f (before ++ [part]) (b :: rest') op kids)
          as [kids'|] eqn:Hi; [|done].
        injection Hins as <-.
        destruct q as [|a q]; [done|].
        destruct (decide (a = part)) as [->|Ha].
        -- destruct q as [|c q].
           ++ rewrite !nodeAt_single, lookup_insert_eq, Hl. simpl.
              unfold dataOf, isLeaf. simpl. by rewrite Hk.
           ++ rewrite !nodeAt_cons by done. rewrite lookup_insert_eq, Hl, Hk. simpl.
              rewrite (IH _ _ _ (c :: q) Hrest Hi).
              destruct (nodeAt (c :: q) kids); [done|].
              rewrite (bool_decide_ext (c :: q ≠ [] ∧ c :: q `prefix_of` b :: rest')
                         (part :: c :: q ≠ [] ∧ part :: c :: q `prefix_of` part :: b :: rest')).
              2:{ split; intros [_ H]; (split; [done|]).
                  - by apply prefix_cons.
                  - by apply prefix_cons_inv_2 in H. }
              rewrite (bool_decide_ext (c :: q = b :: rest')
                         (part :: c :: q = part :: b :: rest'))
                by (split; [by intros -> | by intros [= -> ->]]).
              unfold createdData. by rewrite <- app_assoc.
        -- assert (Hsame : nodeAt (a :: q) (<[part := withChildren node kids']> level)
                           = nodeAt (a :: q) level).
           { destruct q as [|c q].
             - by rewrite !nodeAt_single, lookup_insert_ne.
             - rewrite !nodeAt_cons by done. by rewrite lookup_insert_ne. }
           rewrite Hsame. destruct (nodeAt (a :: q) level); [done|].
           rewrite bool_decide_eq_false_2; [done|].
           intros [_ Hp]. by apply prefix_cons_inv_1 in Hp.
    + (* the node is created *)
      pose proof (objGet_plain_missing op level part Hpart Hl) as Hget.
      set (node := created f before part (isLast rest)) in *.
      assert (Hcreate :
        (if isLast rest then Normal (<[part := node]> level)
         else match children node with
              | Some kids =>
                  kids' ← insertParts f (before ++ [part]) rest op kids;
                  Normal (<[part := withChildren node kids']> (<[part := node]> level))
              | None => Throw TypeError
              end) = Normal level').
      { destruct (objGet op level part) as [?|i|]; [done| |done].
        by rewrite Hget in Hins. }
      clear Hins Hget.
      destruct rest as [|b rest'].
      * cbn [isLast] in *. injection Hcreate as <-.
        destruct q as [|a q]; [done|].
        destruct (decide (a = part)) as [->|Ha].
        -- destruct q as [|c q].
           ++ rewrite !nodeAt_single, lookup_insert_eq, Hl. simpl.
              rewrite bool_decide_eq_true_2 by done.
              by rewrite bool_decide_eq_true_2.
           ++ rewrite !nodeAt_cons by done. rewrite lookup_insert_eq, Hl. simpl.
              rewrite bool_decide_eq_false_2; [done|].
              intros [_ Hp]. apply prefix_cons_inv_2 in Hp.
              by apply prefix_nil_inv in Hp.
        -- assert (Hsame : nodeAt (a :: q) (<[part := node]> level)
                           = nodeAt (a :: q) level).
           { destruct q as [|c q].
             - by rewrite !nodeAt_single, lookup_insert_ne.
             - rewrite !nodeAt_cons by done. by rewrite lookup_insert_ne. }
           rewrite Hsame. destruct (nodeAt (a :: q) level); [done|].
           rewrite bool_decide_eq_false_2; [done|].
           intros [_ Hp]. by apply prefix_cons_inv_1 in Hp.
      * cbn [isLast] in *. subst node. cbn [created children] in Hcreate.
        destruct (insertParts f (before ++ [part]) (b :: rest') op ∅)
          as [kids'|] eqn:Hi; [|done].
        injection Hcreate as <-. rewrite insert_insert_eq.
        destruct q as [|a q]; [done|].
        destruct (decide (a = part)) as [->|Ha].
        -- destruct q as [|c q].
           ++ rewrite !nodeAt_single, lookup_insert_eq, Hl. simpl.
              rewrite bool_decide_eq_true_2
                by (split; [done | by apply prefix_cons, prefix_nil]).
              by rewrite bool_decide_eq_false_2.
           ++ rewrite !nodeAt_cons by done. rewrite lookup_insert_eq, Hl. simpl.
              rewrite (IH _ _ _ (c :: q) Hrest Hi), nodeAt_empty.
              rewrite (bool_decide_ext (c :: q ≠ [] ∧ c :: q `prefix_of` b :: rest')
                         (part :: c :: q ≠ [] ∧ part :: c :: q `prefix_of` part :: b :: rest')).
              2:{ split; intros [_ H]; (split; [done|]).
                  - by apply prefix_cons.
                  - by apply prefix_cons_inv_2 in H. }
              rewrite (bool_decide_ext (c :: q = b :: rest')
                         (part :: c :: q = part :: b :: rest'))
                by (split; [by intros -> | by intros [= -> ->]]).
              unfold createdData. by rewrite <- app_assoc.
        -- assert (Hsame : ∀ n', nodeAt (a :: q) (<[part := n']> level)
                           = nodeAt (a :: q) level).
           { intros n'. destruct q as [|c q].
             - by rewrite !nodeAt_single, lookup_insert_ne.
             - rewrite !nodeAt_cons by done. by rewrite lookup_insert_ne. }
           rewrite Hsame. destruct (nodeAt (a :: q) level); [done|].
           rewrite bool_decide_eq_false_2; [done|].
           intros [_ Hp]. by apply prefix_cons_inv_1 in Hp.
Qed.

(** The file gets into the tree when no node on the way to its last
    segment is a file. *)
Lemma insert_returns f before parts op level :
  Forall (plainName op) parts →
  (∀ q d, q ≠ parts → q `prefix_of` parts → nodeAt q level = Some d →
          d_leaf d = false) →
  ∃ level', insertParts f before parts op level = Normal level'.
Proof.
  revert before level.
  induction parts as [|part rest IH]; intros before level Hplain Hfolders;
    [by eexists|].
  apply Forall_cons in Hplain as [Hpart Hrest].
  cbn [insertParts].
  destruct (level !! part) as [node|] eqn:Hl.
  - unfold objGet. rewrite Hl.
    destruct rest as [|b rest']; [by eexists|]. cbn [isLast].
    assert (Hleaf : isLeaf node = false).
    { apply (Hfolders [part] (dataOf node)); [done| |].
      - apply prefix_cons, prefix_nil.
      - by rewrite nodeAt_single, Hl. }
    unfold isLeaf in Hleaf. destruct (children node) as [kids|] eqn:Hk; [|done].
    destruct (IH (before ++ [part])%list kids Hrest) as [kids' ->]; [|by eexists].
    intros q d Hne Hp Hq. destruct q as [|c q]; [done|].
    apply (Hfolders (part :: c :: q) d); [congruence | by apply prefix_cons |].
    rewrite nodeAt_cons by done. by rewrite Hl, Hk.
  - pose proof (objGet_plain_missing op level part Hpart Hl) as Hget.
    assert (Hc : ∃ level',
      (if isLast rest
       then Normal (<[part := created f before part (isLast rest)]> level)
       else match children (created f before part (isLast rest)) with
            | Some kids =>
                kids' ← insertParts f (before ++ [part]) rest op kids;
                Normal (<[part := withChildren (created f before part (isLast rest)) kids']>
                          (<[part := created f before part (isLast rest)]> level))
            | None => Throw TypeError
            end) = Normal level').
    { destruct rest as [|b rest']; [by eexists|]. cbn [isLast created children].
      destruct (IH (before ++ [part])%list ∅ Hrest) as [kids' ->]; [|by eexists].
      intros q d _ _ Hq. by rewrite nodeAt_empty in Hq. }
    destruct (objGet op level part) as [?|i|]; [done| |done].
    by rewrite Hget.
Qed.

(** A path that goes on below a file node throws. *)
Lemma insert_throws f before q rest op level d :
  nodeAt q level = Some d → d_leaf d = true → rest ≠ [] →
  insertParts f before (q ++ rest) op level = Throw TypeError.
Proof.
  revert before level. induction q as [|part q IH]; intros before level Hq Hleaf Hrest;
    [done|].
  change ((part :: q) ++ rest)%list with (part :: (q ++ rest))%list.
  cbn [insertParts].
  destruct q as [|c q].
  - rewrite nodeAt_single in Hq.
    destruct (level !! part) as [node|] eqn:Hl; [|done].
    injection Hq as <-. unfold objGet. rewrite Hl.
    destruct rest as [|b rest']; [done|]. cbn [app isLast].
    simpl in Hleaf. unfold isLeaf in Hleaf. by destruct (children node).
  - rewrite nodeAt_cons in Hq by done.
    destruct (level !! part) as [node|] eqn:Hl; [|done].
    destruct (children node) as [kids|] eqn:Hk; [|done].
    unfold objGet. rewrite Hl. cbn [app isLast]. rewrite Hk.
    change (c :: (q ++ rest))%list with ((c :: q) ++ rest)%list.
    by rewrite (IH _ _ Hq Hleaf Hrest).
Qed.

(** A path that ends at a node of the tree changes nothing. *)
Lemma insert_existing f before parts op level :
  is_Some (findNode parts level) → insertParts f before parts op level = Normal level.
Proof.
  revert before level. induction parts as [|part rest IH]; intros before level Hfound;
    [done|].
  cbn [insertParts]. destruct rest as [|b rest'].
  - cbn [findNode] in Hfound. destruct Hfound as [node Hl].
    unfold objGet. by rewrite Hl.
  - cbn [findNode] in Hfound.
    destruct (level !! part) as [node|] eqn:Hl; [|by destruct Hfound].
    destruct (children node) as [kids|] eqn:Hk; [|by destruct Hfound].
    unfold objGet. rewrite Hl. cbn [isLast]. rewrite Hk.
    rewrite (IH _ _ Hfound). simpl. f_equal.
    apply insert_id. rewrite Hl. f_equal.
    destruct node. simpl in Hk. by rewrite Hk.
Qed.

Lemma buildRoot_snoc op done f :
  buildRoot op (done ++ [f])
  = (root ← buildRoot op done;
     insertParts f [] (split slash (OneShot.path f)) op root).
Proof. unfold buildRoot. by rewrite fold_left_app. Qed.

Lemma buildRoot_thrown op (later : list OneShot.FileStat) e :
  fold_left (fun acc f =>
               root ← acc;
               insertParts f [] (split slash (OneShot.path f)) op root)
            later (Throw e) = Throw e.
Proof. induction later as [|f later IH]; [done | apply IH]. Qed.

Lemma prefixFree_app l1 l2 : prefixFree (l1 ++ l2) → prefixFree l1.
Proof.
  intros H f g rest Hf Hg. apply H; apply in_app_iff; by left.
Qed.

Lemma firstWithPath_In p files g : firstWithPath p files g → In g files.
Proof.
  intros (l1 & l2 & -> & _). apply in_app_iff. right. by left.
Qed.

(** One more file, in a list without a path that stops at a folder. *)
Lemma represents_step op root done f :
  represents root done →
  Forall (plainName op) (split slash (OneShot.path f)) →
  prefixFree (done ++ [f]) →
  ∃ root', insertParts f [] (split slash (OneShot.path f)) op root = Normal root'
           ∧ represents root' (done ++ [f]).
Proof.
  intros [I1 I2] Hplain Hfree.
  set (parts := split slash (OneShot.path f)) in *.
  destruct (insert_returns f [] parts op root Hplain) as [root' Hins].
  { intros q d Hne [rest Hpre] Hq. destruct (d_leaf d) eqn:Hleaf; [|done].
    exfalso. destruct (I1 q d Hq) as (_ & _ & Hc). rewrite Hleaf in Hc.
    destruct Hc as (_ & g & _ & Hg & Hfirst).
    apply Hne. rewrite Hpre.
    rewrite (Hfree g f rest); [by rewrite app_nil_r | | |].
    - apply in_app_iff. left. by eapply firstWithPath_In.
    - apply in_app_iff. right. by left.
    - by rewrite Hg. }
  exists root'. split; [done|]. split.
  - intros q d Hq. rewrite (nodeAt_insert _ _ _ _ _ _ q Hplain Hins) in Hq.
    destruct (nodeAt q root) as [d0|] eqn:Hold.
    + injection Hq as <-. destruct (I1 q d0 Hold) as (Hp & Hn & Hc).
      split; [done|]. split; [done|].
      destruct (d_leaf d0).
      * destruct Hc as (Ht & g & Hs & Hg & (l1 & l2 & -> & Hpg & Hl1)).
        split; [done|]. exists g. split; [done|]. split; [done|].
        exists l1, (l2 ++ [f])%list. split; [by rewrite <- app_assoc | done].
      * destruct Hc as (Ht & Hs & g & rest & Hin & Hrest & Hg).
        split; [done|]. split; [done|]. exists g, rest.
        split; [apply in_app_iff; by left | done].
    + case_bool_decide as Hcond; [|done]. destruct Hcond as [Hne [rest Hpre]].
      injection Hq as <-. cbn [createdData d_path d_name d_leaf d_type d_stat app].
      split; [done|]. split; [done|].
      case_bool_decide as Heq.
      * split; [done|]. exists f. split; [done|]. split; [by subst q|].
        exists done, []. split; [done|]. split; [done|].
        intros h Hh Hph.
        destruct (I2 h (split slash (OneShot.path h)) Hh) as [d' Hd'];
          [apply split_nonempty | done |].
        rewrite Hph in Hd'. fold parts in Hd'. rewrite <- Heq in Hd'. congruence.
      * split; [done|]. split; [done|]. exists f, rest.
        split; [apply in_app_iff; right; by left|].
        split; [|done]. intros ->. by rewrite app_nil_r in Hpre.
  - intros g q Hg Hne Hpre. rewrite (nodeAt_insert _ _ _ _ _ _ _ Hplain Hins).
    destruct (nodeAt q root) eqn:Hold; [by eexists|].
    apply in_app_iff in Hg as [Hg|[<-|[]]].
    + destruct (I2 g q Hg Hne Hpre) as [d' Hd']. congruence.
    + rewrite bool_decide_eq_true_2; [by eexists | done].
Qed.

Lemma buildRoot_represents op files :
  (∀ f, In f files → Forall (plainName op) (split slash (OneShot.path f))) →
  prefixFree files →
  ∃ root, buildRoot op files = Normal root ∧ represents root files.
Proof.
  induction files as [|f files IH] using rev_ind; intros Hplain Hfree.
  - exists ∅. split; [done|]. split.
    + intros q d Hq. by rewrite nodeAt_empty in Hq.
    + intros g q [].
  - destruct IH as (root & Hb & Hrep).
    { intros g Hg. apply Hplain, in_app_iff. by left. }
    { by eapply prefixFree_app. }
    destruct (represents_step op root files f Hrep) as (root' & Hins & Hrep');
      [apply Hplain, in_app_iff; right; by left | done |].
    exists root'. split; [|done]. by rewrite buildRoot_snoc, Hb.
Qed.

(** When no segment names a truthy member of [Object.prototype] and no
    path stops where another path has a folder, the tree is built, and
    every file is found by following the segments of its path: the node
    there is a file node without children, its path is the path of the
    file, and it carries the first record of the list with that path.
    The path of every node is the segments that lead to it, joined. *)
Theorem survivalTree_finds_every_file op (files : list OneShot.FileStat) :
  (∀ f, In f files → Forall (plainName op) (split slash (OneShot.path f))) →
  prefixFree files →
  ∃ root, buildRoot op files = Normal root
    ∧ (∀ f, In f files →
         ∃ node g, findNode (split slash (OneShot.path f)) root = Some node
           ∧ type node = file ∧ children node = None
           ∧ path node = OneShot.path f
           ∧ fileStat node = Some g
           ∧ firstWithPath (OneShot.path f) files g)
    ∧ (∀ q node, findNode q root = Some node →
         path node = join "/" q ∧ name node = default "" (last q)).
Proof.
  intros Hplain Hfree.
  destruct (buildRoot_represents op files Hplain Hfree) as (root & Hb & I1 & I2).
  exists root. split; [done|]. split.
  - intros f Hf.
    destruct (I2 f (split slash (OneShot.path f)) Hf) as [d Hd];
      [apply split_nonempty | done |].
    destruct (I1 _ d Hd) as (Hp & _ & Hc).
    unfold nodeAt in Hd.
    destruct (findNode (split slash (OneShot.path f)) root) as [node|]; [|done].
    injection Hd as <-. simpl in Hp, Hc. rewrite join_split in Hp.
    unfold isLeaf in Hc. destruct (children node) as [kids|] eqn:Hk.
    + destruct Hc as (_ & _ & g & rest & Hg & Hrest & Hsp).
      by destruct Hrest, (Hfree f g rest Hf Hg Hsp).
    + destruct Hc as (Ht & g & Hs & Hsp & Hfirst).
      exists node, g. repeat (split; [done|]).
      assert (Hpg : OneShot.path g = OneShot.path f)
        by (by rewrite <- (join_split (OneShot.path g)), Hsp, join_split).
      by rewrite <- Hpg.
  - intros q node Hq.
    destruct (I1 q (dataOf node)) as (Hp & Hn & _); [|done].
    unfold nodeAt. by rewrite Hq.
Qed.

(** A file whose path goes on below the path of an earlier file makes
    [buildFileTree] throw a TypeError: the earlier file is a node without
    children, and the loop reads a property of its [children]. *)
Theorem survivalTree_throws_below_file op (done later : list OneShot.FileStat)
    (f g : OneShot.FileStat) (rest : list string) :
  (∀ f, In f done → Forall (plainName op) (split slash (OneShot.path f))) →
  prefixFree done →
  In f done →
  split slash (OneShot.path g) = (split slash (OneShot.path f) ++ rest)%list →
  rest ≠ [] →
  buildRoot op (done ++ g :: later) = Throw TypeError.
Proof.
  intros Hplain Hfree Hf Hsp Hrest.
  destruct (buildRoot_represents op done Hplain Hfree) as (root & Hb & I1 & I2).
  destruct (I2 f (split slash (OneShot.path f)) Hf) as [d Hd];
    [apply split_nonempty | done |].
  destruct (I1 _ d Hd) as (_ & _ & Hc).
  assert (Hleaf : d_leaf d = true).
  { destruct (d_leaf d); [done|].
    destruct Hc as (_ & _ & h & rest' & Hh & Hrest' & Hsp').
    by destruct Hrest', (Hfree f h rest' Hf Hh Hsp'). }
  unfold buildRoot in *. rewrite fold_left_app, Hb. cbn [fold_left].
  assert (Hthrow : (root ← Normal root;
                    insertParts g [] (split slash (OneShot.path g)) op root)
                   = Throw TypeError).
  { simpl. rewrite Hsp. by eapply insert_throws. }
  rewrite Hthrow. apply buildRoot_thrown.
Qed.

(** A file whose path ends at a node the tree has already, a folder or a
    file, is left out: the tree stays as it is, and no record is replaced. *)
Theorem survivalTree_keeps_existing_nodes op (done : list OneShot.FileStat)
    (f : OneShot.FileStat) (root : gmap string FileTreeNode) :
  buildRoot op done = Normal root →
  is_Some (findNode (split slash (OneShot.path f)) root) →
  buildRoot op (done ++ [f]) = Normal root.
Proof.
  intros Hb Hfound. rewrite buildRoot_snoc, Hb. simpl.
  by apply insert_existing.
Qed.

Lemma firstLevelFolders_elem root p :
  p ∈ firstLevelFolders root
  ↔ ∃ part node, root !! part = Some node ∧ type node = folder ∧ path node = p.
Proof.
  unfold firstLevelFolders. rewrite list_elem_of_In, in_map_iff. split.
  - intros (node & Hp & Hin). apply filter_In in Hin as [Hin Hty].
    apply in_map_iff in Hin as ([part node'] & Heq & Hin). simpl in Heq. subst node'.
    apply list_elem_of_In, elem_of_map_to_list in Hin.
    exists part, node. split; [done|]. split; [by destruct (type node) | done].
  - intros (part & node & Hl & Hty & Hp). exists node. split; [done|].
    apply filter_In. split; [|by rewrite Hty].
    apply in_map_iff. exists (part, node). split; [done|].
    by apply list_elem_of_In, elem_of_map_to_list.
Qed.

(** The folders of the first level are the first segments of the paths
    that have more than one segment. *)
Lemma firstLevelFolders_represents root files p :
  represents root files → prefixFree files →
  p ∈ firstLevelFolders root
  ↔ ∃ f rest, In f files ∧ rest ≠ [] ∧ split slash (OneShot.path f) = p :: rest.
Proof.
  intros [I1 I2] Hfree. rewrite firstLevelFolders_elem. split.
  - intros (part & node & Hl & Hty & Hp).
    destruct (I1 [part] (dataOf node)) as (Hpath & _ & Hc);
      [by rewrite nodeAt_single, Hl|].
    simpl in Hpath, Hc. rewrite Hp in Hpath. subst part.
    destruct (isLeaf node).
    + destruct Hc as [Hfile _]. congruence.
    + destruct Hc as (_ & _ & g & rest & Hg & Hrest & Hsp). by exists g, rest.
  - intros (f & rest & Hf & Hrest & Hsp).
    destruct (I2 f [p] Hf) as [d Hd];
      [done | rewrite Hsp; apply prefix_cons, prefix_nil |].
    rewrite nodeAt_single in Hd.
    destruct (root !! p) as [node|] eqn:Hl; [|done]. injection Hd as <-.
    destruct (I1 [p] (dataOf node)) as (Hpath & _ & Hc);
      [by rewrite nodeAt_single, Hl|].
    simpl in Hpath, Hc. exists p, node. split; [done|].
    destruct (isLeaf node); [|by destruct Hc].
    destruct Hc as (_ & g & _ & Hg & Hfirst%firstWithPath_In).
    destruct Hrest. apply (Hfree g f rest Hfirst Hf). by rewrite Hg.
Qed.

(** When the tree changes, the effect expands exactly the folders of the
    first level, which are the first segments of the paths with more than
    one segment, whatever was expanded before; when no path has more than
    one segment, the set of expanded folders is left as it was. *)
Theorem defaultExpanded_first_segments op (files : list OneShot.FileStat)
    (root : gmap string FileTreeNode) (prev : gset string) :
  (∀ f, In f files → Forall (plainName op) (split slash (OneShot.path f))) →
  prefixFree files →
  buildRoot op files = Normal root →
  ((∃ f, In f files ∧ (1 < length (split slash (OneShot.path f)))%nat) →
   ∀ p, isExpanded (defaultExpanded root prev) p = true
        ↔ ∃ f rest, In f files ∧ rest ≠ []
                    ∧ split slash (OneShot.path f) = p :: rest)
  ∧ ((∀ f, In f files → length (split slash (OneShot.path f)) = 1%nat) →
     defaultExpanded root prev = prev).
Proof.
  intros Hplain Hfree Hb.
  destruct (buildRoot_represents op files Hplain Hfree) as (root' & Hb' & Hrep).
  assert (root' = root) as -> by congruence.
  pose proof (fun p => firstLevelFolders_represents root files p Hrep Hfree) as Hfl.
  unfold defaultExpanded, isExpanded. split.
  - intros (f & Hf & Hlen) p.
    destruct (split slash (OneShot.path f)) as [|a [|b rest]] eqn:Hsp;
      [simpl in Hlen; lia | simpl in Hlen; lia |].
    assert (Ha : a ∈ firstLevelFolders root)
      by (apply Hfl; by exists f, (b :: rest)).
    destruct (firstLevelFolders root) as [|x l] eqn:Hl; [by apply elem_of_nil in Ha|].
    cbn [length Nat.ltb Nat.leb]. rewrite bool_decide_eq_true, elem_of_list_to_set.
    apply Hfl.
  - intros Hone.
    destruct (firstLevelFolders root) as [|x l] eqn:Hl; [done|].
    assert (Hx : x ∈ x :: l) by apply list_elem_of_here.
    apply Hfl in Hx as (f & rest & Hf & Hrest & Hsp).
    specialize (Hone f Hf). rewrite Hsp in Hone. by destruct rest.
Qed.

End SurvivalTreeFacts.

(** ** Adding and removing a tag *)

Section TagCompositionFacts.
Import JsString TagManager.

(** Removing the name that was just added gives the list that removing it
    from the list before the addition gives: the new tag goes, and with it
    every older tag of that name; no tag of that name is left, a second
    removal changes nothing more, and when no tag had the name before, the
    list is back as it was. *)
Theorem tag_remove_after_add (sessionId : string) (captured s : State) (now : Z) :
  trim (newTagName captured) ≠ "" →
  let added := (handleAddTag sessionId captured (Normal ()) now s).1 in
  let removed := (handleRemoveTag sessionId (newTagName captured) (Normal ()) added).1 in
  tags removed
  = tags (handleRemoveTag sessionId (newTagName captured) (Normal ()) s).1
  ∧ (∀ t, In t (tags removed) → name t ≠ newTagName captured)
  ∧ tags (handleRemoveTag sessionId (newTagName captured) (Normal ()) removed).1
    = tags removed
  ∧ ((∀ t, In t (tags s) → name t ≠ newTagName captured) → tags removed = tags s).
Proof.
  intros Hne. cbn zeta. unfold handleAddTag.
  apply String.eqb_neq in Hne as ->. cbn [fst handleRemoveTag tags].
  rewrite List.filter_app. cbn [List.filter name].
  rewrite String.eqb_refl. cbn [negb]. rewrite app_nil_r.
  split; [done|]. split; [|split].
  - intros t [_ Ht]%filter_In. by apply negb_true_iff, String.eqb_neq in Ht.
  - rewrite filter_twice. apply filter_ext. intros t. by destruct (negb _).
  - intros Hnone. rewrite <- (filter_true (tags s)) at 2.
    apply filter_ext_in. intros t Ht. apply negb_true_iff, String.eqb_neq.
    by apply Hnone.
Qed.

End TagCompositionFacts.

(** ** The colours of the overall score *)

Section ScoreColorFacts.
Import ScoreColors.

(** The square and the bar show the overall score in the same colour
    except at a score of exactly 80, where the square is green and the bar
    yellow; and a higher score never gets a worse colour in either. *)
Theorem overall_score_colors (s s' : Q) :
  (badgeColor s = barColor s ↔ ¬ (s == 80)%Q)
  ∧ ((s == 80)%Q → badgeColor s = green ∧ barColor s = yellow)
  ∧ ((s <= s')%Q →
     (rank (badgeColor s) ≤ rank (badgeColor s'))%nat
     ∧ (rank (barColor s) ≤ rank (barColor s'))%nat).
Proof.
  destruct s as [n d], s' as [n' d'].
  unfold badgeColor, barColor, Qle_bool, Qle, Qeq. cbn [Qnum Qden].
  split; [|split].
  - destruct (Z.leb_spec (80 * Z.pos d) (n * 1));
      destruct (Z.leb_spec (n * 1) (80 * Z.pos d));
      destruct (Z.leb_spec (n * 1) (50 * Z.pos d)); cbn [negb];
      split; first [ done | lia | (intros _; lia) | (intros H'; exfalso; lia) ].
  - intros Heq.
    destruct (Z.leb_spec (80 * Z.pos d) (n * 1)); [|lia].
    destruct (Z.leb_spec (n * 1) (80 * Z.pos d)); [|lia].
    destruct (Z.leb_spec (n * 1) (50 * Z.pos d)); [lia | done].
  - intros Hle.
    destruct (Z.leb_spec (80 * Z.pos d) (n * 1));
      destruct (Z.leb_spec (n * 1) (80 * Z.pos d));
      destruct (Z.leb_spec (n * 1) (50 * Z.pos d));
      destruct (Z.leb_spec (80 * Z.pos d') (n' * 1));
      destruct (Z.leb_spec (n' * 1) (80 * Z.pos d'));
      destruct (Z.leb_spec (n' * 1) (50 * Z.pos d')); cbn [negb rank];
      first [ (split; lia) | (exfalso; nia) ].
Qed.

End ScoreColorFacts.

Section ViewExamples.
Import JsString JsText FileChangeViews MessageItem Labels CodeSurvivalFileTree
  ScoreColors TagManager Samples.

Lemma contentViewer_shows_prefix_witness :
  truncatedNote "abcdef" 4 false = true
  ∧ shownContent "abcdef" 4 false = "abcd"
  ∧ String.length (shownContent "abcdef" 4 false) = 4%nat.
Proof.
  assert (H : truncatedNote "abcdef" 4 false = true) by reflexivity.
  split; [exact H|]. split; [reflexivity|].
  exact (proj1 (proj1 (proj2 (contentViewer_shows_prefix "abcdef" 4 false)) H)).
Defined.

Lemma messagePreview_long_witness :
  isLong longMessage = true
  ∧ initiallyExpanded longMessage = false
  ∧ remainingLines longMessage = 1%Z.
Proof.
  assert (H : isLong longMessage = true) by (by vm_compute).
  split; [exact H|]. split; [|by vm_compute].
  exact (proj1 (messagePreview_long longMessage H)).
Defined.

Lemma messagePreview_short_witness :
  isLong "one line" = false
  ∧ shownText "one line" false = "one line" +:+ ellipsisLine.
Proof.
  assert (H : isLong "one line" = false) by (by vm_compute).
  split; [exact H|].
  exact (proj2 (proj2 (messagePreview_short "one line" H))).
Defined.

Lemma toggleFolder_involution_witness :
  "src" ≠ "docs"
  ∧ isExpanded (toggleFolder "docs" {[ "src" ]}) "src" = isExpanded {[ "src" ]} "src".
Proof.
  assert (H : "src" ≠ "docs") by discriminate.
  split; [exact H|].
  exact (proj1 (proj2 (toggleFolder_involution "docs" "src" {[ "src" ]})) H).
Defined.

Lemma tag_remove_after_add_witness :
  trim (newTagName Examples.twoTags) ≠ ""
  ∧ ∀ t, In t (tags (handleRemoveTag "s1" "urgent" (Normal ())
                       (handleAddTag "s1" Examples.twoTags (Normal ()) 1767225600000
                          Examples.twoTags).1).1) →
         name t ≠ "urgent".
Proof.
  assert (H : trim (newTagName Examples.twoTags) ≠ "") by (vm_compute; discriminate).
  split; [exact H|].
  exact (proj1 (proj2 (tag_remove_after_add "s1" Examples.twoTags Examples.twoTags
                         1767225600000 H))).
Defined.

Lemma overall_score_colors_witness :
  (80 == 80)%Q ∧ badgeColor 80 = green ∧ barColor 80 = yellow.
Proof.
  assert (H : (80 == 80)%Q) by reflexivity.
  split; [exact H|].
  exact (proj1 (proj2 (overall_score_colors 80 80)) H).
Defined.

End ViewExamples.

Section LoaderRunExamples.
Import JsObject ProjectDetails LoaderSpec.

Lemma loading_flag_has_request_witness :
  loadingStats (cur (run pristine [Click "s1"])) !! "s1" = Some true
  ∧ pending "s1" (run pristine [Click "s1"]) = true.
Proof.
  assert (H : loadingStats (cur (run pristine [Click "s1"])) !! "s1" = Some true)
    by (by vm_compute).
  split; [exact H|].
  exact (loading_flag_has_request pristine [Click "s1"] "s1" H).
Defined.

Lemma results_come_from_responses_witness :
  oneShotStats (cur (run pristine [Click "s1"; Resolve "s1" someStats])) !! "s1"
  = Some someStats
  ∧ In (Resolve "s1" someStats) [Click "s1"; Resolve "s1" someStats].
Proof.
  assert (H : oneShotStats (cur (run pristine [Click "s1"; Resolve "s1" someStats]))
              !! "s1" = Some someStats) by (by vm_compute).
  split; [exact H|].
  exact (results_come_from_responses pristine _ "s1" someStats H).
Defined.

Lemma loaded_stats_never_requested_again_witness :
  is_Some (oneShotStats (cur (run pristine [Click "s1"; Resolve "s1" someStats]))
           !! "s1")
  ∧ (occurrences "s1"
       (inflight (fold_left (step pristine)
                    [Click "s1"; AutoLoad [session "s1" (Some 2%Z)]]
                    (run pristine [Click "s1"; Resolve "s1" someStats])))
     ≤ occurrences "s1"
         (inflight (run pristine [Click "s1"; Resolve "s1" someStats])))%nat.
Proof.
  assert (H : is_Some (oneShotStats
                         (cur (run pristine [Click "s1"; Resolve "s1" someStats]))
                       !! "s1")) by (by vm_compute; eexists).
  split; [exact H|].
  exact (proj2 (loaded_stats_never_requested_again pristine _
                  [Click "s1"; AutoLoad [session "s1" (Some 2%Z)]] "s1" H)).
Defined.

Lemma failed_load_can_be_retried_witness :
  pending "s1" (run pristine [Click "s1"]) = true
  ∧ inflight (step pristine
                (step pristine (run pristine [Click "s1"]) (Reject "s1" TypeError))
                (Click "s1"))
    = "s1" :: inflight (step pristine (run pristine [Click "s1"]) (Reject "s1" TypeError)).
Proof.
  assert (H1 : pending "s1" (run pristine [Click "s1"]) = true) by (by vm_compute).
  assert (H2 : oneShotStats (cur (run pristine [Click "s1"])) !! "s1" = None)
    by (by vm_compute).
  assert (H3 : TreeNames.plainName pristine "s1") by (by vm_compute).
  split; [exact H1|].
  exact (proj1 (proj2 (proj2 (proj2
           (failed_load_can_be_retried pristine _ "s1" TypeError H1 H2 H3))))).
Defined.

End LoaderRunExamples.

Section SurvivalTreeExamples.
Import JsString JsObject TreeNames CodeSurvivalFileTree SurvivalTreeSpec Samples.

Lemma samples_plain (files : list OneShot.FileStat) :
  Forall (fun f => Forall (fun part => inheritedGet pristine part = None)
                          (split slash (OneShot.path f))) files →
  ∀ f, In f files → Forall (plainName pristine) (split slash (OneShot.path f)).
Proof.
  intros H f Hf. rewrite Forall_forall in H.
  specialize (H f (proj2 (list_elem_of_In _ _) Hf)).
  eapply Forall_impl; [exact H|]. intros part Hp. unfold plainName. by rewrite Hp.
Defined.

Lemma survivalTree_finds_every_file_witness :
  ∃ root, buildRoot pristine [statAt "src/a.ts"; statAt "src/lib/b.ts"] = Normal root
    ∧ ∃ node, findNode ["src"; "lib"; "b.ts"] root = Some node
        ∧ type node = file ∧ path node = "src/lib/b.ts".
Proof.
  destruct (survivalTree_finds_every_file pristine
              [statAt "src/a.ts"; statAt "src/lib/b.ts"])
    as (root & Hb & Hfiles & _).
  - apply samples_plain. repeat constructor.
  - intros f g rest [<-|[<-|[]]] [<-|[<-|[]]] H; vm_compute in H;
      destruct rest; congruence.
  - exists root. split; [exact Hb|].
    destruct (Hfiles (statAt "src/lib/b.ts")) as (node & g & Hn & Ht & _ & Hp & _);
      [simpl; tauto|].
    exists node. split; [exact Hn|]. split; [exact Ht | exact Hp].
Defined.

Lemma survivalTree_throws_below_file_witness :
  buildRoot pristine ([statAt "notes"] ++ statAt "notes/a.md" :: []) = Throw TypeError.
Proof.
  apply (survivalTree_throws_below_file pristine [statAt "notes"] []
           (statAt "notes") (statAt "notes/a.md") ["a.md"]).
  - apply samples_plain. repeat constructor.
  - intros f g rest [<-|[]] [<-|[]] H; vm_compute in H; destruct rest; congruence.
  - simpl. tauto.
  - reflexivity.
  - discriminate.
Defined.

Lemma survivalTree_keeps_existing_nodes_witness :
  ∃ root, buildRoot pristine [statAt "notes/a.md"] = Normal root
    ∧ buildRoot pristine ([statAt "notes/a.md"] ++ [statAt "notes"]) = Normal root.
Proof.
  assert (H : ∃ root, buildRoot pristine [statAt "notes/a.md"] = Normal root
                      ∧ is_Some (findNode (split slash (OneShot.path (statAt "notes")))
                                   root)).
  { eexists. split; [reflexivity|]. vm_compute. by eexists. }
  destruct H as (root & Hb & Hfound). exists root. split; [exact Hb|].
  exact (survivalTree_keeps_existing_nodes pristine _ (statAt "notes") root Hb Hfound).
Defined.

Lemma defaultExpanded_first_segments_witness :
  ∃ root, buildRoot pristine [statAt "src/a.ts"; statAt "README.md"] = Normal root
    ∧ (isExpanded (defaultExpanded root ∅) "src" = true
       ↔ ∃ f rest, In f [statAt "src/a.ts"; statAt "README.md"] ∧ rest ≠ []
                   ∧ split slash (OneShot.path f) = "src" :: rest).
Proof.
  assert (Hb : ∃ root, buildRoot pristine [statAt "src/a.ts"; statAt "README.md"]
                       = Normal root) by (by eexists).
  destruct Hb as [root Hb]. exists root. split; [exact Hb|].
  assert (Hplain : ∀ f, In f [statAt "src/a.ts"; statAt "README.md"] →
                        Forall (plainName pristine) (split slash (OneShot.path f)))
    by (apply samples_plain; repeat constructor).
  assert (Hfree : prefixFree [statAt "src/a.ts"; statAt "README.md"]).
  { intros f g rest [<-|[<-|[]]] [<-|[<-|[]]] H; vm_compute in H;
      destruct rest; congruence. }
  apply (proj1 (defaultExpanded_first_segments pristine
                  [statAt "src/a.ts"; statAt "README.md"] root ∅ Hplain Hfree Hb)).
  exists (statAt "src/a.ts"). split; [simpl; tauto | vm_compute; lia].
Defined.

End SurvivalTreeExamples.

(** ** The tree and the groups of the file-change modal *)

Section TreeAndGroups.
Import JsString JsObject CommonPrefix PathPrefix FileChangeModal FileChangeViews
  TreeNames TreeLookupSpec ChangeSpec.

(** A file node of the tree was put there for one of the paths. *)
Lemma fold_storedAt_origin pre fileMap paths rt q p st :
  storedAt q (fold_left (insertPathPlain pre fileMap) paths rt) = Some (p, st) →
  storedAt q rt = Some (p, st) ∨ (In p paths ∧ st = JsMap.get p fileMap).
Proof.
  revert rt. induction paths as [|p0 paths IH]; intros rt Hq; [by left|].
  cbn [fold_left] in Hq. destruct (IH _ Hq) as [Hrt|[Hin Hst]].
  - unfold insertPathPlain in Hrt.
    assert (Hins : ∀ parts, parts ≠ [] →
              storedAt q (insertPlain p0 (JsMap.get p0 fileMap) parts rt) = Some (p, st) →
              storedAt q rt = Some (p, st) ∨ (p = p0 ∧ st = JsMap.get p0 fileMap)).
    { intros parts Hne H. destruct (decide (q = parts)) as [->|Hqp].
      - rewrite storedAt_insert_same in H by done. injection H as <- <-. by right.
      - rewrite storedAt_insert_other in H by done. by left. }
    assert (Hcases : storedAt q rt = Some (p, st)
                     ∨ (p = p0 ∧ st = JsMap.get p0 fileMap)).
    { destruct (relativeParts pre p0) as [|[|c s] [|b l]] eqn:Hrel.
      - left. exact Hrt.
      - left. exact Hrt.
      - by apply Hins in Hrt.
      - by apply Hins in Hrt.
      - by apply Hins in Hrt. }
    destruct Hcases as [H|[-> ->]]; [by left|]. right. split; [by left | done].
  - right. split; [by right | done].
Qed.

(** Every file of the tree has its group: when no path and no segment
    names a truthy member of [Object.prototype], the tree and the groups
    are built.  When, moreover, [Object.prototype] has no truthy
    [fullPath], a node that FileTreeNode shows as a file carries the path
    of a change, with the status the map has for it, and the groups have
    an entry for that path, so that a click on the file finds its group.
    When [Object.prototype] does have a non-empty [fullPath] (an earlier
    tree with a path that ends in [__proto__] leaves one), every node
    without a [fullPath] of its own, every folder that is, reads as a file
    with that path. *)
Theorem tree_files_have_groups op (changes : list FileChange) :
  (∀ c, In c changes →
        plainName op (path c) ∧ Forall (plainName op) (split slash (path c))) →
  ∃ built groups,
    buildFileTree op (fileStatusMap changes) = (op, Normal built)
    ∧ groupedChanges op changes = Normal groups
    ∧ (plainName op "fullPath" →
       ∀ q p st, fileAt op q (root built) = Some (p, st) →
         is_Some (groups !! p)
         ∧ st = JsMap.get p (fileStatusMap changes)
         ∧ is_Some st)
    ∧ (∀ p0, protoFullPath op = Some p0 → p0 ≠ "" →
       ∀ q node, findNode q (root built) = Some node → fullPath node = None →
         fileAt op q (root built) = Some (p0, protoStatus op)).
Proof.
  intros Hplain.
  assert (Hpolluted : ∀ (tree : gmap string TreeNode) p0,
            protoFullPath op = Some p0 → p0 ≠ "" →
            ∀ q node, findNode q tree = Some node → fullPath node = None →
              fileAt op q tree = Some (p0, protoStatus op)).
  { intros tree p0 Hp0 Hne q node Hq Hown.
    unfold fileAt, isFile, readFullPath, readStatus. rewrite Hq, Hown, Hp0.
    by apply String.eqb_neq in Hne as ->. }
  destruct (groups_fold op changes ∅) as (groups & Hg & Hl);
    [intros c Hc; by apply Hplain|].
  set (fileMap := fileStatusMap changes).
  set (paths := JsMap.keys fileMap).
  assert (Hkeys : ∀ p, In p paths → ∃ c, In c changes ∧ path c = p).
  { intros p Hp. unfold paths, fileMap in Hp.
    rewrite fileStatusMap_keys_eq in Hp.
    apply (proj1 (firstOccurrences_In _ _)) in Hp.
    apply in_map_iff in Hp as (c & Hc & Hin). by exists c. }
  assert (Hgroup : ∀ p, In p paths → is_Some (groups !! p)).
  { intros p Hp. destruct (Hkeys p Hp) as (c & Hc & Hpc). rewrite Hl.
    destruct (List.filter (fun c => String.eqb (path c) p) changes) eqn:Hf;
      [|by eexists].
    assert (Hin : In c (List.filter (fun c => String.eqb (path c) p) changes))
      by (apply filter_In; split; [done | by apply String.eqb_eq]).
    by rewrite Hf in Hin. }
  destruct (decide (paths = [])) as [Hk|Hne].
  { unfold buildFileTree. fold fileMap. fold paths. rewrite Hk.
    eexists _, groups. split; [done|]. split; [done|]. split; [|apply Hpolluted].
    intros Hfp q p st Hq. apply fileAt_storedAt in Hq; [|done].
    simpl in Hq. by rewrite storedAt_empty in Hq. }
  destruct (commonParts_longest_proper paths Hne) as (Hs & Hpr & _).
  unfold sharedBy in Hs. unfold properIn in Hpr.
  rewrite Forall_forall in Hs. rewrite Forall_forall in Hpr.
  assert (Hrel : ∀ p, In p paths →
            Forall (plainName op) (relativeParts (prefixString paths) p)).
  { intros p Hp.
    assert (Hin : split slash p ∈ map (split slash) paths)
      by (by apply list_elem_of_In, in_map).
    destruct (Hs _ Hin) as [rest Hr]. specialize (Hpr _ Hin).
    assert (Hrne : rest ≠ []).
    { intros ->. rewrite app_nil_r in Hr. rewrite Hr in Hpr. lia. }
    destruct (Hkeys p Hp) as (c & Hc & <-).
    destruct (Hplain c Hc) as [_ Hsegs]. rewrite Forall_forall in Hsegs.
    apply Forall_forall. intros part Hpart. apply Hsegs.
    apply list_elem_of_In. apply list_elem_of_In in Hpart.
    by apply (relativeParts_segments _ rest _ Hr Hrne). }
  unfold buildFileTree. fold fileMap. fold paths.
  destruct paths as [|p0 ps] eqn:Hpaths; [done|]. rewrite <- Hpaths in *.
  rewrite fold_insertPath_plain by done.
  eexists _, groups. split; [done|]. split; [done|]. split; [|apply Hpolluted].
  cbn [root]. intros Hfp q p st Hq. apply fileAt_storedAt in Hq; [|done].
  apply fold_storedAt_origin in Hq as [Hq|[Hp ->]]; [by rewrite storedAt_empty in Hq|].
  split; [by apply Hgroup|]. split; [done|]. by apply keys_get.
Qed.

End TreeAndGroups.

(** ** Nothing in the survival tree but the files and their folders *)

Section SurvivalTreeOrigin.
Import JsString JsObject TreeNames CodeSurvivalFileTree SurvivalTreeSpec.

(** Under the conditions that let every file in, every node of the tree
    comes from the list: a node without children is a file node that
    carries a record of the list whose path leads to the node, and a node
    with children is a folder without a record on the way to some file. *)
Theorem survivalTree_nodes_come_from_files op (files : list OneShot.FileStat)
    (root : gmap string FileTreeNode) :
  (∀ f, In f files → Forall (plainName op) (split slash (OneShot.path f))) →
  prefixFree files →
  buildRoot op files = Normal root →
  ∀ q node, findNode q root = Some node →
    match children node with
    | None =>
        type node = file
        ∧ ∃ g, fileStat node = Some g ∧ In g files
               ∧ split slash (OneShot.path g) = q ∧ path node = OneShot.path g
    | Some _ =>
        type node = folder ∧ fileStat node = None
        ∧ ∃ g rest, In g files ∧ rest ≠ []
                    ∧ split slash (OneShot.path g) = (q ++ rest)%list
    end.
Proof.
  intros Hplain Hfree Hb q node Hq.
  destruct (buildRoot_represents op files Hplain Hfree) as (root' & Hb' & I1 & _).
  assert (root' = root) as -> by congruence.
  destruct (I1 q (dataOf node)) as (Hp & _ & Hc); [unfold nodeAt; by rewrite Hq|].
  simpl in Hp, Hc. unfold isLeaf in Hc. destruct (children node); [done|].
  destruct Hc as (Ht & g & Hs & Hsp & Hfirst).
  split; [done|]. exists g. split; [done|]. split; [by eapply firstWithPath_In|].
  split; [done|]. by rewrite Hp, <- Hsp, join_split.
Qed.

End SurvivalTreeOrigin.

(** ** The changes listed in the modal *)

Section ChangesModalFacts.
Import FileChangeModal ChangesModal.

Lemma removeOne_In sid x l : In x (ProjectDetails.removeOne sid l) → In x l.
Proof.
  induction l as [|y l IH]; simpl; [done|].
  destruct (String.eqb sid y); [by right|].
  intros [->|H]; [by left | right; by apply IH].
Qed.

Lemma inStep_step σ ev :
  inStep σ → (∀ sid, ev = View sid → awaiting σ = []) → inStep (step σ ev).
Proof.
  intros [Ha Hs] Hview. destruct ev as [sid|sid changes|sid|]; cbn [step].
  - rewrite (Hview sid eq_refl). split; [|by left].
    intros sid' [<-|[]]. done.
  - destruct (existsb (String.eqb sid) (awaiting σ)) eqn:Hp; [|done].
    apply existsb_exists in Hp as (x & Hx & ->%String.eqb_eq).
    split; simpl.
    + intros sid' Hin. by apply Ha, (removeOne_In x).
    + right. symmetry. by apply Ha.
  - destruct (existsb (String.eqb sid) (awaiting σ)) eqn:Hp; [|done].
    split; simpl; [|done]. intros sid' Hin. by apply Ha, (removeOne_In sid).
  - done.
Qed.

(** As long as every click comes when no call is without a response, the
    changes listed in the modal are those of the selected session.
    Otherwise they need not be: when the changes of a session are still
    being fetched while a second session is opened, and the first response
    comes last, the modal lists the changes of the first session under the
    id of the second. *)
Theorem changes_follow_last_response :
  (∀ evs, oneAtATime initial evs →
     shownFor (run evs initial) = None
     ∨ shownFor (run evs initial) = selectedSessionId (run evs initial))
  ∧ (∀ σ a b ca cb, a ≠ b →
       let σ' := run [View a; Close; View b; Loaded b cb; Loaded a ca] σ in
       modalOpen σ' = true ∧ selectedSessionId σ' = Some b
       ∧ fileChanges σ' = ca ∧ shownFor σ' = Some a
       ∧ shownFor σ' ≠ selectedSessionId σ').
Proof.
  split.
  - intros evs Hone.
    assert (H0 : inStep initial) by (split; [by intros sid [] | by left]).
    revert Hone H0. unfold run. generalize initial.
    induction evs as [|ev evs IH]; intros σ Hone Hσ; [apply Hσ|].
    cbn [fold_left]. apply IH.
    + destruct ev; simpl in Hone; tauto.
    + apply inStep_step; [done|]. intros sid ->. simpl in Hone. tauto.
  - intros σ a b ca cb Hab. cbn zeta. unfold run. cbn [fold_left].
    cbn [step awaiting existsb]. rewrite String.eqb_refl. cbn [orb].
    cbn [awaiting existsb ProjectDetails.removeOne]. rewrite String.eqb_refl.
    cbn [awaiting existsb]. rewrite String.eqb_refl. cbn [orb].
    cbn [modalOpen selectedSessionId fileChanges shownFor].
    repeat (split; [done|]). congruence.
Qed.

End ChangesModalFacts.

Section OriginExamples.
Import JsString JsObject TreeNames FileChangeModal FileChangeViews
  CodeSurvivalFileTree SurvivalTreeSpec Examples Samples.

Lemma tree_files_have_groups_witness :
  plainName pristine "fullPath"
  ∧ ∃ built groups,
      buildFileTree pristine (fileStatusMap someChanges) = (pristine, Normal built)
      ∧ groupedChanges pristine someChanges = Normal groups
      ∧ fileAt pristine ["b.ts"] (root built) = Some ("src/b.ts", Some "write")
      ∧ is_Some (groups !! "src/b.ts").
Proof.
  assert (Hfp : plainName pristine "fullPath") by (by vm_compute).
  split; [exact Hfp|].
  destruct (tree_files_have_groups pristine someChanges)
    as (built & groups & Hb & Hg & Hfiles & _).
  - intros c Hc. simpl in Hc.
    repeat (destruct Hc as [<-|Hc]; [by vm_compute; repeat constructor|]). done.
  - exists built, groups. split; [exact Hb|]. split; [exact Hg|].
    assert (Hat : fileAt pristine ["b.ts"] (root built)
                  = Some ("src/b.ts", Some "write")).
    { vm_compute in Hb. injection Hb as <-. by vm_compute. }
    split; [exact Hat|]. exact (proj1 (Hfiles Hfp _ _ _ Hat)).
Defined.

Lemma survivalTree_nodes_come_from_files_witness :
  ∃ root node,
    buildRoot pristine [statAt "src/a.ts"; statAt "README.md"] = Normal root
    ∧ findNode ["src"] root = Some node
    ∧ type node = folder ∧ fileStat node = None.
Proof.
  assert (H : ∃ root node,
            buildRoot pristine [statAt "src/a.ts"; statAt "README.md"] = Normal root
            ∧ findNode ["src"] root = Some node ∧ is_Some (children node)).
  { eexists _, _. split; [reflexivity|]. split; [by vm_compute|]. by eexists. }
  destruct H as (root & node & Hb & Hn & [kids Hk]).
  exists root, node. split; [exact Hb|]. split; [exact Hn|].
  assert (Hplain : ∀ f, In f [statAt "src/a.ts"; statAt "README.md"] →
                        Forall (plainName pristine) (split slash (OneShot.path f)))
    by (apply samples_plain; repeat constructor).
  assert (Hfree : prefixFree [statAt "src/a.ts"; statAt "README.md"]).
  { intros f g rest [<-|[<-|[]]] [<-|[<-|[]]] H; vm_compute in H;
      destruct rest; congruence. }
  pose proof (survivalTree_nodes_come_from_files pristine _ root Hplain Hfree Hb
                ["src"] node Hn) as Hnode.
  rewrite Hk in Hnode. destruct Hnode as (Ht & Hs & _). by split.
Defined.

End OriginExamples.

Section ChangesModalExamples.
Import ChangesModal.

Lemma changes_follow_last_response_witness :
  oneAtATime initial [View "s1"; Loaded "s1" Examples.someChanges; Close; View "s2"]
  ∧ (shownFor (run [View "s1"; Loaded "s1" Examples.someChanges; Close; View "s2"]
                 initial) = None
     ∨ shownFor (run [View "s1"; Loaded "s1" Examples.someChanges; Close; View "s2"]
                   initial)
       = selectedSessionId
           (run [View "s1"; Loaded "s1" Examples.someChanges; Close; View "s2"]
              initial)).
Proof.
  assert (H : oneAtATime initial
                [View "s1"; Loaded "s1" Examples.someChanges; Close; View "s2"])
    by (by vm_compute).
  split; [exact H|].
  exact (proj1 changes_follow_last_response _ H).
Defined.

End ChangesModalExamples.
